(** * typhonjs-plugin-manager: registry and dispatch engine

    A shallow embedding of [src/PluginManager.js], [src/PluginEntry.js] and
    [PluginEvent.js].  JavaScript objects that are shared by reference (event
    payloads, plugin options, the event envelope) live in an explicit store;
    the registry is an insertion-ordered association list, as the ES6 [Map]
    it models; plugin methods are functions on the store that may throw. *)

From stdpp Require Import gmap strings list pretty.
From Stdlib Require Import ZArith Ascii DecimalString.

Open Scope string_scope.

(** ** Values and the object store *)

Definition loc := nat.

(** JavaScript values.  [VRef] points to a plain object or an array in the
    store.  [VBus], [VProxy] and [VPromise] are host objects: an eventbus of
    the events library, an [EventProxy] wrapping some value, and a thenable
    returned by a plugin.  Their own fields are not part of the store. *)
Inductive value : Type :=
| VUndefined
| VNull
| VBool (b : bool)
| VNum (n : Z)
| VStr (s : string)
| VRef (l : loc)
| VBus (b : nat)
| VProxy (target : value)
| VPromise (p : nat).

Global Instance value_eq_dec : EqDecision value.
Proof. solve_decision. Defined.

(** [typeof v] *)
Definition typeof (v : value) : string :=
  match v with
  | VUndefined => "undefined"
  | VBool _ => "boolean"
  | VNum _ => "number"
  | VStr _ => "string"
  | VNull | VRef _ | VBus _ | VProxy _ | VPromise _ => "object"
  end.

(** [a === b] on values (numbers are integers here, so no NaN). *)
Definition strict_eq (a b : value) : bool := bool_decide (a = b).

(** Truthiness, as used by [a || b] and [if (a)]. *)
Definition truthy (v : value) : bool :=
  match v with
  | VUndefined | VNull => false
  | VBool b => b
  | VNum n => negb (Z.eqb n 0)
  | VStr s => negb (String.eqb s "")
  | VRef _ | VBus _ | VProxy _ | VPromise _ => true
  end.

(** A store cell: an object's own properties; an array additionally has its
    indexed elements ([cell_elems = Some _]). *)
Record cell : Type := Cell {
  cell_elems : option (list value);
  cell_props : gmap string value
}.

Definition plain (o : gmap string value) : cell := Cell None o.
Definition array (l : list value) : cell := Cell (Some l) ∅.

Abbreviation heap := (gmap loc cell).

(** Canonical array index denoted by a property key, if any. *)
Definition index_of_key (k : string) : option nat :=
  match NilEmpty.uint_of_string k with
  | Some u =>
      let n := Nat.of_uint u in
      if bool_decide (pretty n = k) then Some n else None
  | None => None
  end.

(** [l[i] = v] on an array, padding with holes when [i] is past the end. *)
Definition list_store (l : list value) (i : nat) (v : value) : list value :=
  if bool_decide (i < length l) then <[i := v]> l
  else l ++ replicate (i - length l) VUndefined ++ [v].

(** [c[k]] restricted to own properties. *)
Definition get_prop (c : cell) (k : string) : value :=
  match index_of_key k, cell_elems c with
  | Some i, Some l => default VUndefined (l !! i)
  | _, _ => default VUndefined (cell_props c !! k)
  end.

(** [c[k] = v] *)
Definition set_prop (k : string) (v : value) (c : cell) : cell :=
  match index_of_key k, cell_elems c with
  | Some i, Some l => Cell (Some (list_store l i v)) (cell_props c)
  | _, _ => Cell (cell_elems c) (<[k := v]> (cell_props c))
  end.

(** Own enumerable properties, indices first. *)
Definition own_entries (c : cell) : list (string * value) :=
  match cell_elems c with
  | Some l => imap (fun i v => (pretty i, v)) l
  | None => []
  end ++ map_to_list (cell_props c).

(** ** Errors and completions *)

(** Exceptions, kept apart by origin.  [NoPluginError] is
    [Error('PluginManager failed to find any target plugins.')],
    [NoMethodError m] is [Error(`PluginManager failed to invoke '${m}'.`)],
    [Destroyed] is the [ReferenceError] of a destroyed manager, [LoadError t]
    a failed [require(t)], [UserError v] a plugin's own [throw v], and
    [Thrown e] is the exception [e] leaving a plugin method the dispatcher
    called. *)
Inductive error : Type :=
| TypeError (msg : string)
| SyntaxError (msg : string)
| Destroyed
| NoPluginError
| NoMethodError (methodName : string)
| LoadError (target : string)
| UserError (v : value)
| Thrown (e : error).

Inductive completion (A : Type) : Type :=
| Normal (a : A)
| Throw (e : error).
Arguments Normal {A} a.
Arguments Throw {A} e.

(** Computations that read and write a state [S] and return or throw. *)
Definition ST (S A : Type) : Type := S → completion A * S.

Global Instance ST_ret {S : Type} : MRet (ST S) := λ A a σ, (Normal a, σ).
Global Instance ST_bind {S : Type} : MBind (ST S) := λ A B f m σ,
  match m σ with
  | (Normal a, σ') => f a σ'
  | (Throw e, σ') => (Throw e, σ')
  end.

Definition throw {S A : Type} (e : error) : ST S A := λ σ, (Throw e, σ).

(** [try { body } catch (error) { handle(error) }] *)
Definition try_catch {S A : Type} (body : ST S A) (handle : error → ST S A)
    : ST S A := λ σ,
  match body σ with
  | (Normal a, σ') => (Normal a, σ')
  | (Throw e, σ') => handle e σ'
  end.

(** ** JSON.parse(JSON.stringify(x)) *)

#[local] Unset Elimination Schemes.
Inductive json : Type :=
| JNull
| JBool (b : bool)
| JNum (n : Z)
| JStr (s : string)
| JArr (l : list json)
| JObj (m : list (string * json)).
#[local] Set Elimination Schemes.

(** Serialisation result: a thrown error, [undefined] (nothing is written), or
    a JSON text. *)
Inductive serial : Type :=
| SerThrow
| SerUndefined
| SerText (j : json).

(** Array elements: [undefined] is written as [null]. *)
Fixpoint ser_elems (rs : list serial) : option (list json) :=
  match rs with
  | [] => Some []
  | SerThrow :: _ => None
  | SerUndefined :: rs' => cons JNull <$> ser_elems rs'
  | SerText j :: rs' => cons j <$> ser_elems rs'
  end.

(** Object members: a property whose value is [undefined] is left out. *)
Fixpoint ser_members (rs : list (string * serial)) : option (list (string * json)) :=
  match rs with
  | [] => Some []
  | (_, SerThrow) :: _ => None
  | (_, SerUndefined) :: rs' => ser_members rs'
  | (k, SerText j) :: rs' => cons (k, j) <$> ser_members rs'
  end.

(** [JSON.stringify] down to [fuel] nested objects.  A bus or a proxy is not
    serialisable: the bus holds the manager's handlers, whose context is the
    manager, which holds the bus. *)
Fixpoint stringify_fuel (fuel : nat) (h : heap) (v : value) : serial :=
  match v with
  | VUndefined => SerUndefined
  | VNull => SerText JNull
  | VBool b => SerText (JBool b)
  | VNum n => SerText (JNum n)
  | VStr s => SerText (JStr s)
  | VPromise _ => SerText (JObj [])
  | VBus _ | VProxy _ => SerThrow
  | VRef l =>
      match fuel with
      | O => SerThrow
      | S fuel' =>
          match h !! l with
          | None => SerThrow
          | Some c =>
              match cell_elems c with
              | Some elems =>
                  match ser_elems (map (stringify_fuel fuel' h) elems) with
                  | Some js => SerText (JArr js)
                  | None => SerThrow
                  end
              | None =>
                  match ser_members
                          (map (fun kv => (kv.1, stringify_fuel fuel' h kv.2))
                               (map_to_list (cell_props c))) with
                  | Some ms => SerText (JObj ms)
                  | None => SerThrow
                  end
              end
          end
      end
  end.

(** A chain of distinct references is no longer than the store, so running out
    of fuel means the structure is circular, for which [JSON.stringify]
    throws. *)
Definition JSON_stringify (h : heap) (v : value) : serial :=
  stringify_fuel (S (size h)) h v.

Definition alloc (c : cell) (h : heap) : loc * heap :=
  let l := fresh (dom h) in (l, <[l := c]> h).

(** [JSON.parse]: every object and array of the text is a new cell. *)
Fixpoint JSON_parse (j : json) (h : heap) {struct j} : value * heap :=
  match j with
  | JNull => (VNull, h)
  | JBool b => (VBool b, h)
  | JNum n => (VNum n, h)
  | JStr s => (VStr s, h)
  | JArr js =>
      let fix elems (js : list json) (h : heap) : list value * heap :=
        match js with
        | [] => ([], h)
        | j :: js' =>
            let '(v, h1) := JSON_parse j h in
            let '(vs, h2) := elems js' h1 in
            (v :: vs, h2)
        end in
      let '(vs, h1) := elems js h in
      let '(l, h2) := alloc (array vs) h1 in
      (VRef l, h2)
  | JObj ms =>
      let fix members (ms : list (string * json)) (h : heap)
          : list (string * value) * heap :=
        match ms with
        | [] => ([], h)
        | (k, j) :: ms' =>
            let '(v, h1) := JSON_parse j h in
            let '(kvs, h2) := members ms' h1 in
            ((k, v) :: kvs, h2)
        end in
      let '(kvs, h1) := members ms h in
      let '(l, h2) := alloc (plain (list_to_map kvs)) h1 in
      (VRef l, h2)
  end.

(** [JSON.parse(JSON.stringify(v))]; [JSON.parse(undefined)] is a
    [SyntaxError]. *)
Definition json_copy (v : value) : ST heap value := λ h,
  match JSON_stringify h v with
  | SerThrow => (Throw (TypeError "Converting circular structure to JSON"), h)
  | SerUndefined => (Throw (SyntaxError "Unexpected token u in JSON"), h)
  | SerText j => let '(v', h') := JSON_parse j h in (Normal v', h')
  end.

(** [Object.assign(target, source)] for a [source] whose [typeof] is
    ['object']: [null] and host objects contribute no property. *)
Definition Object_assign (target source : value) : ST heap value := λ h,
  match target with
  | VRef t =>
      match h !! t with
      | Some tc =>
          match source with
          | VRef s =>
              match h !! s with
              | Some sc =>
                  (Normal target,
                   <[t := foldl (fun c kv => set_prop kv.1 kv.2 c) tc (own_entries sc)]> h)
              | None => (Normal target, h)
              end
          | _ => (Normal target, h)
          end
      | None => (Throw (TypeError "Cannot convert undefined or null to object"), h)
      end
  | VUndefined | VNull =>
      (Throw (TypeError "Cannot convert undefined or null to object"), h)
  | _ => (Normal target, h)
  end.

(** ** Plugins, the program state and its monad *)

(** [obj[k]] for reading, [obj] being any value: reading a property of
    [undefined] or [null] throws; a value without a cell has none. *)
Definition load (obj : value) (k : string) : ST heap value :=
  match obj with
  | VUndefined | VNull => throw (TypeError "Cannot read property of undefined or null")
  | VRef l => λ h, (Normal (from_option (λ c, get_prop c k) VUndefined (h !! l)), h)
  | _ => mret VUndefined
  end.

(** [obj[k] = v] in strict code: assigning to a property of [undefined],
    [null] or a primitive throws. *)
Definition assign (obj : value) (k : string) (v : value) : ST heap unit :=
  match obj with
  | VRef l => λ h,
      match h !! l with
      | Some c => (Normal tt, <[l := set_prop k v c]> h)
      | None => (Throw (TypeError "Cannot set property"), h)
      end
  | VBus _ | VProxy _ | VPromise _ => mret tt
  | _ => throw (TypeError "Cannot set property")
  end.

(** A plugin method: called with its arguments on the current store, it
    returns or throws, and leaves a store. *)
Definition method : Type := list value → ST heap value.

(** A capability object.  [CapNull] is [null] (whose [typeof] is ['object']);
    [CapObject member] is an object, [member k] being the function found under
    [instance[k]] along the whole prototype chain, if [instance[k]] is one. *)
Inductive capability : Type :=
| CapNull
| CapObject (member : string → option method).

(** The callbacks the manager binds on an eventbus. *)
Inductive handler : Type :=
| H_addEventbus | H_addAllEventbus
| H_enableAllPlugins | H_enablePlugin | H_enablePlugins
| H_getMethodNames | H_getOptions | H_getPluginMethodNames
| H_getPluginNames | H_getPluginOptions
| H_hasMethod | H_hasPlugin | H_hasPluginMethod
| H_invokeAsync | H_invokeSync | H_invokeSyncEvent
| H_removeEventbus | H_removeAllEventbus.

Global Instance handler_eq_dec : EqDecision handler.
Proof. solve_decision. Defined.

(** One record of the invocation log: the dispatcher called
    [instance[call_method](...call_args)] on the plugin [call_plugin]. *)
Record call : Type := Call {
  call_plugin : string;
  call_method : string;
  call_args : list value
}.

Module PluginEntry.

(** [src/PluginEntry.js]: the private fields of an entry. *)
Record t : Type := Build {
  _enabled : bool;
  _name : string;
  _type : string;
  _instance : capability;
  _eventProxy : value;
  _options : value
}.

(** [constructor(name, type, instance, eventProxy = void 0, options = void 0)] *)
Definition constructor (name type : string) (inst : capability)
    (eventProxy options : value) : t :=
  {| _enabled := true; _name := name; _type := type; _instance := inst;
     _eventProxy := eventProxy; _options := options |}.

Definition enabled (e : t) : bool := _enabled e.
Definition name (e : t) : string := _name e.
Definition type (e : t) : string := _type e.
Definition instance (e : t) : capability := _instance e.
Definition eventProxy (e : t) : value := _eventProxy e.
Definition options (e : t) : value := _options e.

(** [set enabled(enabled)] *)
Definition set_enabled (enabled : bool) (e : t) : t :=
  {| _enabled := enabled; _name := _name e; _type := _type e;
     _instance := _instance e; _eventProxy := _eventProxy e;
     _options := _options e |}.

(** The function-valued members every object inherits from
    [Object.prototype]. *)
Definition Object_prototype_functions : list string :=
  [ "hasOwnProperty"; "isPrototypeOf"; "propertyIsEnumerable";
    "toLocaleString"; "toString"; "valueOf";
    "__defineGetter__"; "__defineSetter__";
    "__lookupGetter__"; "__lookupSetter__" ].

(** [typeof entry[key] === 'function']: looking [key] up on the entry
    object itself.  The private fields and the accessors yield the stored
    data (a boolean, strings, the instance object or null, the proxy, the
    options), none of which is a function here; what remains is the class's
    own [constructor] and the inherited [Object.prototype] functions. *)
Definition member_is_function (e : t) (key : string) : bool :=
  if bool_decide (key ∈ ["_enabled"; "_name"; "_type"; "_instance";
                        "_eventProxy"; "_options";
                        "enabled"; "name"; "type"; "instance";
                        "eventProxy"; "options"])
  then false
  else bool_decide (key = "constructor")
       || bool_decide (key ∈ Object_prototype_functions).

End PluginEntry.

(** The manager's own options. *)
Record ManagerOptions : Type := {
  noEventAdd : bool;
  noEventRemoval : bool;
  throwNoMethod : bool;
  throwNoPlugin : bool
}.

(** The fields of a [PluginManager] object.  [_pluginMap] is an ES6 [Map],
    here the association list of its entries in insertion order, or [None]
    once the manager is destroyed ([null]). *)
Record PluginManager : Type := {
  _pluginMap : option (list (string * PluginEntry.t));
  _eventbus : value;
  _eventPrepend : value;
  _options : ManagerOptions
}.

(** The program state: the manager object, the object store, the
    subscription table of the eventbuses (bus, event name, callback; the
    context is always the manager), the module loader ([require], [None] when
    loading fails, and [path.resolve]) and the invocation log. *)
Record state : Type := {
  this : PluginManager;
  store : heap;
  subscriptions : list (nat * string * handler);
  modules : string → option capability;
  path_resolve : string → string;
  trace : list call
}.

Abbreviation M := (ST state).

Definition get_this : M PluginManager := λ σ, (Normal (this σ), σ).

Definition set_this (m : PluginManager) : M unit := λ σ,
  (Normal tt, {| this := m; store := store σ; subscriptions := subscriptions σ;
                 modules := modules σ; path_resolve := path_resolve σ;
                 trace := trace σ |}).

Definition set_subscriptions (s : list (nat * string * handler)) : M unit := λ σ,
  (Normal tt, {| this := this σ; store := store σ; subscriptions := s;
                 modules := modules σ; path_resolve := path_resolve σ;
                 trace := trace σ |}).

Definition log_call (c : call) : M unit := λ σ,
  (Normal tt, {| this := this σ; store := store σ;
                 subscriptions := subscriptions σ;
                 modules := modules σ; path_resolve := path_resolve σ;
                 trace := trace σ ++ [c] |}).

(** Run a store operation. *)
Definition on_store {A : Type} (f : ST heap A) : M A := λ σ,
  let '(r, h) := f (store σ) in
  (r, {| this := this σ; store := h; subscriptions := subscriptions σ;
         modules := modules σ; path_resolve := path_resolve σ;
         trace := trace σ |}).

(** [new Object()] / an object or array literal. *)
Definition new_cell (c : cell) : M value :=
  on_store (λ h, let '(l, h') := alloc c h in (Normal (VRef l), h')).

Definition read_prop (obj : value) (k : string) : M value := on_store (load obj k).

Definition write_prop (obj : value) (k : string) (v : value) : M unit :=
  on_store (assign obj k v).

(** [instance[methodName](...args)], recorded in the invocation log; an
    exception leaving the method is marked [Thrown]. *)
Definition call_plugin_method (pluginName methodName : string) (f : method)
    (args : list value) : M value :=
  log_call (Call pluginName methodName args);;
  on_store (λ h, match f args h with
                 | (Normal v, h') => (Normal v, h')
                 | (Throw e, h') => (Throw (Thrown e), h')
                 end).

(** ** The ES6 Map of the registry *)

Section Map.
Context {V : Type}.

Fixpoint assoc (k : string) (m : list (string * V)) : option V :=
  match m with
  | [] => None
  | (k', v) :: m' => if bool_decide (k' = k) then Some v else assoc k m'
  end.

(** [map.get(key)]: the keys are the names [add] stored, all strings. *)
Definition Map_get (m : list (string * V)) (key : value) : option V :=
  match key with
  | VStr k => assoc k m
  | _ => None
  end.

(** [map.set(k, v)]: an existing key keeps its place in the iteration
    order, a new key goes last. *)
Fixpoint Map_set (k : string) (v : V) (m : list (string * V)) : list (string * V) :=
  match m with
  | [] => [(k, v)]
  | (k', v') :: m' =>
      if bool_decide (k' = k) then (k, v) :: m' else (k', v') :: Map_set k v m'
  end.

(** [map.delete(key)] *)
Definition Map_delete (key : value) (m : list (string * V)) : list (string * V) :=
  match key with
  | VStr k => filter (λ kv, kv.1 ≠ k) m
  | _ => m
  end.

(** Mutating in place the object stored under [k]. *)
Definition Map_alter (f : V → V) (k : string) (m : list (string * V))
    : list (string * V) :=
  (λ kv, if bool_decide (kv.1 = k) then (kv.1, f kv.2) else kv) <$> m.

Definition Map_keys (m : list (string * V)) : list string := fst <$> m.
Definition Map_values (m : list (string * V)) : list V := snd <$> m.
Definition Map_has (m : list (string * V)) (key : value) : bool :=
  bool_decide (is_Some (Map_get m key)).

End Map.

(** [for (const x of xs) { s = body(x, s) }] *)
Fixpoint for_of {A S : Type} (body : A → S → M S) (xs : list A) (s : S) : M S :=
  match xs with
  | [] => mret s
  | x :: xs' => s' ← body x s; for_of body xs' s'
  end.

(** The [nameOrList] argument of the dispatch methods: not passed, a string,
    an array or other iterable (given by the values it yields), or anything
    else. *)
Inductive name_or_list : Type :=
| NL_undefined
| NL_string (s : string)
| NL_iterable (names : list value)
| NL_other (v : value).

(** ** PluginEvent *)

Module PluginEvent.

(** [constructor(copyProps = {}, passthruProps = {})]: the new envelope
    object, with
    [this.data = Object.assign(JSON.parse(JSON.stringify(copyProps)), passthruProps)]
    and the three per-plugin fields undefined. *)
Definition constructor (copyProps passthruProps : value) : M value :=
  copyProps ← (if bool_decide (copyProps = VUndefined)
               then new_cell (plain ∅) else mret copyProps);
  passthruProps ← (if bool_decide (passthruProps = VUndefined)
                   then new_cell (plain ∅) else mret passthruProps);
  ev ← new_cell (plain ∅);
  copy ← on_store (json_copy copyProps);
  data ← on_store (Object_assign copy passthruProps);
  write_prop ev "data" data;;
  write_prop ev "eventbus" VUndefined;;
  write_prop ev "pluginName" VUndefined;;
  write_prop ev "pluginOptions" VUndefined;;
  mret ev.

End PluginEvent.

(** ** PluginManager: the private event dispatcher *)

(** What a dispatch loop tracks: [hasMethod], [hasPlugin], and for the event
    protocol [pluginInvokeCount] and [pluginInvokeNames]. *)
Record event_loop : Type := {
  ev_hasMethod : bool;
  ev_hasPlugin : bool;
  pluginInvokeCount : Z;
  pluginInvokeNames : list string
}.

(** [plugin.instance] is truthy. *)
Definition instance_truthy (c : capability) : bool :=
  match c with CapNull => false | CapObject _ => true end.

(** [typeof plugin.instance[methodName] === 'function'], with the function. *)
Definition instance_method (c : capability) (methodName : string) : option method :=
  match c with CapNull => None | CapObject member => member methodName end.

(** The body both branches of [s_INVOKE_SYNC_EVENTS] run for one name. *)
Definition s_INVOKE_SYNC_EVENTS_target (methodName : string) (ev : value)
    (pluginMap : option (list (string * PluginEntry.t)))
    (name : value) (s : event_loop) : M event_loop :=
  match pluginMap with
  | None => throw (TypeError "Cannot read property 'get' of null")
  | Some pluginMap =>
      match Map_get pluginMap name with
      | Some plugin =>
          if PluginEntry.enabled plugin && instance_truthy (PluginEntry.instance plugin)
          then
            match instance_method (PluginEntry.instance plugin) methodName with
            | Some f =>
                write_prop ev "eventbus" (PluginEntry.eventProxy plugin);;
                write_prop ev "pluginName" (VStr (PluginEntry.name plugin));;
                write_prop ev "pluginOptions" (PluginEntry.options plugin);;
                call_plugin_method (PluginEntry.name plugin) methodName f [ev];;
                mret {| ev_hasMethod := true; ev_hasPlugin := true;
                        pluginInvokeCount := pluginInvokeCount s + 1;
                        pluginInvokeNames :=
                          pluginInvokeNames s ++ [PluginEntry.name plugin] |}
            | None =>
                mret {| ev_hasMethod := ev_hasMethod s; ev_hasPlugin := true;
                        pluginInvokeCount := pluginInvokeCount s;
                        pluginInvokeNames := pluginInvokeNames s |}
            end
          else mret s
      | None => mret s
      end
  end.

(** [s_INVOKE_SYNC_EVENTS(methodName, copyProps = {}, passthruProps = {},
    nameOrList, pluginMap, options, performErrorCheck = true)].  The array
    [pluginInvokeNames] is kept as a list until it is attached to the
    payload. *)
Definition s_INVOKE_SYNC_EVENTS (methodName copyProps passthruProps : value)
    (nameOrList : name_or_list)
    (pluginMap : option (list (string * PluginEntry.t)))
    (options : ManagerOptions) (performErrorCheck : bool) : M value :=
  copyProps ← (if bool_decide (copyProps = VUndefined)
               then new_cell (plain ∅) else mret copyProps);
  passthruProps ← (if bool_decide (passthruProps = VUndefined)
                   then new_cell (plain ∅) else mret passthruProps);
  match methodName with
  | VStr methodName =>
      if negb (String.eqb (typeof passthruProps) "object")
      then throw (TypeError "'passthruProps' is not an object.")
      else if negb (String.eqb (typeof copyProps) "object")
      then throw (TypeError "'copyProps' is not an object.")
      else
        match nameOrList with
        | NL_undefined | NL_other _ =>
            throw (TypeError "'nameOrList' is not a string, array, or iterator.")
        | _ =>
            let s0 := {| ev_hasMethod := false; ev_hasPlugin := false;
                         pluginInvokeCount := 0; pluginInvokeNames := [] |} in
            ev ← PluginEvent.constructor copyProps passthruProps;
            s ← match nameOrList with
                | NL_string name =>
                    s_INVOKE_SYNC_EVENTS_target methodName ev pluginMap (VStr name) s0
                | NL_iterable names =>
                    for_of (s_INVOKE_SYNC_EVENTS_target methodName ev pluginMap) names s0
                | _ => mret s0
                end;
            if performErrorCheck && throwNoPlugin options && negb (ev_hasPlugin s)
            then throw NoPluginError
            else if performErrorCheck && throwNoMethod options && negb (ev_hasMethod s)
            then throw (NoMethodError methodName)
            else
              data ← read_prop ev "data";
              write_prop data "$$plugin_invoke_count" (VNum (pluginInvokeCount s));;
              names ← new_cell (array (VStr <$> pluginInvokeNames s));
              data ← read_prop ev "data";
              write_prop data "$$plugin_invoke_names" names;;
              read_prop ev "data"
        end
  | _ => throw (TypeError "'methodName' is not a string.")
  end.

(** ** PluginManager: configuration arguments and results *)

Module PluginConfig.

(** The object passed to [add].  A field that is not given is
    [VUndefined]; [instance] is [Some c] exactly when
    [typeof pluginConfig.instance === 'object']. *)
Record t : Type := Build {
  name : value;
  target : value;
  options : value;
  instance : option capability
}.

End PluginConfig.

(** The [pluginConfigs] argument of [addAll]. *)
Inductive configs_arg : Type :=
| Configs_undefined
| Configs_array (pluginConfigs : list (option PluginConfig.t))
| Configs_other.

(** What [invokeSync] returns: [result], or the array [results]. *)
Inductive returned : Type :=
| One (result : value)
| Many (results : list value).

(** What [invokeAsync] returns. *)
Inductive promise : Type :=
| Promise_reject (e : error)
| Promise_resolve (result : value)
| Promise_all (results : list value).

(** What the loops of [invokeSync] and [invokeAsync] track. *)
Record invoke_loop : Type := {
  loop_hasMethod : bool;
  loop_hasPlugin : bool;
  loop_result : value;
  loop_results : list value
}.

(** [target.match(/^[.\/\\]/)] *)
Definition is_path (target : string) : bool :=
  match target with
  | String c _ => bool_decide (c ∈ ["."; "/"; "\"]%char)
  | EmptyString => false
  end.

(** [`${v}`] for the values used as an event prefix. *)
Definition template (v : value) : string :=
  match v with
  | VStr s => s
  | VUndefined => "undefined"
  | VNull => "null"
  | _ => "[object Object]"
  end.

(** The event names and callbacks [setEventbus] binds, for a prefix. *)
Definition command_surface (prepend : string) : list (string * handler) :=
  [ (prepend ++ ":add", H_addEventbus);
    (prepend ++ ":add:all", H_addAllEventbus);
    (prepend ++ ":enable:all:plugins", H_enableAllPlugins);
    (prepend ++ ":enable:plugin", H_enablePlugin);
    (prepend ++ ":enable:plugins", H_enablePlugins);
    (prepend ++ ":get:method:names", H_getMethodNames);
    (prepend ++ ":get:options", H_getOptions);
    (prepend ++ ":get:plugin:method:names", H_getPluginMethodNames);
    (prepend ++ ":get:plugin:names", H_getPluginNames);
    (prepend ++ ":get:plugin:options", H_getPluginOptions);
    (prepend ++ ":has:method", H_hasMethod);
    (prepend ++ ":has:plugin", H_hasPlugin);
    (prepend ++ ":has:plugin:method", H_hasPluginMethod);
    (prepend ++ ":invoke:async", H_invokeAsync);
    (prepend ++ ":invoke:sync", H_invokeSync);
    (prepend ++ ":invoke:sync:event", H_invokeSyncEvent);
    (prepend ++ ":remove", H_removeEventbus);
    (prepend ++ ":remove:all", H_removeAllEventbus) ].

(** [eventbus.on(name, callback, this)] *)
Definition eventbus_on (bus : value) (name : string) (callback : handler) : M unit :=
  match bus with
  | VBus b => λ σ, set_subscriptions (subscriptions σ ++ [(b, name, callback)]) σ
  | _ => throw (TypeError "eventbus.on is not a function")
  end.

(** [eventbus.off(name, callback, this)] *)
Definition eventbus_off (bus : value) (name : string) (callback : handler) : M unit :=
  match bus with
  | VBus b => λ σ,
      set_subscriptions (filter (λ s, s ≠ (b, name, callback)) (subscriptions σ)) σ
  | _ => throw (TypeError "eventbus.off is not a function")
  end.

(** [eventProxy.destroy()]: the proxy unsubscribes what the plugin
    subscribed through it; the subscription table here holds the manager's
    own callbacks only, which stay. *)
Definition EventProxy_destroy (proxy : value) : M unit := mret tt.

(** [x instanceof EventProxy] *)
Definition is_EventProxy (v : value) : bool :=
  match v with VProxy _ => true | _ => false end.

(** The object passed to the constructor and to [setOptions]; a field that is
    not given is [VUndefined]. *)
Record options_arg : Type := {
  arg_eventbus : value;
  arg_eventPrepend : value;
  arg_noEventAdd : value;
  arg_noEventRemoval : value;
  arg_throwNoMethod : value;
  arg_throwNoPlugin : value
}.

(** ** PluginManager: the class *)

Module PluginManager.

Definition with_pluginMap (pm : option (list (string * PluginEntry.t)))
    (m : PluginManager) : PluginManager :=
  {| _pluginMap := pm; _eventbus := _eventbus m;
     _eventPrepend := _eventPrepend m; _options := _options m |}.

Definition with_eventbus (bus : value) (m : PluginManager) : PluginManager :=
  {| _pluginMap := _pluginMap m; _eventbus := bus;
     _eventPrepend := _eventPrepend m; _options := _options m |}.

Definition with_eventPrepend (p : value) (m : PluginManager) : PluginManager :=
  {| _pluginMap := _pluginMap m; _eventbus := _eventbus m;
     _eventPrepend := p; _options := _options m |}.

Definition with_options (o : ManagerOptions) (m : PluginManager) : PluginManager :=
  {| _pluginMap := _pluginMap m; _eventbus := _eventbus m;
     _eventPrepend := _eventPrepend m; _options := o |}.

(** The default [nameOrList = this._pluginMap.keys()]. *)
Definition default_nameOrList (m : PluginManager) (nameOrList : name_or_list)
    : M name_or_list :=
  match nameOrList with
  | NL_undefined =>
      match _pluginMap m with
      | Some pluginMap => mret (NL_iterable (VStr <$> Map_keys pluginMap))
      | None => throw (TypeError "Cannot read property 'keys' of null")
      end
  | _ => mret nameOrList
  end.

(** [add(pluginConfig)]; [None] is an argument that is not a configuration
    object. *)
Definition add (pluginConfig : option PluginConfig.t) : M unit :=
  m ← get_this;
  match _pluginMap m with
  | None => throw Destroyed
  | Some pluginMap =>
      match pluginConfig with
      | None => throw (TypeError "'pluginConfig' is not an 'object'.")
      | Some pluginConfig =>
          match PluginConfig.name pluginConfig with
          | VStr name =>
              if negb (String.eqb (typeof (PluginConfig.target pluginConfig)) "undefined")
                 && negb (String.eqb (typeof (PluginConfig.target pluginConfig)) "string")
              then throw (TypeError "'pluginConfig.target' is not a string.")
              else if negb (String.eqb (typeof (PluginConfig.options pluginConfig)) "undefined")
                      && negb (String.eqb (typeof (PluginConfig.options pluginConfig)) "object")
              then throw (TypeError "'pluginConfig.options' is not an 'object'.")
              else
                '(instance, type) ←
                  match PluginConfig.instance pluginConfig with
                  | Some instance => mret (instance, "instance")
                  | None =>
                      let target :=
                        template (if truthy (PluginConfig.target pluginConfig)
                                  then PluginConfig.target pluginConfig
                                  else PluginConfig.name pluginConfig) in
                      λ σ,
                        let file := if is_path target
                                    then path_resolve σ target else target in
                        match modules σ file with
                        | Some instance => (Normal (instance, "require"), σ)
                        | None => (Throw (LoadError file), σ)
                        end
                  end;
                let eventProxy :=
                  if negb (strict_eq (_eventbus m) VNull)
                     && negb (String.eqb (typeof (_eventbus m)) "undefined")
                  then VProxy (_eventbus m) else VUndefined in
                set_this (with_pluginMap
                            (Some (Map_set name
                                     (PluginEntry.constructor name type instance
                                        eventProxy (PluginConfig.options pluginConfig))
                                     pluginMap)) m);;
                copyProps ← new_cell (plain ∅);
                passthruProps ← new_cell (plain ∅);
                m ← get_this;
                s_INVOKE_SYNC_EVENTS (VStr "onPluginLoad") copyProps passthruProps
                  (NL_string name) (_pluginMap m) (_options m) false;;
                mret tt
          | _ => throw (TypeError "'pluginConfig.name' is not a 'string'.")
          end
      end
  end.

(** [addAll(pluginConfigs = [])] *)
Definition addAll (pluginConfigs : configs_arg) : M unit :=
  m ← get_this;
  match _pluginMap m with
  | None => throw Destroyed
  | Some _ =>
      match pluginConfigs with
      | Configs_other => throw (TypeError "'plugins' is not an array.")
      | Configs_undefined => mret tt
      | Configs_array pluginConfigs =>
          for_of (λ pluginConfig _, add pluginConfig) pluginConfigs tt
      end
  end.

(** [_addEventbus(pluginName)]: returns what [add] returns ([undefined]),
    or [false]. *)
Definition _addEventbus (pluginName : option PluginConfig.t) : M value :=
  m ← get_this;
  match _pluginMap m with
  | None => throw Destroyed
  | Some _ =>
      if negb (noEventAdd (_options m))
      then add pluginName;; mret VUndefined
      else mret (VBool false)
  end.

(** [_addAllEventbus()]: the callback has no parameter and calls
    [this.addAll()] without an argument. *)
Definition _addAllEventbus : M unit :=
  m ← get_this;
  match _pluginMap m with
  | None => throw Destroyed
  | Some _ =>
      if negb (noEventAdd (_options m))
      then addAll Configs_undefined
      else mret tt
  end.

(** [enablePlugin(pluginName, enabled)] *)
Definition enablePlugin (pluginName enabled : value) : M bool :=
  m ← get_this;
  match _pluginMap m with
  | None => throw Destroyed
  | Some pluginMap =>
      match pluginName with
      | VStr pluginName =>
          match enabled with
          | VBool enabled =>
              match Map_get pluginMap (VStr pluginName) with
              | Some entry =>
                  set_this (with_pluginMap
                              (Some (Map_alter (PluginEntry.set_enabled enabled)
                                       pluginName pluginMap)) m);;
                  mret true
              | None => mret false
              end
          | _ => throw (TypeError "'enabled' is not a boolean.")
          end
      | _ => throw (TypeError "'pluginName' is not a string.")
      end
  end.

(** [getPluginNames(enabled = void 0)] *)
Definition getPluginNames (enabled : value) : M (list string) :=
  m ← get_this;
  match _pluginMap m with
  | None => throw Destroyed
  | Some pluginMap =>
      match enabled with
      | VUndefined => mret (Map_keys pluginMap)
      | VBool enabled =>
          mret (PluginEntry.name <$>
                  filter (λ plugin, PluginEntry.enabled plugin = enabled)
                         (Map_values pluginMap))
      | _ => throw (TypeError "'enabled' is not a 'boolean' or 'undefined'.")
      end
  end.

(** [getPluginOptions(pluginName)] *)
Definition getPluginOptions (pluginName : value) : M value :=
  m ← get_this;
  match _pluginMap m with
  | None => throw Destroyed
  | Some pluginMap =>
      if negb (String.eqb (typeof pluginName) "string")
      then throw (TypeError "'pluginName' is not a string.")
      else
        match Map_get pluginMap pluginName with
        | Some entry => on_store (json_copy (PluginEntry.options entry))
        | None => mret VUndefined
        end
  end.

(** [hasMethod(methodName)] *)
Definition hasMethod (methodName : value) : M bool :=
  m ← get_this;
  match _pluginMap m with
  | None => throw Destroyed
  | Some pluginMap =>
      match methodName with
      | VStr methodName =>
          (fix loop (plugins : list PluginEntry.t) : M bool :=
             match plugins with
             | [] => mret false
             | plugin :: plugins' =>
                 match PluginEntry.instance plugin with
                 | CapNull => throw (TypeError "Cannot read property of null")
                 | CapObject member =>
                     if bool_decide (is_Some (member methodName))
                     then mret true else loop plugins'
                 end
             end) (Map_values pluginMap)
      | _ => throw (TypeError "'methodName' is not a string.")
      end
  end.

(** [hasPluginMethod(pluginName, methodName)]: the member is looked up on
    the entry, [plugin[methodName]]. *)
Definition hasPluginMethod (pluginName methodName : value) : M bool :=
  m ← get_this;
  match _pluginMap m with
  | None => throw Destroyed
  | Some pluginMap =>
      if negb (String.eqb (typeof pluginName) "string")
      then throw (TypeError "'pluginName' is not a string.")
      else
        match methodName with
        | VStr methodName =>
            match Map_get pluginMap pluginName with
            | Some plugin => mret (PluginEntry.member_is_function plugin methodName)
            | None => mret false
            end
        | _ => throw (TypeError "'methodName' is not a string.")
        end
  end.

(** The body both branches of [invokeSync] and of [invokeAsync] run for one
    name. *)
Definition invoke_target (methodName : string) (args : list value)
    (pluginMap : list (string * PluginEntry.t))
    (name : value) (s : invoke_loop) : M invoke_loop :=
  match Map_get pluginMap name with
  | Some plugin =>
      if PluginEntry.enabled plugin && instance_truthy (PluginEntry.instance plugin)
      then
        match instance_method (PluginEntry.instance plugin) methodName with
        | Some f =>
            result ← call_plugin_method (PluginEntry.name plugin) methodName f args;
            mret {| loop_hasMethod := true; loop_hasPlugin := true;
                    loop_result := result;
                    loop_results :=
                      if negb (strict_eq result VNull)
                         || negb (String.eqb (typeof result) "undefined")
                      then loop_results s ++ [result]
                      else loop_results s |}
        | None =>
            mret {| loop_hasMethod := loop_hasMethod s; loop_hasPlugin := true;
                    loop_result := loop_result s;
                    loop_results := loop_results s |}
        end
      else mret s
  | None => mret s
  end.

Definition invoke_start : invoke_loop :=
  {| loop_hasMethod := false; loop_hasPlugin := false;
     loop_result := VUndefined; loop_results := [] |}.

(** The [if (typeof nameOrList === 'string') ... else for (...)] of both
    methods. *)
Definition invoke_targets (methodName : string) (args : list value)
    (pluginMap : list (string * PluginEntry.t))
    (nameOrList : name_or_list) : M invoke_loop :=
  match nameOrList with
  | NL_string name => invoke_target methodName args pluginMap (VStr name) invoke_start
  | NL_iterable names => for_of (invoke_target methodName args pluginMap) names invoke_start
  | _ => mret invoke_start
  end.

(** [invokeAsync(nameOrList = this._pluginMap.keys(), methodName, ...args)] *)
Definition invokeAsync (nameOrList : name_or_list) (methodName : value)
    (args : list value) : M promise :=
  m ← get_this;
  nameOrList ← default_nameOrList m nameOrList;
  match _pluginMap m with
  | None => throw Destroyed
  | Some pluginMap =>
      match nameOrList with
      | NL_undefined | NL_other _ =>
          throw (TypeError "'nameOrList' is not a string, array, or iterator.")
      | _ =>
          match methodName with
          | VStr methodName =>
              try_catch
                (s ← invoke_targets methodName args pluginMap nameOrList;
                 if throwNoPlugin (_options m) && negb (loop_hasPlugin s)
                 then mret (Promise_reject NoPluginError)
                 else if throwNoMethod (_options m) && negb (loop_hasMethod s)
                 then mret (Promise_reject (NoMethodError methodName))
                 else mret (if bool_decide (1 < length (loop_results s))
                            then Promise_all (loop_results s)
                            else Promise_resolve (loop_result s)))
                (λ error, mret (Promise_reject error))
          | _ => throw (TypeError "'methodName' is not a string.")
          end
      end
  end.

(** [invokeSync(nameOrList = this._pluginMap.keys(), methodName, ...args)] *)
Definition invokeSync (nameOrList : name_or_list) (methodName : value)
    (args : list value) : M returned :=
  m ← get_this;
  nameOrList ← default_nameOrList m nameOrList;
  match _pluginMap m with
  | None => throw Destroyed
  | Some pluginMap =>
      match nameOrList with
      | NL_undefined | NL_other _ =>
          throw (TypeError "'nameOrList' is not a string, array, or iterator.")
      | _ =>
          match methodName with
          | VStr methodName =>
              s ← invoke_targets methodName args pluginMap nameOrList;
              if throwNoPlugin (_options m) && negb (loop_hasPlugin s)
              then throw NoPluginError
              else if throwNoMethod (_options m) && negb (loop_hasMethod s)
              then throw (NoMethodError methodName)
              else mret (if bool_decide (1 < length (loop_results s))
                         then Many (loop_results s)
                         else One (loop_result s))
          | _ => throw (TypeError "'methodName' is not a string.")
          end
      end
  end.

(** [invokeSyncEvent(methodName, copyProps = {}, passthruProps = {},
    nameOrList = this._pluginMap.keys())] *)
Definition invokeSyncEvent (methodName copyProps passthruProps : value)
    (nameOrList : name_or_list) : M value :=
  m ← get_this;
  copyProps ← (if bool_decide (copyProps = VUndefined)
               then new_cell (plain ∅) else mret copyProps);
  passthruProps ← (if bool_decide (passthruProps = VUndefined)
                   then new_cell (plain ∅) else mret passthruProps);
  nameOrList ← default_nameOrList m nameOrList;
  s_INVOKE_SYNC_EVENTS methodName copyProps passthruProps nameOrList
    (_pluginMap m) (_options m) true.

(** [setOptions(options = {})]; [None] is an argument that is not an
    object. *)
Definition setOptions (options : option options_arg) : M unit :=
  match options with
  | None => throw (TypeError "'options' is not an object.")
  | Some options =>
      m ← get_this;
      let pick (v : value) (old : bool) : bool :=
        match v with VBool b => b | _ => old end in
      set_this (with_options
                  {| noEventAdd := pick (arg_noEventAdd options) (noEventAdd (_options m));
                     noEventRemoval :=
                       pick (arg_noEventRemoval options) (noEventRemoval (_options m));
                     throwNoMethod :=
                       pick (arg_throwNoMethod options) (throwNoMethod (_options m));
                     throwNoPlugin :=
                       pick (arg_throwNoPlugin options) (throwNoPlugin (_options m)) |}
                  m)
  end.

(** [setEventbus(targetEventbus, eventPrepend = 'plugins')].  In the loop
    over the entries, [entry.eventProxy = new EventProxy(targetEventbus)]
    assigns to a property for which [PluginEntry] defines a getter and no
    setter; class code is strict, so the assignment throws. *)
Definition setEventbus (targetEventbus eventPrepend : value) : M unit :=
  m ← get_this;
  match _pluginMap m with
  | None => throw Destroyed
  | Some pluginMap =>
      let eventPrepend :=
        if bool_decide (eventPrepend = VUndefined) then VStr "plugins" else eventPrepend in
      if negb (String.eqb (typeof targetEventbus) "object")
      then throw (TypeError "'targetEventbus' is not an 'object'.")
      else
        match eventPrepend with
        | VStr prepend =>
            if strict_eq targetEventbus (_eventbus m) then mret tt
            else
              let oldPrepend := _eventPrepend m in
              set_this (with_eventPrepend eventPrepend m);;
              (if bool_decide (0 < length pluginMap)
               then
                 copyProps ← new_cell (plain ∅);
                 passthruProps ← new_cell (plain ∅);
                 s_INVOKE_SYNC_EVENTS (VStr "onPluginUnload") copyProps passthruProps
                   (NL_iterable (VStr <$> Map_keys pluginMap))
                   (Some pluginMap) (_options m) false;;
                 for_of (λ entry _,
                           (if is_EventProxy (PluginEntry.eventProxy entry)
                            then EventProxy_destroy (PluginEntry.eventProxy entry)
                            else mret tt);;
                           throw (TypeError
                             "Cannot set property eventProxy of #<PluginEntry> which has only a getter"))
                        (Map_values pluginMap) tt;;
                 copyProps ← new_cell (plain ∅);
                 passthruProps ← new_cell (plain ∅);
                 s_INVOKE_SYNC_EVENTS (VStr "onPluginLoad") copyProps passthruProps
                   (NL_iterable (VStr <$> Map_keys pluginMap))
                   (Some pluginMap) (_options m) false;;
                 mret tt
               else mret tt);;
              (if negb (strict_eq (_eventbus m) VNull)
               then for_of (λ b _, eventbus_off (_eventbus m) b.1 b.2)
                           (command_surface (template oldPrepend)) tt
               else mret tt);;
              for_of (λ b _, eventbus_on targetEventbus b.1 b.2)
                     (command_surface prepend) tt;;
              m ← get_this;
              set_this (with_eventbus targetEventbus m)
        | _ => throw (TypeError "'eventPrepend' is not a 'string'.")
        end
  end.

(** [remove(pluginName)] *)
Definition remove (pluginName : value) : M bool :=
  m ← get_this;
  match _pluginMap m with
  | None => throw Destroyed
  | Some pluginMap =>
      match pluginName, Map_get pluginMap pluginName with
      | VStr name, Some entry =>
          copyProps ← new_cell (plain ∅);
          passthruProps ← new_cell (plain ∅);
          s_INVOKE_SYNC_EVENTS (VStr "onPluginUnload") copyProps passthruProps
            (NL_string name) (Some pluginMap) (_options m) false;;
          (if is_EventProxy (PluginEntry.eventProxy entry)
           then EventProxy_destroy (PluginEntry.eventProxy entry) else mret tt);;
          m ← get_this;
          set_this (with_pluginMap (Map_delete pluginName <$> _pluginMap m) m);;
          mret true
      | _, _ => mret false
      end
  end.

(** [removeAll()] *)
Definition removeAll : M unit :=
  m ← get_this;
  match _pluginMap m with
  | None => throw Destroyed
  | Some pluginMap =>
      copyProps ← new_cell (plain ∅);
      passthruProps ← new_cell (plain ∅);
      s_INVOKE_SYNC_EVENTS (VStr "onPluginUnload") copyProps passthruProps
        (NL_iterable (VStr <$> Map_keys pluginMap))
        (Some pluginMap) (_options m) false;;
      for_of (λ entry _,
                if is_EventProxy (PluginEntry.eventProxy entry)
                then EventProxy_destroy (PluginEntry.eventProxy entry) else mret tt)
             (Map_values pluginMap) tt;;
      m ← get_this;
      set_this (with_pluginMap (Some []) m)
  end.

(** [_removeEventbus(pluginName)] *)
Definition _removeEventbus (pluginName : value) : M bool :=
  m ← get_this;
  match _pluginMap m with
  | None => throw Destroyed
  | Some _ =>
      if negb (noEventRemoval (_options m)) then remove pluginName else mret false
  end.

(** [_removeAllEventbus()] *)
Definition _removeAllEventbus : M unit :=
  m ← get_this;
  match _pluginMap m with
  | None => throw Destroyed
  | Some _ =>
      if negb (noEventRemoval (_options m)) then removeAll else mret tt
  end.

(** [constructor(options = {})] *)
Definition constructor (options : option options_arg) : M unit :=
  match options with
  | None => throw (TypeError "'options' is not an object.")
  | Some o =>
      set_this {| _pluginMap := Some []; _eventbus := VNull;
                  _eventPrepend := VUndefined;
                  _options := {| noEventAdd := false; noEventRemoval := false;
                                 throwNoMethod := false; throwNoPlugin := false |} |};;
      (if String.eqb (typeof (arg_eventbus o)) "object"
       then setEventbus (arg_eventbus o) (arg_eventPrepend o) else mret tt);;
      setOptions options
  end.

(** [destroy()] *)
Definition destroy : M unit :=
  m ← get_this;
  match _pluginMap m with
  | None => throw Destroyed
  | Some _ =>
      removeAll;;
      m ← get_this;
      (if negb (strict_eq (_eventbus m) VNull)
          && negb (String.eqb (typeof (_eventbus m)) "undefined")
       then for_of (λ b _, eventbus_off (_eventbus m) b.1 b.2)
                   (command_surface (template (_eventPrepend m))) tt
       else mret tt);;
      m ← get_this;
      set_this (with_eventbus VNull (with_pluginMap None m))
  end.

(** [enableAllPlugins(enabled)] *)
Definition enableAllPlugins (enabled : value) : M unit :=
  m ← get_this;
  match _pluginMap m with
  | None => throw Destroyed
  | Some pluginMap =>
      match enabled with
      | VBool enabled =>
          set_this (with_pluginMap
                      (Some ((λ kv, (kv.1, PluginEntry.set_enabled enabled kv.2))
                               <$> pluginMap)) m)
      | _ => throw (TypeError "'enabled' is not a boolean.")
      end
  end.

(** What [for (const x of names)] yields: the elements of an array or
    other iterable, the characters of a string (one-character strings; a
    character here is one code point), and a [TypeError] for what is not
    iterable. *)
Definition iterate (names : name_or_list) : M (list value) :=
  match names with
  | NL_iterable names => mret names
  | NL_string s => mret ((λ c, VStr (String c EmptyString)) <$> String.list_ascii_of_string s)
  | NL_undefined | NL_other _ => throw (TypeError "pluginNames is not iterable")
  end.

(** The body of the loop of [enablePlugins], for one name. *)
Definition enablePlugins_step (enabled : bool) (pluginName : value) (success : bool)
    : M bool :=
  m ← get_this;
  match _pluginMap m with
  | None => throw (TypeError "Cannot read property 'get' of null")
  | Some pluginMap =>
      match pluginName, Map_get pluginMap pluginName with
      | VStr name, Some entry =>
          set_this (with_pluginMap
                      (Some (Map_alter (PluginEntry.set_enabled enabled)
                               name pluginMap)) m);;
          mret success
      | _, _ => mret false
      end
  end.

(** [enablePlugins(pluginNames, enabled)] *)
Definition enablePlugins (pluginNames : name_or_list) (enabled : value) : M bool :=
  m ← get_this;
  match _pluginMap m with
  | None => throw Destroyed
  | Some _ =>
      match enabled with
      | VBool enabled =>
          pluginNames ← iterate pluginNames;
          for_of (enablePlugins_step enabled) pluginNames true
      | _ => throw (TypeError "'enabled' is not a boolean.")
      end
  end.

(** [getEventbus()] *)
Definition getEventbus : M value :=
  m ← get_this;
  match _pluginMap m with
  | None => throw Destroyed
  | Some _ => mret (_eventbus m)
  end.

(** [getOptions()]: [JSON.parse(JSON.stringify(this._options))], a new
    object with the four flags. *)
Definition getOptions : M value :=
  m ← get_this;
  match _pluginMap m with
  | None => throw Destroyed
  | Some _ =>
      new_cell (plain (<["noEventAdd" := VBool (noEventAdd (_options m))]>
                       (<["noEventRemoval" := VBool (noEventRemoval (_options m))]>
                        (<["throwNoMethod" := VBool (throwNoMethod (_options m))]>
                         (<["throwNoPlugin" := VBool (throwNoPlugin (_options m))]> ∅)))))
  end.

(** [hasPlugin(pluginName)] *)
Definition hasPlugin (pluginName : value) : M bool :=
  m ← get_this;
  match _pluginMap m with
  | None => throw Destroyed
  | Some pluginMap =>
      if negb (String.eqb (typeof pluginName) "string")
      then throw (TypeError "'pluginName' is not a string.")
      else mret (Map_has pluginMap pluginName)
  end.

End PluginManager.

(** ** Publishing on an eventbus *)

(** What a publisher passes along with an event name. *)
#[local] Unset Elimination Schemes.
Inductive argument : Type :=
| Arg_value (v : value)
| Arg_config (pluginConfig : PluginConfig.t)
| Arg_array (items : list argument).
#[local] Set Elimination Schemes.

Definition as_config (a : option argument) : option PluginConfig.t :=
  match a with
  | Some (Arg_config c) => Some c
  | _ => None
  end.

Definition as_value (a : option argument) : value :=
  match a with
  | Some (Arg_value v) => v
  | Some _ => VNull
  | None => VUndefined
  end.

(** The bus calls a callback with the published arguments; a callback takes
    as many as it has parameters.  The four callbacks the class defines for
    the bus are given here; the other fourteen bindings are public methods,
    whose calls through the bus are left out ([None]). *)
Definition callback (h : handler) (args : list argument) : option (M unit) :=
  match h with
  | H_addEventbus => Some (PluginManager._addEventbus (as_config (head args));; mret tt)
  | H_addAllEventbus => Some PluginManager._addAllEventbus
  | H_removeEventbus => Some (PluginManager._removeEventbus (as_value (head args));; mret tt)
  | H_removeAllEventbus => Some PluginManager._removeAllEventbus
  | _ => None
  end.

(** [eventbus.trigger(name, ...args)]: the callbacks subscribed under [name]
    run in subscription order. *)
Definition eventbus_trigger (bus : nat) (name : string) (args : list argument)
    (σ : state) : option (completion unit * state) :=
  (λ run : M unit, run σ) <$>
    foldr (λ s rest, c ← callback s.2 args; r ← rest; Some (c;; r))
          (Some (mret tt))
          (filter (λ s, s.1 = (bus, name)) (subscriptions σ)).

(** ** s_GET_ALL_PROPERTY_NAMES *)

(** An object as the walk sees it: what [Object.getOwnPropertyNames] gives
    for it, and its [Object.getPrototypeOf]: [null], [Object.prototype], or
    another such object. *)
Inductive object : Type :=
| Obj (ownPropertyNames : list string) (proto : prototype)
with prototype : Type :=
| Proto_null
| Proto_Object_prototype
| Proto_object (o : object).

Definition getOwnPropertyNames (obj : object) : list string :=
  match obj with Obj names _ => names end.

Definition getPrototypeOf (obj : object) : prototype :=
  match obj with Obj _ proto => proto end.

(** [names.forEach((prop) => { if (props.indexOf(prop) === -1) { props.push(prop); } })] *)
Definition push_new (props names : list string) : list string :=
  foldl (λ (props : list string) (prop : string),
           if bool_decide (prop ∈ props) then props else (props ++ [prop])%list)
        props names.

(** The [do ... while] loop: the object itself is always looked at, then
    its prototypes until [null] or [Object.prototype] is reached. *)
Fixpoint walk (obj : object) (props : list string) {struct obj} : list string :=
  match obj with
  | Obj names proto =>
      let props := push_new props names in
      match proto with
      | Proto_object o => walk o props
      | Proto_null | Proto_Object_prototype => props
      end
  end.

Definition s_GET_ALL_PROPERTY_NAMES (obj : object) : list string := walk obj [].

(** ** The later PluginEntry: the escaped target *)

Module PluginEntryTarget.

(** [s.replace(/^(\.\.|\.)/, '')] *)
Definition strip_relative (s : string) : string :=
  match s with
  | String "." (String "." s') => s'
  | String "." s' => s'
  | _ => s
  end.

(** [s.replace(/[c]/g, replacement)] for a character [c] *)
Fixpoint replace_all (c : ascii) (replacement : string) (s : string) : string :=
  match s with
  | EmptyString => EmptyString
  | String c' s' =>
      if bool_decide (c' = c) then replacement ++ replace_all c replacement s'
      else String c' (replace_all c replacement s')
  end.

(** The three replacements of the constructor.  The JavaScript literal
    ['\\'] is the one-character string of a backslash, and ['\\/'] a
    backslash followed by a slash. *)
Definition escape (target : string) : string :=
  let escaped := strip_relative target in
  let escaped := replace_all "\" "\" escaped in
  replace_all "/" "\/" escaped.

Record t : Type := Build {
  _enabled : bool;
  _name : string;
  _type : string;
  _target : value;
  _instance : capability;
  _eventProxy : value;
  _options : value;
  _targetEscaped : value
}.

(** [constructor(name, type, target, instance, eventProxy = void 0, options = {})];
    [_targetEscaped] is set when [typeof target === 'string'] only. *)
Definition constructor (name type : string) (target : value) (inst : capability)
    (eventProxy options : value) : ST heap t := λ h,
  let '(options, h') :=
    if bool_decide (options = VUndefined)
    then let '(l, h') := alloc (plain ∅) h in (VRef l, h')
    else (options, h) in
  (Normal {| _enabled := true; _name := name; _type := type; _target := target;
             _instance := inst; _eventProxy := eventProxy; _options := options;
             _targetEscaped := match target with
                               | VStr target => VStr (escape target)
                               | _ => VUndefined
                               end |}, h').

Definition targetEscaped (e : t) : value := _targetEscaped e.

End PluginEntryTarget.

(** ** The first manager: dist/PluginManager.js and dist/PluginEvent.js *)

Module Dist.

(** [s_COPY(obj)] *)
Definition s_COPY (obj : value) : ST heap value := json_copy obj.

(** A new object. *)
Definition new_object (c : cell) : ST heap value := λ h,
  let '(l, h') := alloc c h in (Normal (VRef l), h').

(** [new PluginEvent(data = {}, copy = true)]: [this.data = copy ? s_COPY(data) : data] *)
Definition PluginEvent (data copy : value) : ST heap value :=
  data ← (if bool_decide (data = VUndefined)
          then new_object (plain ∅) else mret data);
  let copy := if bool_decide (copy = VUndefined) then VBool true else copy in
  payload ← (if truthy copy then s_COPY data else mret data);
  new_object (plain {[ "data" := payload ]}).

(** The manager object, the object store, and a log of the invocations:
    the index of the plugin in [_plugins], the method, the event passed. *)
Record state : Type := State {
  _plugins : list capability;
  objects : heap;
  invoked : list (nat * string * value)
}.

Definition on_objects {A : Type} (f : ST heap A) : ST state A := λ σ,
  let '(r, h) := f (objects σ) in
  (r, {| _plugins := _plugins σ; objects := h; invoked := invoked σ |}).

(** [constructor()] *)
Definition constructor (h : heap) : state :=
  {| _plugins := []; objects := h; invoked := [] |}.

(** [addPlugin(plugin)]; [None] is an argument whose [typeof] is not
    ['object'], [Some CapNull] is [null]. *)
Definition addPlugin (plugin : option capability) : ST state unit :=
  match plugin with
  | None => throw (TypeError "addPlugin error: plugin is not an object")
  | Some plugin => λ σ,
      (Normal tt, {| _plugins := (_plugins σ ++ [plugin])%list; objects := objects σ;
                     invoked := invoked σ |})
  end.

(** The first loop of [invoke]: is there a plugin with the method; the
    loop stops at the first one, and reading a property of [null]
    throws. *)
Fixpoint has_method (methodName : string) (plugins : list capability)
    : ST state bool :=
  match plugins with
  | [] => mret false
  | CapNull :: _ => throw (TypeError "Cannot read property of null")
  | CapObject member :: plugins' =>
      if bool_decide (is_Some (member methodName)) then mret true
      else has_method methodName plugins'
  end.

(** The second loop of [invoke], from the plugin of index [cntr] on. *)
Fixpoint invoke_all (methodName : string) (event : value) (cntr : nat)
    (plugins : list capability) : ST state unit :=
  match plugins with
  | [] => mret tt
  | CapNull :: _ => throw (TypeError "Cannot read property of null")
  | CapObject member :: plugins' =>
      match member methodName with
      | Some f =>
          (λ σ, (Normal tt, {| _plugins := _plugins σ; objects := objects σ;
                               invoked := (invoked σ ++ [(cntr, methodName, event)])%list |}));;
          on_objects (λ h, match f [event] h with
                           | (Normal _, h') => (Normal tt, h')
                           | (Throw e, h') => (Throw (Thrown e), h')
                           end)
      | None => mret tt
      end;;
      invoke_all methodName event (S cntr) plugins'
  end.

(** [invoke(methodName, data = {}, copy = true)] *)
Definition invoke (methodName data copy : value) : ST state value :=
  data ← (if bool_decide (data = VUndefined)
          then on_objects (new_object (plain ∅)) else mret data);
  let copy := if bool_decide (copy = VUndefined) then VBool true else copy in
  match methodName with
  | VStr methodName =>
      σ ← (λ σ, (Normal σ, σ));
      hasMethod ← has_method methodName (_plugins σ);
      if hasMethod : bool
      then
        event ← on_objects (PluginEvent data copy);
        invoke_all methodName event 0 (_plugins σ);;
        mret event
      else mret VNull
  | _ => throw (TypeError "invoke error: `methodName` is not a `string`.")
  end.

End Dist.

(** ** Sample plugins and states *)

(** [obj.p1.p2...pn] *)
Fixpoint follow (obj : value) (path : list string) {struct path} : ST heap value :=
  match path with
  | [] => mret obj
  | p :: path' => o ← load obj p; follow o path'
  end.

(** [(event) => { event.p1...pn.k++ }] *)
Definition increment (path : list string) (k : string) : method := λ args,
  obj ← follow (default VUndefined (head args)) path;
  n ← load obj k;
  match n with
  | VNum n => assign obj k (VNum (n + 1));; mret VUndefined
  | _ => mret VUndefined
  end.

(** [(event) => { event.p1...pn.k = v }] *)
Definition overwrite (path : list string) (k : string) (v : value) : method := λ args,
  obj ← follow (default VUndefined (head args)) path;
  assign obj k v;;
  mret VUndefined.

(** [() => v] *)
Definition constant (v : value) : method := λ _, mret v.

(** [(a, b) => a + b + c], as [PluginTestSync.test] of the test suite. *)
Definition add3 (c : Z) : method := λ args,
  match args with
  | [VNum a; VNum b] => mret (VNum (a + b + c))
  | _ => mret VUndefined
  end.

(** An object whose only callable member is [methodName]. *)
Definition single (methodName : string) (f : method) : capability :=
  CapObject (λ k, if String.eqb k methodName then Some f else None).

(** [{ name, instance }] *)
Definition config_instance (name : string) (c : capability) : PluginConfig.t :=
  {| PluginConfig.name := VStr name; PluginConfig.target := VUndefined;
     PluginConfig.options := VUndefined; PluginConfig.instance := Some c |}.


(** [{ name }] and [{ name, target }] *)
Definition config_require (name : string) (target : value) : PluginConfig.t :=
  {| PluginConfig.name := VStr name; PluginConfig.target := target;
     PluginConfig.options := VUndefined; PluginConfig.instance := None |}.

Definition no_options : options_arg :=
  {| arg_eventbus := VUndefined; arg_eventPrepend := VUndefined;
     arg_noEventAdd := VUndefined; arg_noEventRemoval := VUndefined;
     arg_throwNoMethod := VUndefined; arg_throwNoPlugin := VUndefined |}.

Definition strict_options : options_arg :=
  {| arg_eventbus := VUndefined; arg_eventPrepend := VUndefined;
     arg_noEventAdd := VUndefined; arg_noEventRemoval := VUndefined;
     arg_throwNoMethod := VBool true; arg_throwNoPlugin := VBool true |}.

Definition bus_options (noEventAdd : bool) : options_arg :=
  {| arg_eventbus := VBus 0; arg_eventPrepend := VUndefined;
     arg_noEventAdd := VBool noEventAdd; arg_noEventRemoval := VUndefined;
     arg_throwNoMethod := VUndefined; arg_throwNoPlugin := VUndefined |}.

(** The state before [new PluginManager(...)]: an empty store, no
    subscription, the given loader. *)
Definition boot (modules : string → option capability) : state :=
  {| this := {| _pluginMap := None; _eventbus := VUndefined;
                _eventPrepend := VUndefined;
                _options := {| noEventAdd := false; noEventRemoval := false;
                               throwNoMethod := false; throwNoPlugin := false |} |};
     store := ∅; subscriptions := []; modules := modules;
     path_resolve := λ target, "/cwd/" ++ target; trace := [] |}.

Definition no_modules : string → option capability := λ _, None.

(** Run a script from [new PluginManager(options)] on. *)
Definition run {A : Type} (modules : string → option capability)
    (options : options_arg) (script : M A) : completion A * state :=
  (PluginManager.constructor (Some options);; script) (boot modules).

(** The registry of a state, as (name, type, enabled) triples. *)
Definition registry (σ : state) : option (list (string * string * bool)) :=
  fmap (M := list) (λ kv : string * PluginEntry.t,
          (kv.1, PluginEntry.type kv.2, PluginEntry.enabled kv.2))
    <$> _pluginMap (this σ).

(** * Predicates and sample data of the properties *)

Open Scope list_scope.

(** [wp c Q σ]: running [c] from [σ] ends in a completion and a state
    satisfying [Q]. *)
Definition wp {S A : Type} (c : ST S A) (Q : completion A → S → Prop) (σ : S) : Prop :=
  Q (c σ).1 (c σ).2.

(** Computations that leave the manager object as it is. *)
Definition keeps_this {A} (c : M A) : Prop := ∀ σ, this (c σ).2 = this σ.

(** The two errors of the opt-in error policy. *)
Definition opt_in (e : error) : bool :=
  match e with
  | NoPluginError | NoMethodError _ => true
  | _ => false
  end.

(** A computation that never raises them. *)
Definition quiet {S A} (c : ST S A) : Prop :=
  ∀ σ, match (c σ).1 with
       | Throw e => opt_in e = false
       | Normal _ => True
       end.

(** No entry named [p] is enabled. *)
Definition disabled (p : string) (m : PluginManager) : Prop :=
  ∀ pluginMap k e,
    _pluginMap m = Some pluginMap → (k, e) ∈ pluginMap →
    PluginEntry.name e = p → PluginEntry.enabled e = false.

(** A computation that, run while [p] is disabled, leaves the manager as
    it is and calls no method of the plugin [p]: what it adds to the
    invocation log are calls to other plugins. *)
Definition spares (p : string) {A} (c : M A) : Prop :=
  ∀ σ, disabled p (this σ) →
       this (c σ).2 = this σ
       ∧ ∃ calls : list call,
           trace (c σ).2 = trace σ ++ calls
           ∧ Forall (λ c, call_plugin c ≠ p) calls.

(** Every entry is stored under its own name, as [add] stores it. *)
Definition named (pluginMap : list (string * PluginEntry.t)) : Prop :=
  ∀ k e, (k, e) ∈ pluginMap → PluginEntry.name e = k.

(** Two plugins [A] and [B] whose [test] increments [event.data.count]. *)
Definition counter : capability := single "test" (increment ["data"] "count").

Definition two_counters : state :=
  (run no_modules no_options
     (PluginManager.add (Some (config_instance "A" counter));;
      PluginManager.add (Some (config_instance "B" counter)))).2.

(** How the pending thenables have settled so far: [φ p] is [None] while
    [p] is pending. *)
Definition fate : Type := nat → option (completion value).

(** The value [v] is fulfilled with, once it is: a thenable's own, any other
    value at once. *)
Definition fulfilled_value (φ : fate) (v : value) : option value :=
  match v with
  | VPromise p => match φ p with Some (Normal x) => Some x | _ => None end
  | _ => Some v
  end.

(** The value a promise built by [invokeAsync] is fulfilled with, once it
    is: [Promise.resolve(v)] follows [v]; [Promise.all(vs)] is fulfilled with
    the array of the values of all of [vs], when every one is fulfilled. *)
Definition fulfilled (φ : fate) (p : promise) : option returned :=
  match p with
  | Promise_reject _ => None
  | Promise_resolve v => One <$> fulfilled_value φ v
  | Promise_all vs => Many <$> mapM (fulfilled_value φ) vs
  end.

(** What the loop has collected: nothing, with [result] still [undefined],
    or values the last of which is [result]. *)
Definition collected (s : invoke_loop) : Prop :=
  (loop_results s = [] ∧ loop_result s = VUndefined)
  ∨ last (loop_results s) = Some (loop_result s).

(** The promise [invokeAsync] builds from what its loop ended in. *)
Definition promise_of (policy : ManagerOptions) (methodName : string)
    (r : completion invoke_loop) : promise :=
  match r with
  | Throw e => Promise_reject e
  | Normal s =>
      if throwNoPlugin policy && negb (loop_hasPlugin s)
      then Promise_reject NoPluginError
      else if throwNoMethod policy && negb (loop_hasMethod s)
      then Promise_reject (NoMethodError methodName)
      else if bool_decide (1 < length (loop_results s))
      then Promise_all (loop_results s)
      else Promise_resolve (loop_result s)
  end.

(** Two plugins [A] and [B] whose [test] is [(a, b) => a + b + 3]. *)
Definition two_adders : state :=
  (run no_modules no_options
     (PluginManager.add (Some (config_instance "A" (single "test" (add3 3))));;
      PluginManager.add (Some (config_instance "B" (single "test" (add3 3)))))).2.

(** The cell a value refers to, if it does. *)
Fixpoint value_ref (v : value) : option loc :=
  match v with
  | VRef l => Some l
  | VProxy target => value_ref target
  | _ => None
  end.

(** [v] does not lead out of [R]. *)
Definition value_in (R : gset loc) (v : value) : Prop :=
  ∀ l, value_ref v = Some l → l ∈ R.

Definition cell_in (R : gset loc) (c : cell) : Prop :=
  (∀ vs, cell_elems c = Some vs → Forall (value_in R) vs)
  ∧ (∀ k v, cell_props c !! k = Some v → value_in R v).

(** [R] is a set of allocated cells closed under the references they hold:
    what can be reached from [R] is in [R]. *)
Definition region (h : heap) (R : gset loc) : Prop :=
  R ⊆ dom h ∧ ∀ l c, l ∈ R → h !! l = Some c → cell_in R c.

(** [h'] comes from [h] by writes to cells of the region [R] and by
    allocations: the region has grown to [R'] by new cells only, and every
    cell of [h] outside [R] is as it was. *)
Record extends (h : heap) (R : gset loc) (h' : heap) (R' : gset loc) : Prop := {
  ext_sub : R ⊆ R';
  ext_region : region h' R';
  ext_new : ∀ l, l ∈ R' → l ∈ dom h → l ∈ R;
  ext_frame : ∀ l, l ∈ dom h → l ∉ R → h' !! l = h !! l
}.

(** A store computation that stays within the region it is given. *)
Definition local {A} (ok : gset loc → A → Prop) (f : ST heap A) (R : gset loc) : Prop :=
  ∀ h, region h R →
    ∃ R', extends h R (f h).2 R'
          ∧ match (f h).1 with
            | Normal a => ok R' a
            | Throw _ => True
            end.

(** A plugin method that reads and writes only what it can reach from its
    arguments, and what it allocates. *)
Definition confined (f : method) : Prop :=
  ∀ args R, Forall (value_in R) args → local value_in (f args) R.


(** The loops of [JSON_parse] over the elements of an array and the members
    of an object. *)
Fixpoint parse_elems (js : list json) (h : heap) : list value * heap :=
  match js with
  | [] => ([], h)
  | j :: js' =>
      let '(v, h1) := JSON_parse j h in
      let '(vs, h2) := parse_elems js' h1 in
      (v :: vs, h2)
  end.

Fixpoint parse_members (ms : list (string * json)) (h : heap)
    : list (string * value) * heap :=
  match ms with
  | [] => ([], h)
  | (k, j) :: ms' =>
      let '(v, h1) := JSON_parse j h in
      let '(kvs, h2) := parse_members ms' h1 in
      ((k, v) :: kvs, h2)
  end.




(** The state with another store. *)
Definition with_store (h : heap) (σ : state) : state :=
  {| this := this σ; store := h; subscriptions := subscriptions σ;
     modules := modules σ; path_resolve := path_resolve σ; trace := trace σ |}.




(** Computations that add nothing to the invocation log. *)
Definition keeps_trace {A} (c : M A) : Prop := ∀ σ, trace (c σ).2 = trace σ.

(** What the loop of the event dispatcher has done so far: the calls it
    logged, all of [methodName] with the one envelope [ev], are the plugins
    it counted and named. *)
Definition dispatched (methodName : string) (ev : value) (σ0 : state)
    (s : event_loop) (σ : state) : Prop :=
  ∃ calls : list call,
    trace σ = trace σ0 ++ calls
    ∧ Forall (λ c, call_method c = methodName ∧ call_args c = [ev]) calls
    ∧ pluginInvokeNames s = call_plugin <$> calls
    ∧ pluginInvokeCount s = Z.of_nat (length calls).

(** A host object: it has properties of its own, which the store does not
    hold. *)
Definition is_host (v : value) : Prop :=
  match v with
  | VBus _ | VProxy _ | VPromise _ => True
  | _ => False
  end.

(** What a dispatch of the event protocol has done when it returns. *)
Definition one_envelope (methodName : string) (σ : state) (payload : value)
    (σ' : state) : Prop :=
  ∃ (e : loc) (calls : list call),
    (e ∉ dom (store σ))
    ∧ trace σ' = trace σ ++ calls
    ∧ Forall (λ c, call_method c = methodName ∧ call_args c = [VRef e]) calls
    ∧ (load (VRef e) "data" (store σ')).1 = Normal payload
    ∧ ∀ d, payload = VRef d →
        (load payload "$$plugin_invoke_count" (store σ')).1
        = Normal (VNum (Z.of_nat (length calls)))
        ∧ ∃ n, (load payload "$$plugin_invoke_names" (store σ')).1 = Normal (VRef n)
               ∧ store σ' !! n = Some (array (VStr <$> (call_plugin <$> calls))).

(** The two counters and the caller's [{ count: 0 }], cell 10. *)
Definition counters_with_data : state :=
  (new_cell (plain {[ "count" := VNum 0 ]}) two_counters).2.

(** A value that [JSON] writes and reads back as it is. *)
Definition primitive (v : value) : Prop :=
  match v with
  | VNull | VBool _ | VNum _ | VStr _ => True
  | _ => False
  end.

Definition json_of (v : value) : json :=
  match v with
  | VBool b => JBool b
  | VNum n => JNum n
  | VStr s => JStr s
  | _ => JNull
  end.




(** The entry and the function a dispatch loop calls for a candidate name:
    the name is registered, the entry enabled, its instance an object that
    has the method. *)
Definition target_of (methodName : string)
    (pluginMap : list (string * PluginEntry.t)) (name : value)
    : option (PluginEntry.t * method) :=
  match Map_get pluginMap name with
  | Some plugin =>
      if PluginEntry.enabled plugin && instance_truthy (PluginEntry.instance plugin)
      then (λ f, (plugin, f)) <$> instance_method (PluginEntry.instance plugin) methodName
      else None
  | None => None
  end.

(** The calls a dispatch over [names] makes when no method throws. *)
Definition called (methodName : string) (pluginMap : list (string * PluginEntry.t))
    (args : list value) (names : list value) : list call :=
  omap (λ name, (λ pf : PluginEntry.t * method,
                   Call (PluginEntry.name pf.1) methodName args)
                <$> target_of methodName pluginMap name) names.

(** A candidate that counts as a plugin found: registered, enabled, with an
    instance that is not [null]. *)
Definition present (pluginMap : list (string * PluginEntry.t)) (name : value) : bool :=
  match Map_get pluginMap name with
  | Some plugin => PluginEntry.enabled plugin && instance_truthy (PluginEntry.instance plugin)
  | None => false
  end.

(** The candidates of a dispatch. *)
Definition candidates (pluginMap : list (string * PluginEntry.t))
    (nameOrList : name_or_list) : list value :=
  match nameOrList with
  | NL_undefined => VStr <$> Map_keys pluginMap
  | NL_string name => [VStr name]
  | NL_iterable names => names
  | NL_other _ => []
  end.

(** An exception that left a plugin's method. *)
Definition from_plugin (e : error) : bool :=
  match e with Thrown _ => true | _ => false end.

(** A manager with both error-policy flags set and one plugin, disabled. *)
Definition strict_disabled : state :=
  (run no_modules strict_options
     (PluginManager.add (Some (config_instance "A" counter));;
      PluginManager.enablePlugin (VStr "A") (VBool false))).2.

(** Computations that leave the subscription table as it is. *)
Definition keeps_subscriptions {A} (c : M A) : Prop :=
  ∀ σ, subscriptions (c σ).2 = subscriptions σ.

(** A method that throws [v], and a plugin whose lifecycle hooks do. *)
Definition failing (v : value) : method := λ _, throw (UserError v).

Definition fragile : capability :=
  CapObject (λ k,
    if String.eqb k "onPluginLoad" then Some (failing (VStr "load"))
    else if String.eqb k "onPluginUnload" then Some (failing (VStr "unload"))
    else None).

(** A manager with the plugin [F], whose [onPluginUnload] throws; its
    [onPluginLoad] passed over while it was added disabled by hand. *)
Definition with_fragile : state :=
  {| this := PluginManager.with_pluginMap
               (Some [("F", PluginEntry.constructor "F" "instance" fragile
                              VUndefined VUndefined)])
               (this two_adders);
     store := store two_adders; subscriptions := subscriptions two_adders;
     modules := modules two_adders; path_resolve := path_resolve two_adders;
     trace := trace two_adders |}.

(** Two states that differ in the registry at most. *)
Definition same_but_registry (σ σ' : state) : Prop :=
  store σ' = store σ ∧ trace σ' = trace σ ∧ subscriptions σ' = subscriptions σ
  ∧ _eventbus (this σ') = _eventbus (this σ)
  ∧ _eventPrepend (this σ') = _eventPrepend (this σ)
  ∧ _options (this σ') = _options (this σ).

(** The registry is well formed: no name twice, and every entry under its
    own name. *)
Definition registry_wf (σ : state) : Prop :=
  ∀ pluginMap, _pluginMap (this σ) = Some pluginMap →
    NoDup (Map_keys pluginMap) ∧ named pluginMap.

(** The calls of the public methods, all but [getMethodNames] and
    [getPluginMethodNames], which read the registry only. *)
Inductive operation : Type :=
| Op_add (pluginConfig : option PluginConfig.t)
| Op_addAll (pluginConfigs : configs_arg)
| Op_remove (pluginName : value)
| Op_removeAll
| Op_destroy
| Op_enablePlugin (pluginName enabled : value)
| Op_enablePlugins (pluginNames : name_or_list) (enabled : value)
| Op_enableAllPlugins (enabled : value)
| Op_invokeSync (nameOrList : name_or_list) (methodName : value) (args : list value)
| Op_invokeAsync (nameOrList : name_or_list) (methodName : value) (args : list value)
| Op_invokeSyncEvent (methodName copyProps passthruProps : value)
    (nameOrList : name_or_list)
| Op_getOptions
| Op_getPluginOptions (pluginName : value)
| Op_setOptions (options : option options_arg)
| Op_setEventbus (targetEventbus eventPrepend : value)
| Op_getEventbus
| Op_getPluginNames (enabled : value)
| Op_hasMethod (methodName : value)
| Op_hasPlugin (pluginName : value)
| Op_hasPluginMethod (pluginName methodName : value).

Definition perform (op : operation) : M unit :=
  match op with
  | Op_add pluginConfig => PluginManager.add pluginConfig
  | Op_addAll pluginConfigs => PluginManager.addAll pluginConfigs
  | Op_remove pluginName => PluginManager.remove pluginName;; mret tt
  | Op_removeAll => PluginManager.removeAll
  | Op_destroy => PluginManager.destroy
  | Op_enablePlugin pluginName enabled =>
      PluginManager.enablePlugin pluginName enabled;; mret tt
  | Op_enablePlugins pluginNames enabled =>
      PluginManager.enablePlugins pluginNames enabled;; mret tt
  | Op_enableAllPlugins enabled => PluginManager.enableAllPlugins enabled
  | Op_invokeSync nameOrList methodName args =>
      PluginManager.invokeSync nameOrList methodName args;; mret tt
  | Op_invokeAsync nameOrList methodName args =>
      PluginManager.invokeAsync nameOrList methodName args;; mret tt
  | Op_invokeSyncEvent methodName copyProps passthruProps nameOrList =>
      PluginManager.invokeSyncEvent methodName copyProps passthruProps nameOrList;;
      mret tt
  | Op_getOptions => PluginManager.getOptions;; mret tt
  | Op_getPluginOptions pluginName => PluginManager.getPluginOptions pluginName;; mret tt
  | Op_setOptions options => PluginManager.setOptions options
  | Op_setEventbus targetEventbus eventPrepend =>
      PluginManager.setEventbus targetEventbus eventPrepend
  | Op_getEventbus => PluginManager.getEventbus;; mret tt
  | Op_getPluginNames enabled => PluginManager.getPluginNames enabled;; mret tt
  | Op_hasMethod methodName => PluginManager.hasMethod methodName;; mret tt
  | Op_hasPlugin pluginName => PluginManager.hasPlugin pluginName;; mret tt
  | Op_hasPluginMethod pluginName methodName =>
      PluginManager.hasPluginMethod pluginName methodName;; mret tt
  end.

(** Computations that leave the registry as it is. *)
Definition keeps_registry {A} (c : M A) : Prop :=
  ∀ σ, _pluginMap (this (c σ).2) = _pluginMap (this σ).

(** A caller that goes on after an exception: the operations one after the
    other, each from the state the one before left. *)
Definition session (ops : list operation) (σ : state) : state :=
  foldl (λ σ op, (perform op σ).2) σ ops.

(** Some registered plugin has the method. *)
Definition offered (pluginMap : list (string * PluginEntry.t)) (methodName : string)
    : Prop :=
  ∃ name entry, (name, entry) ∈ pluginMap
                ∧ is_Some (instance_method (PluginEntry.instance entry) methodName).

(** No registered plugin was added with the instance [null]. *)
Definition instances_are_objects (pluginMap : list (string * PluginEntry.t)) : Prop :=
  ∀ name entry, (name, entry) ∈ pluginMap → PluginEntry.instance entry ≠ CapNull.

(** The subscriptions [setEventbus] makes on the bus [b] for a prefix. *)
Definition commands (b : nat) (prepend : string) : list (nat * string * handler) :=
  (λ c, (b, c.1, c.2)) <$> command_surface prepend.

(** A manager on the eventbus [VBus 0] with one plugin. *)
Definition on_bus : state :=
  (run no_modules (bus_options false)
     (PluginManager.add (Some (config_instance "A" counter)))).2.


(** The completion is a thrown [TypeError]. *)
Definition is_TypeError {A} (r : completion A) : Prop :=
  ∃ msg, r = Throw (TypeError msg).

(** [typeof v === 'boolean' ? v : old] *)
Definition flag (v : value) (old : bool) : bool :=
  match v with VBool b => b | _ => old end.

(** The subscriptions left when the manager's commands are taken off its
    current eventbus. *)
Definition unbind (m : PluginManager) (subs : list (nat * string * handler))
    : list (nat * string * handler) :=
  match _eventbus m with
  | VBus b => filter (λ s, s ∉ commands b (template (_eventPrepend m))) subs
  | _ => subs
  end.

(** [eventPrepend = 'plugins'] *)
Definition prepend_of (eventPrepend : value) : value :=
  if bool_decide (eventPrepend = VUndefined) then VStr "plugins" else eventPrepend.

(** An object with a property that holds the object itself. *)
Definition circular (h : heap) (v : value) : Prop :=
  ∃ o c k, v = VRef o ∧ h !! o = Some c ∧ cell_elems c = None
           ∧ cell_props c !! k = Some (VRef o).

(** A store with an object [{ self: <the object itself> }] at location 0. *)
Definition knot : state :=
  with_store (<[0 := plain {[ "self" := VRef 0 ]}]> (store two_counters)) two_counters.

(** The completion is a thrown [SyntaxError]. *)
Definition is_SyntaxError {A} (r : completion A) : Prop :=
  ∃ msg, r = Throw (SyntaxError msg).

(** What a deep copy is.  A property whose value is [undefined] is not
    copied; one with another value has a copy of that value. *)
Definition member_copy (copy : value → value → Prop) (x x' : option value) : Prop :=
  match x with
  | None | Some VUndefined => x' = None
  | Some v => ∃ v', x' = Some v' ∧ copy v v'
  end.

(** An array element that is [undefined] becomes [null]; another one is
    copied. *)
Definition elem_copy (copy : value → value → Prop) (x x' : value) : Prop :=
  match x with
  | VUndefined => x' = VNull
  | _ => copy x x'
  end.

(** [v'], in the store [h'], is a deep copy of [v], in the store [h], down
    to [n] nested objects: a null, boolean, number or string is itself; an
    array is a new array of the copies of its elements; another object is a
    new object with the copies of its properties; a promise, which has no
    property of its own, is a new empty object.  New is: not among the
    cells [old].  Nothing else has a copy. *)
Fixpoint copy_of (n : nat) (old : gset loc) (h h' : heap) (v v' : value)
    {struct n} : Prop :=
  match v with
  | VNull | VBool _ | VNum _ | VStr _ => v' = v
  | VPromise _ => ∃ l', v' = VRef l' ∧ (l' ∉ old) ∧ h' !! l' = Some (plain ∅)
  | VRef l =>
      match n with
      | O => False
      | S n' =>
          ∃ c l' c',
            h !! l = Some c ∧ v' = VRef l' ∧ (l' ∉ old) ∧ h' !! l' = Some c'
            ∧ match cell_elems c with
              | Some elems =>
                  ∃ elems', c' = array elems'
                            ∧ Forall2 (elem_copy (copy_of n' old h h')) elems elems'
              | None =>
                  cell_elems c' = None
                  ∧ ∀ k, member_copy (copy_of n' old h h')
                           (cell_props c !! k) (cell_props c' !! k)
              end
      end
  | VUndefined | VBus _ | VProxy _ => False
  end.

(** ** The property names of an object, and the first manager *)

(** The own property names of an object followed by those of its
    prototypes, up to [null] or [Object.prototype], repetitions included. *)
Fixpoint chain (obj : object) : list string :=
  match obj with
  | Obj names proto =>
      names ++ match proto with
               | Proto_object o => chain o
               | Proto_null | Proto_Object_prototype => []
               end
  end.

(** The first occurrence of every element, in order. *)
Definition first_occurrences (l : list string) : list string :=
  reverse (remove_dups (reverse l)).

(** [class Base { inherited() {} test() {} }], [class Plugin extends Base
    { test() {} own() {} }], and an instance of [Plugin] with the field
    [count]. *)
Definition plugin_instance : object :=
  Obj ["count"]
    (Proto_object (Obj ["constructor"; "test"; "own"]
       (Proto_object (Obj ["constructor"; "inherited"; "test"]
          Proto_Object_prototype)))).

(** The calls of [invoke]: one for every plugin that has the method, in the
    order of [_plugins], each with the index of the plugin and the one
    event. *)
Definition dist_calls (methodName : string) (event : value)
    (plugins : list capability) : list (nat * string * value) :=
  omap (λ ic : nat * capability,
          if bool_decide (is_Some (instance_method ic.2 methodName))
          then Some (ic.1, methodName, event) else None)
       (imap pair plugins).

(** A manager with three plugins: one with [test], one without, one with
    [test] again; and what [addPlugin(null)] makes of it. *)
Definition three_plugins : Dist.state :=
  (Dist.addPlugin (Some (single "test" (increment ["data"] "count")))
     (Dist.addPlugin (Some (single "other" (constant VUndefined)))
        (Dist.addPlugin (Some (single "test" (increment ["data"] "count")))
           (Dist.constructor (<[0 := plain {[ "count" := VNum 0 ]}]> ∅))).2).2).2.

Definition with_null_plugin : Dist.state :=
  (Dist.addPlugin (Some CapNull) three_plugins).2.

(** * Properties *)

(** ** invokeSync: what is collected *)

(** C1. Two enabled plugins [A] and [B] whose [test] returns nothing:
    [invokeSync(undefined, 'test')] collects no non-null, non-absent value,
    so the contract asks for an absent result; the guard
    [result !== null || typeof result !== 'undefined'] holds for every value,
    each [undefined] is pushed and the array of both is returned.  With one
    plugin returning [null], [null] is returned.  With values that are
    present the contract is met ([[6, 6]] for the test suite's plugins). *)
Theorem invokeSync_collects_absent_values :
  (run no_modules no_options
     (PluginManager.add (Some (config_instance "A" (single "test" (constant VUndefined))));;
      PluginManager.add (Some (config_instance "B" (single "test" (constant VUndefined))));;
      PluginManager.invokeSync NL_undefined (VStr "test") [])).1
  = Normal (Many [VUndefined; VUndefined])
  ∧ (run no_modules no_options
       (PluginManager.add (Some (config_instance "A" (single "test" (constant VNull))));;
        PluginManager.invokeSync NL_undefined (VStr "test") [])).1
    = Normal (One VNull)
  ∧ (run no_modules no_options
       (PluginManager.add (Some (config_instance "A" (single "test" (add3 3))));;
        PluginManager.add (Some (config_instance "B" (single "test" (add3 3))));;
        PluginManager.invokeSync NL_undefined (VStr "test") [VNum 1; VNum 2])).1
    = Normal (Many [VNum 6; VNum 6]).
Proof. vm_compute. auto. Qed.

(** ** hasPluginMethod *)

(** C5. A plugin [A] whose instance has the callable member [test]:
    [hasPluginMethod('A', 'test')] is false, because the member is looked up
    on the entry and not on its instance, while [hasMethod('test')] is true;
    and [hasPluginMethod('A', 'constructor')] is true although the instance
    has no such member. *)
Theorem hasPluginMethod_ignores_instance :
  (run no_modules no_options
     (PluginManager.add (Some (config_instance "A" (single "test" (add3 3))));;
      onEntry ← PluginManager.hasPluginMethod (VStr "A") (VStr "test");
      anywhere ← PluginManager.hasMethod (VStr "test");
      inherited ← PluginManager.hasPluginMethod (VStr "A") (VStr "constructor");
      mret (onEntry, anywhere, inherited))).1
  = Normal (false, true, true).
Proof. vm_compute. reflexivity. Qed.

(** ** Registration through the eventbus *)

(** C9. A manager bound to a bus under the default prefix, [noEventAdd]
    false.  Publishing ['plugins:add:all'] with an array of one
    configuration leaves the registry empty, whereas [addAll] with the same
    array registers the plugin: the callback takes no parameter and calls
    [addAll()].  Publishing ['plugins:add'] does what [add] does, and with
    [noEventAdd] set neither event changes the registry. *)
Theorem add_all_event_drops_configs :
  let cfg := config_instance "A" (single "test" (add3 3)) in
  let σ := (run no_modules (bus_options false) (mret tt)).2 in
  let τ := (run no_modules (bus_options true) (mret tt)).2 in
  (registry ∘ snd <$> eventbus_trigger 0 "plugins:add:all" [Arg_array [Arg_config cfg]] σ)
  = Some (Some [])
  ∧ registry (PluginManager.addAll (Configs_array [Some cfg]) σ).2
    = Some [("A", "instance", true)]
  ∧ (registry ∘ snd <$> eventbus_trigger 0 "plugins:add" [Arg_config cfg] σ)
    = Some (registry (PluginManager.add (Some cfg) σ).2)
  ∧ registry (PluginManager.add (Some cfg) σ).2 = Some [("A", "instance", true)]
  ∧ (registry ∘ snd <$> eventbus_trigger 0 "plugins:add" [Arg_config cfg] τ)
    = Some (Some [])
  ∧ (registry ∘ snd <$> eventbus_trigger 0 "plugins:add:all" [Arg_array [Arg_config cfg]] τ)
    = Some (Some []).
Proof. vm_compute. repeat split; reflexivity. Qed.

(** ** Reasoning about computations *)

Section wp.
Context {S : Type}.
Implicit Types σ : S.

Lemma wp_ret {A} (a : A) (Q : completion A → S → Prop) σ :
  Q (Normal a) σ → wp (mret a) Q σ.
Proof. done. Qed.

Lemma wp_throw {A} e (Q : completion A → S → Prop) σ :
  Q (Throw e) σ → wp (throw e) Q σ.
Proof. done. Qed.

Lemma wp_bind {A B} (c : ST S A) (f : A → ST S B) (Q : completion B → S → Prop) σ :
  wp c (λ r σ', match r with
                | Normal a => wp (f a) Q σ'
                | Throw e => Q (Throw e) σ'
                end) σ →
  wp (c ≫= f) Q σ.
Proof.
  unfold wp, mbind, ST_bind. cbv beta.
  destruct (c σ) as [[a|e] σ']; simpl; auto.
Qed.

Lemma wp_mono {A} (c : ST S A) (Q Q' : completion A → S → Prop) σ :
  wp c Q σ → (∀ r σ', Q r σ' → Q' r σ') → wp c Q' σ.
Proof. unfold wp. auto. Qed.

Lemma wp_try_catch {A} (body : ST S A) handle (Q : completion A → S → Prop) σ :
  wp body (λ r σ', match r with
                   | Normal a => Q (Normal a) σ'
                   | Throw e => wp (handle e) Q σ'
                   end) σ →
  wp (try_catch body handle) Q σ.
Proof.
  unfold wp, try_catch. destruct (body σ) as [[a|e] σ']; simpl; auto.
Qed.

Lemma wp_run {A} (c : ST S A) (Q : completion A → S → Prop) σ r σ' :
  wp c Q σ → c σ = (r, σ') → Q r σ'.
Proof. unfold wp. intros H Hrun. by rewrite Hrun in H. Qed.

End wp.

Lemma wp_for_of {A T} (body : A → T → M T) (I : T → state → Prop)
    (E : error → state → Prop) xs s σ :
  (∀ x s σ, x ∈ xs → I s σ →
     wp (body x s) (λ r σ', match r with
                            | Normal s' => I s' σ'
                            | Throw e => E e σ'
                            end) σ) →
  I s σ →
  wp (for_of body xs s) (λ r σ', match r with
                                 | Normal s' => I s' σ'
                                 | Throw e => E e σ'
                                 end) σ.
Proof.
  revert s σ. induction xs as [|x xs IH]; intros s σ Hbody HI; simpl.
  - by apply wp_ret.
  - apply wp_bind. eapply wp_mono.
    + apply Hbody; [left | done].
    + intros [s'|e] σ' H; [|done].
      apply IH; [|done]. intros. apply Hbody; [by right | done].
Qed.

Lemma keeps_this_ret {A} (a : A) : keeps_this (mret a).
Proof. done. Qed.

Lemma keeps_this_throw {A} e : keeps_this (throw (A := A) e).
Proof. done. Qed.

Lemma keeps_this_bind {A B} (c : M A) (f : A → M B) :
  keeps_this c → (∀ a, keeps_this (f a)) → keeps_this (c ≫= f).
Proof.
  intros Hc Hf σ. unfold mbind, ST_bind. cbv beta.
  specialize (Hc σ). destruct (c σ) as [[a|e] σ']; simpl in *; [|done].
  by rewrite Hf.
Qed.

Lemma keeps_this_on_store {A} (f : ST heap A) : keeps_this (on_store f).
Proof. intros σ. unfold on_store. by destruct (f (store σ)). Qed.

Lemma keeps_this_log c : keeps_this (log_call c).
Proof. done. Qed.

Lemma keeps_this_for_of {A T} (body : A → T → M T) xs s :
  (∀ x s, keeps_this (body x s)) → keeps_this (for_of body xs s).
Proof.
  intros Hbody. revert s. induction xs as [|x xs IH]; intros s; simpl.
  - apply keeps_this_ret.
  - apply keeps_this_bind; auto.
Qed.

Lemma keeps_this_wp {A} (c : M A) (Q : completion A → state → Prop) σ :
  keeps_this c → (∀ r σ', this σ' = this σ → Q r σ') → wp c Q σ.
Proof. intros Hc HQ. apply HQ, Hc. Qed.

Create HintDb keeps_this.

Ltac keeps_this :=
  repeat first
    [ solve [eauto 1 with keeps_this nocore]
    | simple apply keeps_this_ret
    | simple apply keeps_this_throw
    | simple apply keeps_this_on_store
    | simple apply keeps_this_log
    | simple apply keeps_this_for_of; intros
    | simple apply keeps_this_bind; [|intros]
    | match goal with
      | |- keeps_this (match ?x with _ => _ end) => destruct x
      | |- keeps_this (let '(_, _) := ?x in _) => destruct x
      end
    | solve [intros ?; reflexivity] ].

Lemma keeps_this_call pluginName methodName f args :
  keeps_this (call_plugin_method pluginName methodName f args).
Proof. unfold call_plugin_method. keeps_this. Qed.
#[export] Hint Resolve keeps_this_call : keeps_this.

Lemma keeps_this_PluginEvent copyProps passthruProps :
  keeps_this (PluginEvent.constructor copyProps passthruProps).
Proof.
  unfold PluginEvent.constructor, new_cell, write_prop. keeps_this.
Qed.
#[export] Hint Resolve keeps_this_PluginEvent : keeps_this.

Lemma keeps_this_target methodName ev pluginMap name s :
  keeps_this (s_INVOKE_SYNC_EVENTS_target methodName ev pluginMap name s).
Proof.
  unfold s_INVOKE_SYNC_EVENTS_target, write_prop. keeps_this.
Qed.
#[export] Hint Resolve keeps_this_target : keeps_this.

Lemma keeps_this_s_INVOKE_SYNC_EVENTS methodName copyProps passthruProps nameOrList
    pluginMap options performErrorCheck :
  keeps_this (s_INVOKE_SYNC_EVENTS methodName copyProps passthruProps nameOrList
                pluginMap options performErrorCheck).
Proof.
  unfold s_INVOKE_SYNC_EVENTS, new_cell, read_prop, write_prop. keeps_this.
Qed.
#[export] Hint Resolve keeps_this_s_INVOKE_SYNC_EVENTS : keeps_this.

Lemma assoc_Map_set_eq {V} (k : string) (v : V) m : assoc k (Map_set k v m) = Some v.
Proof.
  induction m as [|[k' v'] m IH]; simpl.
  - by rewrite bool_decide_eq_true_2.
  - case_bool_decide; simpl.
    + by rewrite bool_decide_eq_true_2.
    + by rewrite bool_decide_eq_false_2.
Qed.

(** ** The type tag of an entry *)

(** C8, as stated, fails: adding [{ name: './plugin.js' }] (a path) and
    [{ name: 'p', target: 'pkg' }] (a module name), neither with an
    instance, succeeds and tags both entries ['require'], which is neither
    ['require-path'] nor ['require-module']. *)
Lemma add_tags_require :
  let loader := λ file,
    if String.eqb file "/cwd/./plugin.js" then Some (single "test" (add3 3))
    else if String.eqb file "pkg" then Some (single "test" (add3 3))
    else None in
  let r := run loader no_options
             (PluginManager.add (Some (config_require "./plugin.js" VUndefined));;
              PluginManager.add (Some (config_require "p" (VStr "pkg")))) in
  is_path "./plugin.js" = true ∧ is_path "pkg" = false
  ∧ r.1 = Normal tt
  ∧ registry r.2 = Some [("./plugin.js", "require", true); ("p", "require", true)]
  ∧ "require" ≠ "require-path" ∧ "require" ≠ "require-module".
Proof. vm_compute. repeat split; congruence. Qed.

Lemma wp_add_type_tag cfg σ :
  wp (PluginManager.add (Some cfg))
     (λ r σ', r = Normal tt →
        ∃ name pluginMap entry,
          PluginConfig.name cfg = VStr name
          ∧ _pluginMap (this σ') = Some pluginMap
          ∧ Map_get pluginMap (VStr name) = Some entry
          ∧ PluginEntry.type entry
            = match PluginConfig.instance cfg with
              | Some _ => "instance"
              | None => "require"
              end) σ.
Proof.
  unfold PluginManager.add. apply wp_bind. unfold get_this, wp at 1. simpl.
  destruct (_pluginMap (this σ)) as [pluginMap|]; [|done].
  destruct (PluginConfig.name cfg) as [| | | |name| | | |] eqn:Hname; try done.
  repeat (case_match; [done|]).
  apply wp_bind.
  apply (wp_mono _ (λ r σ', this σ' = this σ ∧
                    match r with
                    | Normal (_, type) =>
                        type = match PluginConfig.instance cfg with
                               | Some _ => "instance"
                               | None => "require"
                               end
                    | Throw _ => True
                    end)).
  { destruct (PluginConfig.instance cfg); [done|].
    unfold wp. simpl. by case_match. }
  intros [[instance type]|e] σ1 [Hthis Htype]; [|done]. simpl.
  apply wp_bind. unfold set_this, wp at 1. simpl.
  eapply keeps_this_wp.
  { unfold new_cell. keeps_this. }
  simpl. intros r σ' Hσ' _. rewrite Hσ'. simpl.
  eexists name, _, _. split; [done|]. split; [done|].
  split; [apply assoc_Map_set_eq|]. by subst type.
Qed.

(** C8, amended: every successful [add] stores an entry under the
    configuration's name whose type tag is ['instance'] when
    [config.instance] is an object, and ['require'] otherwise, whether or
    not the target looks like a path. *)
Theorem add_type_tag cfg σ σ' :
  PluginManager.add (Some cfg) σ = (Normal tt, σ') →
  ∃ name pluginMap entry,
    PluginConfig.name cfg = VStr name
    ∧ _pluginMap (this σ') = Some pluginMap
    ∧ Map_get pluginMap (VStr name) = Some entry
    ∧ PluginEntry.type entry
      = match PluginConfig.instance cfg with
        | Some _ => "instance"
        | None => "require"
        end.
Proof. intros Hrun. by eapply (wp_run _ _ _ _ _ (wp_add_type_tag cfg σ) Hrun). Qed.

Lemma add_type_tag_witness :
  let cfg := config_require "./plugin.js" VUndefined in
  let σ := (run (λ _, Some (single "test" (add3 3))) no_options (mret tt)).2 in
  PluginManager.add (Some cfg) σ = (Normal tt, (PluginManager.add (Some cfg) σ).2)
  ∧ ∃ name pluginMap entry,
      PluginConfig.name cfg = VStr name
      ∧ _pluginMap (this (PluginManager.add (Some cfg) σ).2) = Some pluginMap
      ∧ Map_get pluginMap (VStr name) = Some entry
      ∧ PluginEntry.type entry = "require".
Proof.
  intros cfg σ.
  assert (PluginManager.add (Some cfg) σ
          = (Normal tt, (PluginManager.add (Some cfg) σ).2)) as Hrun
    by (vm_compute; reflexivity).
  split; [exact Hrun|].
  exact (add_type_tag cfg σ _ Hrun).
Defined.

(** ** Lifecycle hooks and the error policy *)

Lemma quiet_ret {S A} (a : A) : quiet (S := S) (mret a).
Proof. done. Qed.

Lemma quiet_throw {S A} e : opt_in e = false → quiet (S := S) (throw (A := A) e).
Proof. by intros He σ. Qed.

Lemma quiet_bind {S A B} (c : ST S A) (f : A → ST S B) :
  quiet c → (∀ a, quiet (f a)) → quiet (c ≫= f).
Proof.
  intros Hc Hf σ. unfold mbind, ST_bind. cbv beta.
  specialize (Hc σ). destruct (c σ) as [[a|e] σ']; simpl in *; [|done].
  apply Hf.
Qed.

Lemma quiet_on_store {A} (f : ST heap A) : quiet f → quiet (on_store f).
Proof.
  intros Hf σ. unfold on_store. specialize (Hf (store σ)).
  by destruct (f (store σ)).
Qed.

Lemma quiet_for_of {A T} (body : A → T → M T) xs s :
  (∀ x s, quiet (body x s)) → quiet (for_of body xs s).
Proof.
  intros Hbody. revert s. induction xs as [|x xs IH]; intros s; simpl.
  - apply quiet_ret.
  - apply quiet_bind; auto.
Qed.

Lemma quiet_json_copy v : quiet (json_copy v).
Proof.
  intros h. unfold json_copy.
  destruct (JSON_stringify h v); [done..|]. by destruct (JSON_parse j h).
Qed.

Lemma quiet_Object_assign target source : quiet (Object_assign target source).
Proof. intros h. unfold Object_assign. repeat case_match; by simplify_eq/=. Qed.

Lemma quiet_load obj k : quiet (load obj k).
Proof. intros h. by destruct obj. Qed.

Lemma quiet_assign obj k v : quiet (assign obj k v).
Proof. intros h. destruct obj; try done. simpl. repeat case_match; by simplify_eq/=. Qed.

Lemma quiet_call pluginName methodName f args :
  quiet (call_plugin_method pluginName methodName f args).
Proof.
  intros σ. unfold call_plugin_method, mbind, ST_bind, log_call, on_store. simpl.
  by destruct (f args (store σ)) as [[v|e] h].
Qed.

Create HintDb quiet.
#[export] Hint Resolve quiet_json_copy quiet_Object_assign quiet_load
  quiet_assign quiet_call : quiet.

Ltac quiet :=
  repeat first
    [ solve [eauto 1 with quiet nocore]
    | simple apply quiet_ret
    | simple apply quiet_throw; reflexivity
    | simple apply quiet_on_store
    | simple apply quiet_for_of; intros
    | simple apply quiet_bind; [|intros]
    | match goal with
      | |- quiet (match ?x with _ => _ end) => destruct x
      | |- quiet (let '(_, _) := ?x in _) => destruct x
      end
    | solve [intros ?; simpl; repeat case_match; by simplify_eq/=] ].

Lemma quiet_PluginEvent copyProps passthruProps :
  quiet (PluginEvent.constructor copyProps passthruProps).
Proof. unfold PluginEvent.constructor, new_cell, write_prop. quiet. Qed.
#[export] Hint Resolve quiet_PluginEvent : quiet.

Lemma quiet_target methodName ev pluginMap name s :
  quiet (s_INVOKE_SYNC_EVENTS_target methodName ev pluginMap name s).
Proof. unfold s_INVOKE_SYNC_EVENTS_target, write_prop. quiet. Qed.
#[export] Hint Resolve quiet_target : quiet.

(** The private dispatcher called with [performErrorCheck = false]. *)
Lemma quiet_s_INVOKE_SYNC_EVENTS methodName copyProps passthruProps nameOrList
    pluginMap options :
  quiet (s_INVOKE_SYNC_EVENTS methodName copyProps passthruProps nameOrList
           pluginMap options false).
Proof.
  unfold s_INVOKE_SYNC_EVENTS, new_cell, read_prop, write_prop. cbn [andb]. quiet.
Qed.
#[export] Hint Resolve quiet_s_INVOKE_SYNC_EVENTS : quiet.

Lemma quiet_add pluginConfig : quiet (PluginManager.add pluginConfig).
Proof. unfold PluginManager.add, new_cell, get_this, set_this. quiet. Qed.

Lemma quiet_remove pluginName : quiet (PluginManager.remove pluginName).
Proof.
  unfold PluginManager.remove, new_cell, get_this, set_this, EventProxy_destroy.
  quiet.
Qed.

Lemma quiet_removeAll : quiet PluginManager.removeAll.
Proof.
  unfold PluginManager.removeAll, new_cell, get_this, set_this, EventProxy_destroy.
  quiet.
Qed.

Lemma quiet_setEventbus targetEventbus eventPrepend :
  quiet (PluginManager.setEventbus targetEventbus eventPrepend).
Proof.
  unfold PluginManager.setEventbus, new_cell, get_this, set_this,
    EventProxy_destroy, eventbus_on, eventbus_off, set_subscriptions.
  quiet.
Qed.

(** C6. Whatever the manager's options, both error-policy flags set
    included: [add], [remove], [removeAll] and [setEventbus], which dispatch
    [onPluginLoad] and [onPluginUnload] through the private dispatcher with
    error checking off, never end in the no-plugin or the no-method error.
    For example, with both flags set, adding a plugin whose instance has no
    [onPluginLoad], and removing it again, succeed, whereas the public
    [invokeSyncEvent('onPluginLoad')] on that plugin raises the no-method
    error and on an unknown name the no-plugin error. *)
Theorem lifecycle_hooks_are_quiet :
  (∀ pluginConfig, quiet (PluginManager.add pluginConfig))
  ∧ (∀ pluginName, quiet (PluginManager.remove pluginName))
  ∧ quiet PluginManager.removeAll
  ∧ (∀ targetEventbus eventPrepend,
       quiet (PluginManager.setEventbus targetEventbus eventPrepend))
  ∧ (let plugin := config_instance "A" (single "test" (add3 3)) in
     (run no_modules strict_options
        (PluginManager.add (Some plugin);;
         m ← get_this;
         mret (throwNoMethod (_options m), throwNoPlugin (_options m)))).1
     = Normal (true, true)
     ∧ (run no_modules strict_options
          (PluginManager.add (Some plugin);;
           PluginManager.invokeSyncEvent (VStr "onPluginLoad")
             VUndefined VUndefined NL_undefined)).1
       = Throw (NoMethodError "onPluginLoad")
     ∧ (run no_modules strict_options
          (PluginManager.add (Some plugin);;
           PluginManager.invokeSyncEvent (VStr "onPluginLoad")
             VUndefined VUndefined (NL_string "B"))).1
       = Throw NoPluginError
     ∧ (run no_modules strict_options
          (PluginManager.add (Some plugin);;
           PluginManager.remove (VStr "A"))).1
       = Normal true
     ∧ (run no_modules strict_options
          (PluginManager.add (Some plugin);;
           PluginManager.removeAll)).1
       = Normal tt).
Proof.
  split; [exact quiet_add|]. split; [exact quiet_remove|].
  split; [exact quiet_removeAll|]. split; [exact quiet_setEventbus|].
  vm_compute. repeat split; reflexivity.
Qed.

(** ** Disabled plugins *)

Lemma spares_pure p {A} (c : M A) :
  (∀ σ, this (c σ).2 = this σ ∧ trace (c σ).2 = trace σ) → spares p c.
Proof.
  intros Hc σ _. destruct (Hc σ) as [Hthis Htrace]. split; [done|].
  exists []. by rewrite app_nil_r.
Qed.

Lemma spares_ret p {A} (a : A) : spares p (mret a).
Proof. by apply spares_pure. Qed.

Lemma spares_throw p {A} e : spares p (throw (A := A) e).
Proof. by apply spares_pure. Qed.

Lemma spares_on_store p {A} (f : ST heap A) : spares p (on_store f).
Proof. apply spares_pure. intros σ. unfold on_store. by destruct (f (store σ)). Qed.

Lemma spares_bind p {A B} (c : M A) (f : A → M B) :
  spares p c → (∀ a, spares p (f a)) → spares p (c ≫= f).
Proof.
  intros Hc Hf σ Hp. unfold mbind, ST_bind. cbv beta.
  destruct (Hc σ Hp) as [Hthis (calls & Htrace & Hcalls)].
  destruct (c σ) as [[a|e] σ']; simpl in *; [|eauto].
  destruct (Hf a σ') as [Hthis' (calls' & Htrace' & Hcalls')].
  { by rewrite Hthis. }
  split; [congruence|]. exists (calls ++ calls').
  rewrite Htrace', Htrace, app_assoc. split; [done|]. by apply Forall_app.
Qed.

Lemma spares_get_this p {B} (f : PluginManager → M B) :
  (∀ m, disabled p m → spares p (f m)) → spares p (get_this ≫= f).
Proof. intros Hf σ Hp. by apply (Hf (this σ)). Qed.

Lemma spares_for_of p {A T} (body : A → T → M T) xs s :
  (∀ x s, spares p (body x s)) → spares p (for_of body xs s).
Proof.
  intros Hbody. revert s. induction xs as [|x xs IH]; intros s; simpl.
  - apply spares_ret.
  - apply spares_bind; auto.
Qed.

Lemma spares_try_catch p {A} (body : M A) handle :
  spares p body → (∀ e, spares p (handle e)) → spares p (try_catch body handle).
Proof.
  intros Hc Hf σ Hp. unfold try_catch.
  destruct (Hc σ Hp) as [Hthis (calls & Htrace & Hcalls)].
  destruct (body σ) as [[a|e] σ']; simpl in *; [eauto|].
  destruct (Hf e σ') as [Hthis' (calls' & Htrace' & Hcalls')].
  { by rewrite Hthis. }
  split; [congruence|]. exists (calls ++ calls').
  rewrite Htrace', Htrace, app_assoc. split; [done|]. by apply Forall_app.
Qed.

Lemma spares_call p pluginName methodName f args :
  pluginName ≠ p → spares p (call_plugin_method pluginName methodName f args).
Proof.
  intros Hne σ _. unfold call_plugin_method, mbind, ST_bind, log_call, on_store.
  simpl. destruct (f args (store σ)) as [[v|e] h]; simpl;
    (split; [done|]; eexists [_]; split; [done|]; by constructor).
Qed.

Create HintDb spares.

Ltac spares :=
  repeat first
    [ solve [eauto 3 with spares nocore]
    | simple apply spares_ret
    | simple apply spares_throw
    | simple apply spares_on_store
    | simple apply spares_for_of; intros
    | simple apply spares_get_this; intros
    | simple apply spares_try_catch; [|intros]
    | simple apply spares_bind; [|intros]
    | match goal with
      | |- spares _ (match ?x with _ => _ end) => destruct x eqn:?
      | |- spares _ (let '(_, _) := ?x in _) => destruct x eqn:?
      end
    | solve [apply spares_pure; intros ?; done] ].

Lemma spares_PluginEvent p copyProps passthruProps :
  spares p (PluginEvent.constructor copyProps passthruProps).
Proof. unfold PluginEvent.constructor, new_cell, write_prop. spares. Qed.
#[export] Hint Resolve spares_PluginEvent : spares.

Lemma assoc_elem_of {V} (k : string) (v : V) m : assoc k m = Some v → (k, v) ∈ m.
Proof.
  induction m as [|[k' v'] m IH]; simpl; [done|].
  case_bool_decide; intros; simplify_eq; [left | right; auto].
Qed.

Lemma Map_get_elem_of {V} (m : list (string * V)) name v :
  Map_get m name = Some v → ∃ k, name = VStr k ∧ (k, v) ∈ m.
Proof. destruct name; try done. simpl. eauto using assoc_elem_of. Qed.

Lemma spares_event_target p methodName ev m name s :
  disabled p m →
  spares p (s_INVOKE_SYNC_EVENTS_target methodName ev (_pluginMap m) name s).
Proof.
  intros Hp. unfold s_INVOKE_SYNC_EVENTS_target, write_prop.
  destruct (_pluginMap m) as [pluginMap|] eqn:Hm; [|spares].
  destruct (Map_get pluginMap name) as [plugin|] eqn:Hget; [|spares].
  apply Map_get_elem_of in Hget as (k & -> & Hin).
  destruct (PluginEntry.enabled plugin) eqn:Hen; [|spares]. simpl.
  destruct (instance_truthy _); [|spares].
  destruct (instance_method _ _); [|spares].
  do 3 (simple apply spares_bind; [spares|intros]).
  simple apply spares_bind; [|intros; spares].
  apply spares_call. intros Hname.
  specialize (Hp pluginMap k plugin Hm Hin Hname). congruence.
Qed.
#[export] Hint Resolve spares_event_target : spares.

Lemma spares_invoke_target p methodName args m pluginMap name s :
  disabled p m → _pluginMap m = Some pluginMap →
  spares p (PluginManager.invoke_target methodName args pluginMap name s).
Proof.
  intros Hp Hm. unfold PluginManager.invoke_target.
  destruct (Map_get pluginMap name) as [plugin|] eqn:Hget; [|spares].
  apply Map_get_elem_of in Hget as (k & -> & Hin).
  destruct (PluginEntry.enabled plugin) eqn:Hen; [|spares]. simpl.
  destruct (instance_truthy _); [|spares].
  destruct (instance_method _ _); [|spares].
  simple apply spares_bind; [|intros; spares].
  apply spares_call. intros Hname.
  specialize (Hp pluginMap k plugin Hm Hin Hname). congruence.
Qed.
#[export] Hint Resolve spares_invoke_target : spares.

Lemma spares_invokeSyncEvent p methodName copyProps passthruProps nameOrList :
  spares p (PluginManager.invokeSyncEvent methodName copyProps passthruProps nameOrList).
Proof.
  unfold PluginManager.invokeSyncEvent, PluginManager.default_nameOrList,
    s_INVOKE_SYNC_EVENTS, new_cell, read_prop, write_prop.
  spares.
Qed.

Lemma spares_invokeSync p nameOrList methodName args :
  spares p (PluginManager.invokeSync nameOrList methodName args).
Proof.
  unfold PluginManager.invokeSync, PluginManager.default_nameOrList,
    PluginManager.invoke_targets.
  spares.
Qed.

Lemma spares_invokeAsync p nameOrList methodName args :
  spares p (PluginManager.invokeAsync nameOrList methodName args).
Proof.
  unfold PluginManager.invokeAsync, PluginManager.default_nameOrList,
    PluginManager.invoke_targets.
  spares.
Qed.

Lemma elem_of_Map_alter {V} (f : V → V) k (m : list (string * V)) k' v' :
  (k', v') ∈ Map_alter f k m →
  ∃ v, (k', v) ∈ m ∧ v' = if bool_decide (k' = k) then f v else v.
Proof.
  unfold Map_alter. rewrite list_elem_of_fmap. intros ([k0 v0] & Heq & Hin).
  simpl in Heq. case_bool_decide; simplify_eq; exists v0.
  - by rewrite bool_decide_eq_true_2.
  - by rewrite bool_decide_eq_false_2.
Qed.

Lemma Map_keys_alter {V} (f : V → V) k (m : list (string * V)) :
  Map_keys (Map_alter f k m) = Map_keys m.
Proof.
  unfold Map_keys, Map_alter. rewrite <- list_fmap_compose.
  apply list_fmap_ext. intros i [k' v'] _. simpl. by case_bool_decide.
Qed.

Lemma assoc_Map_alter {V} (f : V → V) k (m : list (string * V)) :
  assoc k (Map_alter f k m) = f <$> assoc k m.
Proof.
  induction m as [|[k' v'] m IH]; simpl; [done|].
  case_bool_decide; simpl.
  - by rewrite !bool_decide_eq_true_2.
  - by rewrite !bool_decide_eq_false_2.
Qed.

Lemma assoc_Some_keys {V} k (m : list (string * V)) v :
  assoc k m = Some v → k ∈ Map_keys m.
Proof.
  intros H%assoc_elem_of. unfold Map_keys. apply list_elem_of_fmap. by exists (k, v).
Qed.

(** ** invokeAsync *)

Lemma push_guard_always (result : value) :
  negb (strict_eq result VNull) || negb (String.eqb (typeof result) "undefined") = true.
Proof. by destruct result. Qed.

Lemma collected_invoke_target methodName args pluginMap name s σ :
  collected s →
  match (PluginManager.invoke_target methodName args pluginMap name s σ).1 with
  | Normal s' => collected s'
  | Throw _ => True
  end.
Proof.
  intros Hs. unfold PluginManager.invoke_target.
  destruct (Map_get pluginMap name) as [plugin|]; [|done].
  destruct (_ && _); [|done].
  destruct (instance_method _ _) as [f|]; [|done].
  unfold call_plugin_method, mbind, ST_bind, log_call, on_store. simpl.
  destruct (f args (store σ)) as [[v|e] h]; simpl; [|done].
  right. simpl. rewrite push_guard_always. by rewrite last_snoc.
Qed.

Lemma collected_for_of methodName args pluginMap names s σ :
  collected s →
  match (for_of (PluginManager.invoke_target methodName args pluginMap) names s σ).1 with
  | Normal s' => collected s'
  | Throw _ => True
  end.
Proof.
  revert s σ. induction names as [|name names IH]; intros s σ Hs; simpl; [done|].
  unfold mbind, ST_bind.
  pose proof (collected_invoke_target methodName args pluginMap name s σ Hs) as H.
  destruct (PluginManager.invoke_target _ _ _ _ _ _) as [[s'|e] σ']; simpl in *; [|done].
  by apply IH.
Qed.

Lemma collected_invoke_targets methodName args pluginMap nameOrList σ :
  match (PluginManager.invoke_targets methodName args pluginMap nameOrList σ).1 with
  | Normal s => collected s
  | Throw _ => True
  end.
Proof.
  assert (collected PluginManager.invoke_start) as H0 by (by left).
  destruct nameOrList; simpl; try done.
  - by apply collected_invoke_target.
  - by apply collected_for_of.
Qed.

Lemma mapM_fulfilled φ vs xs :
  mapM (fulfilled_value φ) vs = Some xs →
  Forall2 (λ v x, fulfilled_value φ v = Some x) vs xs.
Proof. intros H. by apply mapM_Some_1 in H. Qed.

Lemma invokeAsync_unfold σ pluginMap nameOrList methodName args :
  _pluginMap (this σ) = Some pluginMap →
  (∀ v, nameOrList ≠ NL_other v) →
  (PluginManager.invokeAsync nameOrList (VStr methodName) args σ).1
  = Normal (promise_of (_options (this σ)) methodName
              (PluginManager.invoke_targets methodName args pluginMap
                 match nameOrList with
                 | NL_undefined => NL_iterable (VStr <$> Map_keys pluginMap)
                 | _ => nameOrList
                 end σ).1).
Proof.
  intros Hm Hnl.
  unfold PluginManager.invokeAsync, PluginManager.default_nameOrList, get_this.
  unfold mbind at 1, ST_bind at 1. cbv beta iota. rewrite Hm.
  destruct nameOrList as [|name|ns|v]; [| | |by destruct (Hnl v)];
    unfold try_catch, mbind, ST_bind; simpl;
    match goal with
    | |- context [PluginManager.invoke_target ?a ?b ?c ?d ?e ?f] =>
        destruct (PluginManager.invoke_target a b c d e f) as [[s|e'] σ']
    | |- context [for_of ?a ?b ?c ?d] =>
        destruct (for_of a b c d) as [[s|e'] σ']
    end; simpl; try done;
    repeat (match goal with |- context [if ?b then _ else _] => destruct b end;
            simpl; try done).
Qed.

(** X28. On a manager that is not destroyed, with a [nameOrList] that is a
    string, an iterable or left out, and a string [methodName], [invokeAsync]
    returns a promise and never throws.  If selecting and invoking threw [e],
    the promise is rejected with [e]; if a set error-policy flag finds no
    target plugin, or no invoked method, it is rejected with that error.
    Otherwise, [results] being the array the loop has pushed every returned
    value to ([undefined] and [null] too): with more than one element it is
    [Promise.all(results)], fulfilled only once every element is, with the
    array of their values in order; with at most one it is
    [Promise.resolve(result)], [result] being the one returned value, or
    [undefined] when no method was called. *)
Theorem invokeAsync_returns_a_promise σ pluginMap nameOrList methodName args :
  _pluginMap (this σ) = Some pluginMap →
  (∀ v, nameOrList ≠ NL_other v) →
  let names := match nameOrList with
               | NL_undefined => NL_iterable (VStr <$> Map_keys pluginMap)
               | _ => nameOrList
               end in
  let policy := _options (this σ) in
  ∃ p,
    (PluginManager.invokeAsync nameOrList (VStr methodName) args σ).1 = Normal p
    ∧ match (PluginManager.invoke_targets methodName args pluginMap names σ).1 with
      | Throw e => p = Promise_reject e
      | Normal s =>
          if throwNoPlugin policy && negb (loop_hasPlugin s)
          then p = Promise_reject NoPluginError
          else if throwNoMethod policy && negb (loop_hasMethod s)
          then p = Promise_reject (NoMethodError methodName)
          else if bool_decide (1 < length (loop_results s))
          then p = Promise_all (loop_results s)
               ∧ ∀ φ r, fulfilled φ p = Some r →
                   ∃ xs, r = Many xs
                         ∧ Forall2 (λ v x, fulfilled_value φ v = Some x)
                                   (loop_results s) xs
          else p = Promise_resolve (loop_result s)
               ∧ ((loop_results s = [] ∧ loop_result s = VUndefined)
                  ∨ loop_results s = [loop_result s])
      end.
Proof.
  intros Hm Hnl names policy.
  eexists. split; [by apply invokeAsync_unfold|].
  pose proof (collected_invoke_targets methodName args pluginMap names σ) as Hcol.
  fold names. fold policy.
  destruct (PluginManager.invoke_targets _ _ _ _ _).1 as [s|e]; [|done]. simpl.
  destruct (throwNoPlugin policy && _); [done|].
  destruct (throwNoMethod policy && _); [done|].
  case_bool_decide as Hlen.
  - split; [done|]. intros φ r Hr. simpl in Hr.
    destruct (mapM _ _) as [xs|] eqn:Hxs; simplify_eq/=.
    eauto using mapM_fulfilled.
  - split; [done|]. destruct Hcol as [|Hlast]; [by left|]. right.
    destruct (loop_results s) as [|x [|y l]]; simplify_eq/=; [done|lia].
Qed.

Lemma invokeAsync_returns_a_promise_witness :
  ∃ p, (PluginManager.invokeAsync NL_undefined (VStr "test") [VNum 1; VNum 2]
          two_adders).1 = Normal p
       ∧ p = Promise_all [VNum 6; VNum 6]
       ∧ fulfilled (λ _, None) p = Some (Many [VNum 6; VNum 6]).
Proof.
  pose (eA := PluginEntry.constructor "A" "instance" (single "test" (add3 3))
                VUndefined VUndefined).
  pose (eB := PluginEntry.constructor "B" "instance" (single "test" (add3 3))
                VUndefined VUndefined).
  destruct (invokeAsync_returns_a_promise two_adders [("A", eA); ("B", eB)]
              NL_undefined "test" [VNum 1; VNum 2]) as (p & Hp & _).
  - reflexivity.
  - done.
  - exists p. split; [exact Hp|].
    assert (p = Promise_all [VNum 6; VNum 6]) as -> by (vm_compute in Hp; congruence).
    split; reflexivity.
Defined.

(** ** Regions of the store *)

Lemma value_in_mono R R' v : value_in R v → R ⊆ R' → value_in R' v.
Proof. intros H Hsub l Hl. apply Hsub, H, Hl. Qed.

Lemma cell_in_mono R R' c : cell_in R c → R ⊆ R' → cell_in R' c.
Proof.
  intros [He Hp] Hsub. split.
  - intros vs Hvs. eapply Forall_impl; [by apply He|].
    intros v Hv. by eapply value_in_mono.
  - intros k v Hk. eapply value_in_mono; [by eapply Hp|done].
Qed.

Lemma value_in_prim R v : value_ref v = None → value_in R v.
Proof. intros H l Hl. congruence. Qed.

Lemma value_in_ref R l : l ∈ R → value_in R (VRef l).
Proof. intros H l' [= <-]. done. Qed.

Lemma extends_refl h R : region h R → extends h R h R.
Proof. intros H. by split. Qed.

Lemma extends_dom h R h' R' : extends h R h' R' → dom h ⊆ dom h'.
Proof.
  intros [Hsub [Hdom _] _ Hframe] l Hl.
  destruct (decide (l ∈ R)) as [HR|HR].
  - apply Hdom, Hsub, HR.
  - apply elem_of_dom. rewrite Hframe by done. by apply elem_of_dom.
Qed.

Lemma extends_trans h R h1 R1 h2 R2 :
  extends h R h1 R1 → extends h1 R1 h2 R2 → extends h R h2 R2.
Proof.
  intros H1 H2. pose proof (extends_dom _ _ _ _ H1) as Hdom.
  destruct H1 as [Hsub1 Hreg1 Hnew1 Hframe1], H2 as [Hsub2 Hreg2 Hnew2 Hframe2].
  split.
  - set_solver.
  - done.
  - intros l Hl Hh. apply Hnew1; [|done]. apply Hnew2; [done|]. by apply Hdom.
  - intros l Hl HR. rewrite Hframe2.
    + by apply Hframe1.
    + by apply Hdom.
    + intros HR1. apply HR. by apply Hnew1.
Qed.

Lemma cell_in_get_prop R c k : cell_in R c → value_in R (get_prop c k).
Proof.
  intros [He Hp]. unfold get_prop.
  assert (value_in R (default VUndefined (cell_props c !! k))) as Hprops.
  { destruct (cell_props c !! k) as [v|] eqn:Hk; simpl; [by eapply Hp|].
    by apply value_in_prim. }
  destruct (index_of_key k) as [i|]; [|done].
  destruct (cell_elems c) as [vs|]; [|done].
  destruct (vs !! i) as [v|] eqn:Hi; simpl; [|by apply value_in_prim].
  specialize (He vs eq_refl). rewrite Forall_forall in He.
  apply He. by eapply list_elem_of_lookup_2.
Qed.

Lemma cell_in_set_prop R c k v :
  cell_in R c → value_in R v → cell_in R (set_prop k v c).
Proof.
  intros [He Hp] Hv. unfold set_prop.
  assert (cell_in R (Cell (cell_elems c) (<[k:=v]> (cell_props c)))) as Hprops.
  { split; simpl; [done|]. intros k' v'. rewrite lookup_insert.
    case_decide; [by intros [= <-]|]. apply Hp. }
  destruct (index_of_key k) as [i|]; [|done].
  destruct (cell_elems c) as [vs|] eqn:Hvs; [|done].
  split; simpl; [|done]. intros ? [= <-]. specialize (He vs eq_refl).
  unfold list_store. case_bool_decide.
  - apply Forall_insert; done.
  - rewrite !Forall_app. split; [done|]. split.
    + apply Forall_replicate. by apply value_in_prim.
    + by apply Forall_singleton.
Qed.



Lemma extends_alloc h R c :
  region h R → cell_in R c →
  extends h R (alloc c h).2 (R ∪ {[(alloc c h).1]}).
Proof.
  intros [Hdom Hclosed] Hc. unfold alloc. simpl.
  pose proof (is_fresh (dom h)) as Hfresh. set (l := fresh (dom h)) in *.
  split.
  - set_solver.
  - split.
    + rewrite dom_insert. set_solver.
    + intros l' c'. rewrite lookup_insert. case_decide.
      * intros _ [= <-]. eapply cell_in_mono; [done|set_solver].
      * intros Hl' Hc'. eapply cell_in_mono; [|apply union_subseteq_l].
        eapply Hclosed; [|done]. set_solver.
  - intros l' Hl' Hh. apply elem_of_union in Hl' as [|Hl']; [done|].
    apply elem_of_singleton in Hl'. by subst.
  - intros l' Hl' _. rewrite lookup_insert_ne; [done|]. intros <-. done.
Qed.


Lemma local_ret {A} (ok : gset loc → A → Prop) R a : ok R a → local ok (mret a) R.
Proof. intros Ha h Hh. exists R. split; [by apply extends_refl|done]. Qed.

Lemma local_throw {A} (ok : gset loc → A → Prop) R e : local ok (throw e) R.
Proof. intros h Hh. exists R. split; [by apply extends_refl|done]. Qed.

Lemma local_bind {A B} (okA : gset loc → A → Prop) (okB : gset loc → B → Prop)
    (c : ST heap A) (f : A → ST heap B) R :
  local okA c R →
  (∀ a R', R ⊆ R' → okA R' a → local okB (f a) R') →
  local okB (c ≫= f) R.
Proof.
  intros Hc Hf h Hh. unfold mbind, ST_bind. cbv beta.
  destruct (Hc h Hh) as (R1 & Hext & Hok).
  destruct (c h) as [[a|e] h1]; simpl in *; [|eauto].
  destruct (Hf a R1 (ext_sub _ _ _ _ Hext) Hok h1 (ext_region _ _ _ _ Hext))
    as (R2 & Hext2 & Hok2).
  exists R2. split; [by eapply extends_trans|done].
Qed.

Lemma local_load R obj k : value_in R obj → local value_in (load obj k) R.
Proof.
  intros Hobj h Hh. exists R.
  destruct obj as [| | | | |l| | |]; simpl;
    (split; [by apply extends_refl|]); try done; try by apply value_in_prim.
  destruct (h !! l) as [c|] eqn:Hl; simpl; [|by apply value_in_prim].
  apply cell_in_get_prop. destruct Hh as [_ Hclosed].
  eapply Hclosed; [|done]. by apply Hobj.
Qed.

Lemma local_assign R obj k v :
  value_in R obj → value_in R v → local (λ _ _, True) (assign obj k v) R.
Proof.
  intros Hobj Hv h Hh. exists R.
  destruct obj as [| | | | |l| | |]; simpl;
    try (split; [by apply extends_refl|done]).
  destruct (h !! l) as [c|] eqn:Hl; simpl; [|split; [by apply extends_refl|done]].
  split; [|done]. assert (l ∈ R) as HlR by (by apply Hobj).
  destruct Hh as [Hdom Hclosed]. split.
  - done.
  - split.
    + rewrite dom_insert. set_solver.
    + intros l' c'. rewrite lookup_insert. case_decide.
      * intros _ [= <-]. apply cell_in_set_prop; [|done]. by eapply Hclosed.
      * apply Hclosed.
  - done.
  - intros l' _ Hl'. rewrite lookup_insert_ne; [done|]. by intros <-.
Qed.

(** Induction on JSON texts. *)
Fixpoint json_induction (P : json → Prop)
    (HNull : P JNull) (HBool : ∀ b, P (JBool b)) (HNum : ∀ n, P (JNum n))
    (HStr : ∀ s, P (JStr s))
    (HArr : ∀ l, Forall P l → P (JArr l))
    (HObj : ∀ m, Forall (λ kv, P kv.2) m → P (JObj m))
    (j : json) {struct j} : P j :=
  match j with
  | JNull => HNull
  | JBool b => HBool b
  | JNum n => HNum n
  | JStr s => HStr s
  | JArr l =>
      HArr l ((fix all (l : list json) : Forall P l :=
                 match l with
                 | [] => Forall_nil_2 P
                 | j :: l' =>
                     Forall_cons_2 P j l'
                       (json_induction P HNull HBool HNum HStr HArr HObj j) (all l')
                 end) l)
  | JObj m =>
      HObj m ((fix all (m : list (string * json)) : Forall (λ kv, P kv.2) m :=
                 match m with
                 | [] => Forall_nil_2 _
                 | kv :: m' =>
                     Forall_cons_2 (λ kv, P kv.2) kv m'
                       (json_induction P HNull HBool HNum HStr HArr HObj kv.2) (all m')
                 end) m)
  end.

Lemma JSON_parse_array js h :
  JSON_parse (JArr js) h
  = let '(vs, h1) := parse_elems js h in
    let '(l, h2) := alloc (array vs) h1 in
    (VRef l, h2).
Proof. reflexivity. Qed.

Lemma JSON_parse_object ms h :
  JSON_parse (JObj ms) h
  = let '(kvs, h1) := parse_members ms h in
    let '(l, h2) := alloc (plain (list_to_map kvs)) h1 in
    (VRef l, h2).
Proof. reflexivity. Qed.

(** Parsing allocates: it builds a value out of new cells and writes to no
    cell there was. *)
Lemma JSON_parse_extends j :
  ∀ h R, region h R →
    ∃ R', extends h R (JSON_parse j h).2 R' ∧ value_in R' (JSON_parse j h).1.
Proof.
  induction j as [| | | |js IH|ms IH] using json_induction; intros h R Hh;
    try (exists R; split; [by apply extends_refl|by apply value_in_prim]).
  - assert (∃ R', extends h R (parse_elems js h).2 R'
                  ∧ Forall (value_in R') (parse_elems js h).1) as (R1 & Hext & Hvs).
    { clear -IH Hh. revert h R Hh.
      induction IH as [|j js Hj _ IH]; intros h R Hh; simpl.
      - exists R. split; [by apply extends_refl|done].
      - destruct (Hj h R Hh) as (R1 & Hext1 & Hv).
        destruct (JSON_parse j h) as [v h1]. simpl in *.
        destruct (IH h1 R1 (ext_region _ _ _ _ Hext1)) as (R2 & Hext2 & Hvs).
        destruct (parse_elems js h1) as [vs h2]. simpl in *.
        exists R2. split; [by eapply extends_trans|].
        constructor; [|done]. eapply value_in_mono; [done|].
        apply (ext_sub _ _ _ _ Hext2). }
    rewrite JSON_parse_array. destruct (parse_elems js h) as [vs h1]. simpl in *.
    assert (cell_in R1 (array vs)) as Hcell.
    { split; simpl; [by intros ? [= <-]|]. intros k v. by rewrite lookup_empty. }
    pose proof (extends_alloc h1 R1 _ (ext_region _ _ _ _ Hext) Hcell) as Hext2.
    unfold alloc in *. simpl in *.
    eexists. split; [by eapply extends_trans|].
    apply value_in_ref. set_solver.
  - assert (∃ R', extends h R (parse_members ms h).2 R'
                  ∧ Forall (λ kv, value_in R' kv.2) (parse_members ms h).1)
      as (R1 & Hext & Hkvs).
    { clear -IH Hh. revert h R Hh.
      induction IH as [|[k j] ms Hj _ IH]; intros h R Hh; simpl.
      - exists R. split; [by apply extends_refl|done].
      - destruct (Hj h R Hh) as (R1 & Hext1 & Hv). simpl in *.
        destruct (JSON_parse j h) as [v h1]. simpl in *.
        destruct (IH h1 R1 (ext_region _ _ _ _ Hext1)) as (R2 & Hext2 & Hvs).
        destruct (parse_members ms h1) as [kvs h2]. simpl in *.
        exists R2. split; [by eapply extends_trans|].
        constructor; [|done]. eapply value_in_mono; [done|].
        apply (ext_sub _ _ _ _ Hext2). }
    rewrite JSON_parse_object. destruct (parse_members ms h) as [kvs h1]. simpl in *.
    assert (cell_in R1 (plain (list_to_map kvs))) as Hcell.
    { split; simpl; [done|]. intros k v Hk.
      apply elem_of_list_to_map_2 in Hk. rewrite Forall_forall in Hkvs.
      by apply (Hkvs (k, v)). }
    pose proof (extends_alloc h1 R1 _ (ext_region _ _ _ _ Hext) Hcell) as Hext2.
    unfold alloc in *. simpl in *.
    eexists. split; [by eapply extends_trans|].
    apply value_in_ref. set_solver.
Qed.



Section contained.
Context (h0 : heap) (R0 : gset loc).














End contained.

Section dispatch_contained.
Context (h0 : heap) (R0 : gset loc).







End dispatch_contained.

(** The sample plugins are confined. *)
Lemma local_follow R obj path : value_in R obj → local value_in (follow obj path) R.
Proof.
  revert R obj. induction path as [|p path IH]; intros R obj Hobj; simpl.
  - by apply local_ret.
  - eapply local_bind; [by apply local_load|]. intros o R' _ Ho. by apply IH.
Qed.

Lemma value_in_head R args :
  Forall (value_in R) args → value_in R (default VUndefined (head args)).
Proof. destruct 1; simpl; [by apply value_in_prim|done]. Qed.


Lemma confined_overwrite path k v : value_ref v = None → confined (overwrite path k v).
Proof.
  intros Hv args R Hargs. unfold overwrite.
  eapply local_bind; [by apply local_follow, value_in_head|].
  intros obj R1 Hsub1 Hobj.
  eapply local_bind.
  - apply local_assign; [done|by apply value_in_prim].
  - intros _ R2 _ _. apply local_ret. by apply value_in_prim.
Qed.


(** ** The payload of an event dispatch *)


Lemma index_of_key_pretty k i : index_of_key k = Some i → pretty i = k.
Proof.
  unfold index_of_key. destruct (NilEmpty.uint_of_string k); [|done].
  case_bool_decide; [|done]. by intros [= <-].
Qed.

Lemma get_set_prop_eq k v c : get_prop (set_prop k v c) k = v.
Proof.
  unfold get_prop, set_prop.
  destruct (index_of_key k) as [i|] eqn:Hk; [|simpl; by rewrite lookup_insert_eq].
  destruct (cell_elems c) as [l|] eqn:Hl; simpl.
  - unfold list_store. case_bool_decide.
    + by rewrite list_lookup_insert_eq.
    + rewrite lookup_app_r by lia. rewrite lookup_app_r; rewrite length_replicate; [|lia].
      by replace (i - length l - (i - length l)) with 0 by lia.
  - by rewrite lookup_insert_eq.
Qed.

Lemma get_set_prop_ne k k' v c : k ≠ k' → get_prop (set_prop k v c) k' = get_prop c k'.
Proof.
  intros Hne. unfold get_prop, set_prop.
  destruct (index_of_key k) as [i|] eqn:Hk;
    [|simpl; rewrite lookup_insert_ne by done; done].
  destruct (cell_elems c) as [l|] eqn:Hl; simpl;
    [|rewrite lookup_insert_ne by done; done].
  destruct (index_of_key k') as [i'|] eqn:Hk'; [|done].
  assert (i ≠ i') as Hi.
  { intros <-. apply index_of_key_pretty in Hk, Hk'. congruence. }
  unfold list_store. case_bool_decide.
  - by rewrite list_lookup_insert_ne.
  - destruct (decide (i' < length l)).
    + by rewrite lookup_app_l.
    + rewrite (lookup_ge_None_2 l i') by lia. rewrite lookup_app_r by lia.
      destruct (decide (i' < i)).
      * rewrite lookup_app_l by (rewrite length_replicate; lia).
        by rewrite lookup_replicate_2 by lia.
      * rewrite lookup_ge_None_2; [done|].
        rewrite length_app, length_replicate. simpl. lia.
Qed.



Lemma region_empty h : region h ∅.
Proof. split; set_solver. Qed.

(** The copy of an object is [null] or a new cell, and copying leaves every
    cell as it was. *)
Lemma json_copy_object v h r h' :
  typeof v = "object" → json_copy v h = (Normal r, h') →
  (∀ l, l ∈ dom h → h' !! l = h !! l)
  ∧ (r = VNull ∨ ∃ t, r = VRef t ∧ (t ∉ dom h) ∧ t ∈ dom h').
Proof.
  intros Hv. unfold json_copy.
  destruct (JSON_stringify h v) as [| |j] eqn:Hj; [done..|].
  destruct (JSON_parse_extends j h ∅ (region_empty h)) as (R' & Hext & Hr).
  destruct (JSON_parse j h) as [r' h''] eqn:Hparse. intros [= <- <-]. simpl in *.
  split.
  { intros l Hl. apply (ext_frame _ _ _ _ Hext); set_solver. }
  assert (∀ t, r' = VRef t → (t ∉ dom h) ∧ t ∈ dom h'') as Hnew.
  { intros t ->. assert (t ∈ R') as Ht by (by apply Hr). split.
    - intros Hin. by pose proof (ext_new _ _ _ _ Hext t Ht Hin).
    - by apply (proj1 (ext_region _ _ _ _ Hext)). }
  assert (j = JNull ∨ (∃ js, j = JArr js) ∨ (∃ ms, j = JObj ms)) as Hshape.
  { unfold JSON_stringify in Hj. destruct v; simplify_eq/=; eauto.
    repeat case_match; simplify_eq; eauto. }
  destruct Hshape as [->|[[js ->]|[ms ->]]].
  - left. by simplify_eq/=.
  - right. rewrite JSON_parse_array in Hparse.
    destruct (parse_elems js h) as [vs h1]. unfold alloc in Hparse.
    simplify_eq/=. eauto.
  - right. rewrite JSON_parse_object in Hparse.
    destruct (parse_members ms h) as [kvs h1]. unfold alloc in Hparse.
    simplify_eq/=. eauto.
Qed.

Lemma on_store_run {A} (f : ST heap A) σ :
  on_store f σ = ((f (store σ)).1, with_store (f (store σ)).2 σ).
Proof. unfold on_store. by destruct (f (store σ)). Qed.

Lemma with_store_with_store h h' σ : with_store h (with_store h' σ) = with_store h σ.
Proof. done. Qed.

Lemma bind_run {S A B} (c : ST S A) (f : A → ST S B) σ :
  (c ≫= f) σ = match c σ with
               | (Normal a, σ') => f a σ'
               | (Throw e, σ') => (Throw e, σ')
               end.
Proof. done. Qed.



(** ** One envelope for all targets *)

Lemma bind_Normal {S A B} (c : ST S A) (f : A → ST S B) σ b σ' :
  (c ≫= f) σ = (Normal b, σ') →
  ∃ a σ1, c σ = (Normal a, σ1) ∧ f a σ1 = (Normal b, σ').
Proof.
  rewrite bind_run. destruct (c σ) as [[a|e] σ1]; [|done]. eauto.
Qed.

Lemma keeps_trace_ret {A} (a : A) : keeps_trace (mret a).
Proof. done. Qed.

Lemma keeps_trace_throw {A} e : keeps_trace (throw (A := A) e).
Proof. done. Qed.

Lemma keeps_trace_bind {A B} (c : M A) (f : A → M B) :
  keeps_trace c → (∀ a, keeps_trace (f a)) → keeps_trace (c ≫= f).
Proof.
  intros Hc Hf σ. rewrite bind_run.
  specialize (Hc σ). destruct (c σ) as [[a|e] σ']; simpl in *; [|done].
  by rewrite Hf.
Qed.

Lemma keeps_trace_on_store {A} (f : ST heap A) : keeps_trace (on_store f).
Proof. intros σ. by rewrite on_store_run. Qed.

Ltac keeps_trace :=
  repeat first
    [ simple apply keeps_trace_ret
    | simple apply keeps_trace_throw
    | simple apply keeps_trace_on_store
    | simple apply keeps_trace_bind; [|intros]
    | match goal with
      | |- keeps_trace (match ?x with _ => _ end) => destruct x
      end ].

Lemma keeps_trace_PluginEvent copyProps passthruProps :
  keeps_trace (PluginEvent.constructor copyProps passthruProps).
Proof. unfold PluginEvent.constructor, new_cell, write_prop. keeps_trace. Qed.

Lemma dispatched_target methodName ev pluginMap name σ0 s σ s' σ' :
  dispatched methodName ev σ0 s σ →
  s_INVOKE_SYNC_EVENTS_target methodName ev pluginMap name s σ = (Normal s', σ') →
  dispatched methodName ev σ0 s' σ'.
Proof.
  intros (calls & Htrace & Hcalls & Hnames & Hcount).
  unfold s_INVOKE_SYNC_EVENTS_target.
  destruct pluginMap as [pm|]; [|done].
  destruct (Map_get pm name) as [plugin|];
    [|intros [= <- <-]; by exists calls].
  destruct (_ && _); [|intros [= <- <-]; by exists calls].
  destruct (instance_method _ _) as [f|]; [|intros [= <- <-]; by exists calls].
  intros (u1 & σ1 & H1 & Hrun)%bind_Normal.
  apply bind_Normal in Hrun as (u2 & σ2 & H2 & Hrun).
  apply bind_Normal in Hrun as (u3 & σ3 & H3 & Hrun).
  apply bind_Normal in Hrun as (v & σ4 & H4 & [= <- <-]).
  assert (trace σ3 = trace σ) as Htrace3.
  { unfold write_prop in *.
    pose proof (keeps_trace_on_store (assign ev "eventbus" (PluginEntry.eventProxy plugin)) σ) as T1.
    pose proof (keeps_trace_on_store (assign ev "pluginName" (VStr (PluginEntry.name plugin))) σ1) as T2.
    pose proof (keeps_trace_on_store (assign ev "pluginOptions" (PluginEntry.options plugin)) σ2) as T3.
    rewrite H1 in T1. rewrite H2 in T2. rewrite H3 in T3. simpl in *. congruence. }
  unfold call_plugin_method in H4. rewrite bind_run in H4. simpl in H4.
  rewrite on_store_run in H4. simpl in H4.
  assert (trace σ4 = trace σ3 ++ [Call (PluginEntry.name plugin) methodName [ev]])
    as Htrace4.
  { destruct (f [ev] (store σ3)) as [[r|e] h]; simplify_eq/=. done. }
  exists (calls ++ [Call (PluginEntry.name plugin) methodName [ev]]). simpl.
  split; [by rewrite Htrace4, Htrace3, Htrace, app_assoc|].
  split; [apply Forall_app; split; [done|by constructor]|].
  split; [by rewrite fmap_app, Hnames|].
  rewrite length_app, Hcount. simpl. lia.
Qed.

Lemma dispatched_for_of methodName ev pluginMap names σ0 s σ s' σ' :
  dispatched methodName ev σ0 s σ →
  for_of (s_INVOKE_SYNC_EVENTS_target methodName ev pluginMap) names s σ
  = (Normal s', σ') →
  dispatched methodName ev σ0 s' σ'.
Proof.
  revert s σ. induction names as [|name names IH]; intros s σ Hs; simpl.
  - by intros [= <- <-].
  - intros (s1 & σ1 & H1 & Hrun)%bind_Normal.
    eapply IH; [|done]. by eapply dispatched_target.
Qed.

Lemma read_prop_Normal obj k σ v σ' :
  read_prop obj k σ = (Normal v, σ') →
  σ' = with_store (store σ) σ ∧ (load obj k (store σ)).1 = Normal v.
Proof.
  unfold read_prop. rewrite on_store_run.
  destruct obj; simpl; try done; by intros [= <- <-].
Qed.

Lemma write_prop_Normal obj k v σ u σ' :
  write_prop obj k v σ = (Normal u, σ') →
  (∃ d c, obj = VRef d ∧ store σ !! d = Some c
          ∧ σ' = with_store (<[d := set_prop k v c]> (store σ)) σ)
  ∨ (is_host obj ∧ σ' = with_store (store σ) σ).
Proof.
  unfold write_prop. rewrite on_store_run.
  destruct obj as [| | | | |d| | |]; simpl; try done;
    try (intros [= <- <-]; by right).
  destruct (store σ !! d) as [c|] eqn:Hd; simpl; [|done].
  intros [= <- <-]. left. eauto.
Qed.

Lemma new_cell_Normal c σ v σ' :
  new_cell c σ = (Normal v, σ') →
  v = VRef (fresh (dom (store σ)))
  ∧ σ' = with_store (<[fresh (dom (store σ)) := c]> (store σ)) σ.
Proof. unfold new_cell. rewrite on_store_run. simpl. by intros [= <- <-]. Qed.

Lemma load_ref_inv obj k h v :
  (load obj k h).1 = Normal v → v ≠ VUndefined →
  ∃ e ec, obj = VRef e ∧ h !! e = Some ec ∧ get_prop ec k = v.
Proof.
  destruct obj as [| | | | |e| | |]; simpl; try done;
    try (intros [= <-] Hv; by destruct Hv).
  destruct (h !! e) as [ec|] eqn:He; simpl; [|intros [= <-] Hv; by destruct Hv].
  intros [= <-] _. eauto.
Qed.

(** Reading [e.k] after a write of another key to a cell, or after an
    allocation. *)
Lemma get_after_write e k (h : heap) d k' v dc :
  h !! d = Some dc → k' ≠ k →
  from_option (λ c, get_prop c k) VUndefined (<[d := set_prop k' v dc]> h !! e)
  = from_option (λ c, get_prop c k) VUndefined (h !! e).
Proof.
  intros Hd Hk. destruct (decide (d = e)) as [->|Hde].
  - rewrite lookup_insert_eq, Hd. simpl. by apply get_set_prop_ne.
  - by rewrite lookup_insert_ne.
Qed.

Lemma get_after_alloc e k (h : heap) c :
  is_Some (h !! e) →
  from_option (λ c, get_prop c k) VUndefined (<[fresh (dom h) := c]> h !! e)
  = from_option (λ c, get_prop c k) VUndefined (h !! e).
Proof.
  intros He. rewrite lookup_insert_ne; [done|].
  intros <-. apply (is_fresh (dom h)). by apply elem_of_dom.
Qed.

(** The end of the event dispatcher: the metadata is attached to what
    [ev.data] holds, and that is returned. *)
Lemma metadata_attached ev count names σ payload σ' :
  (data ← read_prop ev "data";
   write_prop data "$$plugin_invoke_count" (VNum count);;
   array ← new_cell (array (VStr <$> names));
   data ← read_prop ev "data";
   write_prop data "$$plugin_invoke_names" array;;
   read_prop ev "data") σ = (Normal payload, σ') →
  trace σ' = trace σ
  ∧ (load ev "data" (store σ')).1 = Normal payload
  ∧ ∀ d, payload = VRef d →
      (load payload "$$plugin_invoke_count" (store σ')).1 = Normal (VNum count)
      ∧ ∃ n, (load payload "$$plugin_invoke_names" (store σ')).1 = Normal (VRef n)
             ∧ store σ' !! n = Some (array (VStr <$> names)).
Proof.
  intros (data & σ1 & H1 & Hrun)%bind_Normal.
  apply bind_Normal in Hrun as (u2 & σ2 & H2 & Hrun).
  apply bind_Normal in Hrun as (arr & σ3 & H3 & Hrun).
  apply bind_Normal in Hrun as (data' & σ4 & H4 & Hrun).
  apply bind_Normal in Hrun as (u5 & σ5 & H5 & H6).
  apply read_prop_Normal in H1 as [-> Hdata].
  apply new_cell_Normal in H3 as [-> ->].
  apply read_prop_Normal in H4 as [-> Hdata'].
  apply read_prop_Normal in H6 as [-> Hpayload].
  set (h := store σ) in *.
  assert (data ≠ VUndefined) as Hdef.
  { intros ->. by apply write_prop_Normal in H2 as [(? & ? & ? & _)|[? _]]. }
  destruct (load_ref_inv _ _ _ _ Hdata Hdef) as (e & ec & -> & He & Hec).
  simpl in *.
  apply write_prop_Normal in H2 as [(d & dc & -> & Hd & ->)|Hhost].
  - (* the payload is a cell of the store *)
    simpl in *. fold h in Hd, Hdata'.
    set (k1 := "$$plugin_invoke_count") in *.
    set (k2 := "$$plugin_invoke_names") in *.
    set (h1 := <[d := set_prop k1 (VNum count) dc]> h) in *.
    set (n := fresh (dom h1)) in *.
    set (h2 := <[n := array (VStr <$> names)]> h1) in *.
    assert (is_Some (h1 !! e)) as He1.
    { unfold h1. destruct (decide (d = e)) as [->|].
      - rewrite lookup_insert_eq. eauto.
      - rewrite lookup_insert_ne by done. eauto. }
    assert (data' = VRef d) as ->.
    { unfold h2, n in Hdata'. rewrite get_after_alloc in Hdata' by done.
      unfold h1 in Hdata'. rewrite get_after_write in Hdata' by done.
      rewrite He in Hdata'. simpl in Hdata'. congruence. }
    assert (n ∉ dom h1) as Hn by apply is_fresh.
    assert (h1 !! d = Some (set_prop k1 (VNum count) dc)) as Hd1
      by (unfold h1; by rewrite lookup_insert_eq).
    assert (n ≠ d) as Hnd by (intros ->; apply Hn, elem_of_dom; eauto).
    assert (h2 !! d = Some (set_prop k1 (VNum count) dc)) as Hd2
      by (unfold h2; by rewrite lookup_insert_ne).
    apply write_prop_Normal in H5 as [(? & dc2 & [= <-] & Hdc2 & ->)|[? _]]; [|done].
    simpl in *. fold h2 in Hdc2, Hpayload |- *. rewrite Hd2 in Hdc2.
    injection Hdc2 as <-.
    assert (payload = VRef d) as ->.
    { rewrite get_after_write in Hpayload by done.
      unfold h2, n in Hpayload. rewrite get_after_alloc in Hpayload by done.
      unfold h1 in Hpayload. rewrite get_after_write in Hpayload by done.
      rewrite He in Hpayload. simpl in Hpayload. congruence. }
    split; [done|]. split; [done|]. intros ? [= <-]. split.
    + simpl. rewrite lookup_insert_eq. simpl.
      by rewrite get_set_prop_ne, get_set_prop_eq.
    + exists n. simpl. rewrite lookup_insert_eq. simpl.
      rewrite get_set_prop_eq. split; [done|].
      rewrite lookup_insert_ne by done. unfold h2. by rewrite lookup_insert_eq.
  - (* a plugin put a host object in [ev.data] *)
    destruct Hhost as [Hdata_host ->]. simpl in *. fold h in Hdata'.
    assert (data' = data) as ->.
    { rewrite get_after_alloc in Hdata' by eauto.
      rewrite He in Hdata'. simpl in Hdata'. congruence. }
    assert (store σ5 = <[fresh (dom h) := array (VStr <$> names)]> h
            ∧ trace σ5 = trace σ) as [Hstore5 Htrace5].
    { by apply write_prop_Normal in H5 as [(d & dc & -> & _ & _)|[_ ->]]. }
    rewrite Hstore5 in *.
    rewrite get_after_alloc in Hpayload by eauto.
    rewrite He in Hpayload. simpl in Hpayload.
    assert (payload = data) as -> by congruence.
    split; [done|]. split.
    + rewrite get_after_alloc by eauto. by rewrite He.
    + by intros d ->.
Qed.

(** The defaults of the parameters, [copyProps = {}] and the like: a new
    empty object when the argument is [undefined]. *)
Lemma default_object_Normal (v : value) σ a σ1 :
  (if bool_decide (v = VUndefined) then new_cell (plain ∅) else mret v) σ
  = (Normal a, σ1) →
  dom (store σ) ⊆ dom (store σ1) ∧ trace σ1 = trace σ.
Proof.
  case_bool_decide.
  - intros [-> ->]%new_cell_Normal. simpl. split; [|done].
    rewrite dom_insert. set_solver.
  - by intros [= <- <-].
Qed.

(** The envelope is an object that was not there before. *)
Lemma PluginEvent_fresh copyProps passthruProps σ ev σ' :
  PluginEvent.constructor copyProps passthruProps σ = (Normal ev, σ') →
  ∃ e, ev = VRef e ∧ e ∉ dom (store σ).
Proof.
  unfold PluginEvent.constructor.
  intros (c & σ1 & H1 & Hrun)%bind_Normal.
  apply bind_Normal in Hrun as (p & σ2 & H2 & Hrun).
  apply bind_Normal in Hrun as (ev0 & σ3 & H3 & Hrun).
  apply bind_Normal in Hrun as (copy & σ4 & H4 & Hrun).
  apply bind_Normal in Hrun as (data & σ5 & H5 & Hrun).
  apply bind_Normal in Hrun as (u6 & σ6 & H6 & Hrun).
  apply bind_Normal in Hrun as (u7 & σ7 & H7 & Hrun).
  apply bind_Normal in Hrun as (u8 & σ8 & H8 & Hrun).
  apply bind_Normal in Hrun as (u9 & σ9 & H9 & [= <- <-]).
  apply default_object_Normal in H1 as [D1 _].
  apply default_object_Normal in H2 as [D2 _].
  apply new_cell_Normal in H3 as [-> _].
  eexists; split; [done|].
  pose proof (is_fresh (dom (store σ2))). set_solver.
Qed.

Lemma dispatched_start methodName ev σ :
  dispatched methodName ev σ
    {| ev_hasMethod := false; ev_hasPlugin := false;
       pluginInvokeCount := 0; pluginInvokeNames := [] |} σ.
Proof. exists []. by rewrite app_nil_r. Qed.

Lemma s_INVOKE_SYNC_EVENTS_one_envelope methodName copyProps passthruProps
    nameOrList pluginMap options performErrorCheck σ payload σ' :
  s_INVOKE_SYNC_EVENTS (VStr methodName) copyProps passthruProps nameOrList
    pluginMap options performErrorCheck σ = (Normal payload, σ') →
  one_envelope methodName σ payload σ'.
Proof.
  unfold s_INVOKE_SYNC_EVENTS.
  intros (c & σ1 & H1 & Hrun)%bind_Normal.
  apply bind_Normal in Hrun as (p & σ2 & H2 & Hrun).
  apply default_object_Normal in H1 as [D1 T1].
  apply default_object_Normal in H2 as [D2 T2].
  destruct (negb _) in Hrun; [done|]. destruct (negb _) in Hrun; [done|].
  destruct nameOrList as [|name|names|?]; try done.
  all: apply bind_Normal in Hrun as (ev & σ3 & H3 & Hrun).
  all: apply bind_Normal in Hrun as (s & σ4 & H4 & Hrun).
  all: assert (dispatched methodName ev σ3 s σ4) as Hs
         by (first [ eapply dispatched_target; [apply dispatched_start|exact H4]
                   | eapply dispatched_for_of; [apply dispatched_start|exact H4] ]).
  all: destruct (_ && _) in Hrun; [done|].
  all: destruct (_ && _) in Hrun; [done|].
  all: apply metadata_attached in Hrun as (T5 & Hload & Hattached).
  all: pose proof (keeps_trace_PluginEvent c p σ2) as T3; rewrite H3 in T3.
  all: apply PluginEvent_fresh in H3 as (e & -> & He).
  all: destruct Hs as (calls & T4 & Hcalls & Hnames & Hcount).
  all: exists e, calls.
  all: split; [set_solver|].
  all: split; [simpl in *; congruence|].
  all: split; [done|].
  all: split; [done|].
  all: by rewrite <-Hnames, <-Hcount.
Qed.

Lemma invokeSyncEvent_one_envelope σ methodName copyProps passthruProps
    nameOrList payload σ' :
  PluginManager.invokeSyncEvent (VStr methodName) copyProps passthruProps
    nameOrList σ = (Normal payload, σ') →
  one_envelope methodName σ payload σ'.
Proof.
  unfold PluginManager.invokeSyncEvent.
  intros (m & σ0 & H0 & Hrun)%bind_Normal.
  unfold get_this in H0. injection H0 as <- <-.
  apply bind_Normal in Hrun as (c & σ1 & H1 & Hrun).
  apply bind_Normal in Hrun as (p & σ2 & H2 & Hrun).
  apply bind_Normal in Hrun as (nl & σ3 & H3 & Hrun).
  apply default_object_Normal in H1 as [D1 T1].
  apply default_object_Normal in H2 as [D2 T2].
  assert (σ3 = σ2) as ->.
  { unfold PluginManager.default_nameOrList in H3.
    destruct nameOrList; [destruct (_pluginMap _); [|done]|..];
      by injection H3. }
  apply s_INVOKE_SYNC_EVENTS_one_envelope in Hrun
    as (e & calls & He & T & Hrest).
  exists e, calls. split; [set_solver|]. split; [congruence|]. done.
Qed.

(** C2.  (1) When [invokeSyncEvent] returns, every method it has invoked,
    all of them [methodName], received as its only argument one and the same
    envelope, an object that did not exist before the call; what is returned
    is what the envelope's [data] holds at the end, not the envelope; and
    that payload carries [$$plugin_invoke_count], the number of invocations,
    and [$$plugin_invoke_names], an array of the invoked plugins' names in
    invocation order.  (2) With plugins [A] and [B] whose [test] increments
    [event.data.count], [invokeSyncEvent('test', { count: 0 })] hands both the
    envelope of cell 12 and returns its payload, cell 13 and not the caller's
    cell 10, with [count] 2, [$$plugin_invoke_count] 2 and
    [$$plugin_invoke_names] [['A', 'B']]; the caller's object still has
    [count] 0. *)
Theorem invokeSyncEvent_shares_one_envelope :
  (∀ σ methodName copyProps passthruProps nameOrList payload σ',
     PluginManager.invokeSyncEvent (VStr methodName) copyProps passthruProps
       nameOrList σ = (Normal payload, σ') →
     one_envelope methodName σ payload σ')
  ∧ (let r := run no_modules no_options
                (PluginManager.add (Some (config_instance "A" counter));;
                 PluginManager.add (Some (config_instance "B" counter));;
                 copyProps ← new_cell (plain {[ "count" := VNum 0 ]});
                 payload ← PluginManager.invokeSyncEvent (VStr "test") copyProps
                             VUndefined NL_undefined;
                 count ← read_prop payload "count";
                 n ← read_prop payload "$$plugin_invoke_count";
                 names ← read_prop payload "$$plugin_invoke_names";
                 seen ← read_prop copyProps "count";
                 mret (copyProps, payload, count, n, names, seen)) in
     r.1 = Normal (VRef 10, VRef 13, VNum 2, VNum 2, VRef 14, VNum 0)
     ∧ cell_elems <$> store r.2 !! 14 = Some (Some [VStr "A"; VStr "B"])
     ∧ trace r.2 = [Call "A" "test" [VRef 12]; Call "B" "test" [VRef 12]]).
Proof.
  split.
  - intros. by eapply invokeSyncEvent_one_envelope.
  - vm_compute. repeat split; reflexivity.
Qed.

Lemma invokeSyncEvent_shares_one_envelope_witness :
  ∃ payload σ',
    PluginManager.invokeSyncEvent (VStr "test") (VRef 10) VUndefined
      NL_undefined counters_with_data = (Normal payload, σ')
    ∧ one_envelope "test" counters_with_data payload σ'.
Proof.
  destruct (PluginManager.invokeSyncEvent (VStr "test") (VRef 10) VUndefined
              NL_undefined counters_with_data) as [r σ'] eqn:Hrun.
  assert (r = (PluginManager.invokeSyncEvent (VStr "test") (VRef 10) VUndefined
                 NL_undefined counters_with_data).1) as Hr
    by (by rewrite Hrun).
  vm_compute in Hr. subst r.
  exists (VRef 13), σ'. split; [done|].
  by apply (proj1 invokeSyncEvent_shares_one_envelope counters_with_data "test"
              (VRef 10) VUndefined NL_undefined).
Defined.

(** ** The options of an entry *)

Lemma stringify_primitive fuel h v :
  primitive v → stringify_fuel fuel h v = SerText (json_of v).
Proof. by destruct v, fuel. Qed.

Lemma JSON_parse_primitive v h : primitive v → JSON_parse (json_of v) h = (v, h).
Proof. by destruct v. Qed.

Lemma ser_members_elem rs ms k j :
  ser_members rs = Some ms → (k, SerText j) ∈ rs → (k, j) ∈ ms.
Proof.
  revert ms. induction rs as [|[k' r] rs IH]; intros ms; simpl.
  - by intros _ ?%elem_of_nil.
  - intros Hms [[= <- <-]|Hin]%elem_of_cons.
    + destruct (ser_members rs); simplify_eq/=. left.
    + destruct r; [done|by apply IH|].
      destruct (ser_members rs) as [ms'|]; simplify_eq/=. right. by apply IH.
Qed.

Lemma ser_members_keys rs ms :
  ser_members rs = Some ms → ms.*1 `sublist_of` rs.*1.
Proof.
  revert ms. induction rs as [|[k r] rs IH]; intros ms; simpl.
  - by intros [= <-].
  - destruct r; [done| |].
    + intros Hms. apply sublist_cons. by apply IH.
    + destruct (ser_members rs) as [ms'|]; [|done]. intros [= <-]. simpl.
      apply sublist_skip. by apply IH.
Qed.

Lemma parse_members_keys ms h : (parse_members ms h).1.*1 = ms.*1.
Proof.
  revert h. induction ms as [|[k j] ms IH]; intros h; simpl; [done|].
  destruct (JSON_parse j h) as [v h1]. specialize (IH h1).
  destruct (parse_members ms h1) as [kvs h2]. simpl. f_equal. exact IH.
Qed.

Lemma parse_members_elem ms h k v :
  primitive v → (k, json_of v) ∈ ms → (k, v) ∈ (parse_members ms h).1.
Proof.
  intros Hv. revert h. induction ms as [|[k' j] ms IH]; intros h; simpl.
  - by intros ?%elem_of_nil.
  - intros [[= <- <-]|Hin]%elem_of_cons.
    + rewrite JSON_parse_primitive by done.
      destruct (parse_members ms h) as [kvs h2]. left.
    + destruct (JSON_parse j h) as [v' h1]. specialize (IH h1 Hin).
      destruct (parse_members ms h1) as [kvs h2]. by right.
Qed.

(** The copy of an object has the object's properties whose values are
    primitive. *)
Lemma json_copy_prop h o oc k v r h' :
  h !! o = Some oc → cell_elems oc = None → cell_props oc !! k = Some v →
  primitive v →
  json_copy (VRef o) h = (Normal r, h') →
  ∃ t tc, r = VRef t ∧ h' !! t = Some tc ∧ get_prop tc k = v.
Proof.
  intros Ho Hel Hk Hv. unfold json_copy, JSON_stringify. simpl.
  rewrite Ho, Hel.
  destruct (ser_members _) as [ms|] eqn:Hms; [|done].
  rewrite JSON_parse_object.
  pose proof (parse_members_keys ms h) as Hkeys.
  assert ((k, v) ∈ (parse_members ms h).1) as Hin.
  { apply parse_members_elem; [done|]. eapply ser_members_elem; [done|].
    apply list_elem_of_In, in_map_iff. exists (k, v). split.
    - simpl. by rewrite stringify_primitive.
    - by apply list_elem_of_In, elem_of_map_to_list. }
  assert (NoDup ms.*1) as Hnodup.
  { eapply sublist_NoDup; [|by apply ser_members_keys].
    change (map ?f ?l) with (f <$> l). rewrite <-list_fmap_compose.
    apply (NoDup_fst_map_to_list (cell_props oc)). }
  destruct (parse_members ms h) as [kvs h1]. unfold alloc. intros [= <- <-].
  simpl in *. eexists _, _. split; [done|]. split; [apply lookup_insert_eq|].
  assert (list_to_map (M := gmap string value) kvs !! k = Some v) as Hlook.
  { apply elem_of_list_to_map_1; [by rewrite Hkeys|done]. }
  unfold get_prop, plain. simpl. rewrite Hlook. by destruct (index_of_key k).
Qed.



(** [getPluginOptions] copies what the entry's options hold when it is
    called: it returns a new object, with the primitive properties of the
    options, and writes to no object that was there. *)
Lemma getPluginOptions_copy σ pluginMap name entry o oc r σ' :
  _pluginMap (this σ) = Some pluginMap →
  Map_get pluginMap (VStr name) = Some entry →
  PluginEntry.options entry = VRef o →
  store σ !! o = Some oc → cell_elems oc = None →
  PluginManager.getPluginOptions (VStr name) σ = (Normal r, σ') →
  ∃ t, r = VRef t ∧ (t ∉ dom (store σ))
    ∧ (∀ l, l ∈ dom (store σ) → store σ' !! l = store σ !! l)
    ∧ ∀ k v, cell_props oc !! k = Some v → primitive v →
        (load r k (store σ')).1 = Normal v.
Proof.
  intros Hmap Hget Ho Hoc Hel. unfold PluginManager.getPluginOptions.
  rewrite bind_run. simpl. rewrite Hmap. simpl in *. rewrite Hget, Ho.
  rewrite on_store_run.
  destruct (json_copy (VRef o) (store σ)) as [[r'|err] h'] eqn:Hcopy; [|done].
  simpl. intros [= <- <-]. simpl.
  pose proof (json_copy_object (VRef o) _ _ _ eq_refl Hcopy) as [Hframe Hr].
  assert (∃ t, r' = VRef t) as [t ->].
  { unfold json_copy, JSON_stringify in Hcopy. simpl in Hcopy.
    rewrite Hoc, Hel in Hcopy.
    destruct (ser_members _) as [ms|]; [|done].
    rewrite JSON_parse_object in Hcopy.
    destruct (parse_members ms (store σ)) as [kvs h1]. unfold alloc in Hcopy.
    simplify_eq/=. eauto. }
  destruct Hr as [?|(? & [= <-] & Hnew & _)]; [done|].
  exists t. split; [done|]. split; [done|]. split; [done|].
  intros k v Hk Hv.
  destruct (json_copy_prop _ _ _ _ _ _ _ Hoc Hel Hk Hv Hcopy)
    as (? & tc & [= <-] & Htc & Hprop).
  simpl. rewrite Htc. simpl. by rewrite Hprop.
Qed.

(** ** What a dispatch calls *)

Lemma called_cons methodName pluginMap args name names :
  called methodName pluginMap args (name :: names)
  = called methodName pluginMap args [name] ++ called methodName pluginMap args names.
Proof. unfold called. simpl. by destruct (target_of _ _ _). Qed.

Lemma target_of_present methodName pluginMap name pf :
  target_of methodName pluginMap name = Some pf → present pluginMap name = true.
Proof.
  unfold target_of, present. destruct (Map_get _ _); [|done].
  by destruct (_ && _).
Qed.

(** One round of the loop of [invokeSync] and [invokeAsync]. *)
Lemma invoke_target_Normal methodName args pluginMap name s σ s' σ' :
  PluginManager.invoke_target methodName args pluginMap name s σ = (Normal s', σ') →
  this σ' = this σ ∧ subscriptions σ' = subscriptions σ
  ∧ trace σ' = trace σ ++ called methodName pluginMap args [name]
  ∧ length (loop_results s')
    = length (loop_results s) + length (called methodName pluginMap args [name])
  ∧ loop_hasPlugin s' = loop_hasPlugin s || present pluginMap name
  ∧ loop_hasMethod s'
    = loop_hasMethod s || bool_decide (called methodName pluginMap args [name] ≠ [])
  ∧ (called methodName pluginMap args [name] = [] → loop_result s' = loop_result s).
Proof.
  unfold PluginManager.invoke_target, called, target_of, present. simpl.
  destruct (Map_get pluginMap name) as [plugin|]; simpl.
  2:{ intros [= <- <-]. rewrite app_nil_r, !orb_false_r. repeat split; lia. }
  destruct (_ && _); simpl.
  2:{ intros [= <- <-]. rewrite app_nil_r, !orb_false_r. repeat split; lia. }
  destruct (instance_method _ _) as [f|]; simpl.
  2:{ intros [= <- <-]. simpl. rewrite app_nil_r, !orb_false_r, orb_true_r.
      repeat split; lia. }
  intros (result & σ1 & Hcall & [= <- <-])%bind_Normal. simpl.
  unfold call_plugin_method in Hcall. rewrite bind_run in Hcall. simpl in Hcall.
  rewrite on_store_run in Hcall. simpl in Hcall.
  destruct (f args (store σ)) as [[v|e] h]; simplify_eq/=.
  rewrite push_guard_always, length_app, !orb_true_r. simpl. repeat split; done.
Qed.

Lemma invoke_target_Throw methodName args pluginMap name s σ e σ' :
  PluginManager.invoke_target methodName args pluginMap name s σ = (Throw e, σ') →
  from_plugin e = true ∧ this σ' = this σ ∧ subscriptions σ' = subscriptions σ.
Proof.
  unfold PluginManager.invoke_target.
  destruct (Map_get pluginMap name) as [plugin|]; [|done].
  destruct (_ && _); [|done].
  destruct (instance_method _ _) as [f|]; [|done].
  rewrite bind_run. unfold call_plugin_method. rewrite bind_run. simpl.
  rewrite on_store_run. simpl.
  destruct (f args (store σ)) as [[v|e'] h]; simpl; [done|].
  by intros [= <- <-].
Qed.

Lemma invoke_loop_Normal methodName args pluginMap names s σ s' σ' :
  for_of (PluginManager.invoke_target methodName args pluginMap) names s σ
  = (Normal s', σ') →
  this σ' = this σ ∧ subscriptions σ' = subscriptions σ
  ∧ trace σ' = trace σ ++ called methodName pluginMap args names
  ∧ length (loop_results s')
    = length (loop_results s) + length (called methodName pluginMap args names)
  ∧ loop_hasPlugin s' = loop_hasPlugin s || existsb (present pluginMap) names
  ∧ loop_hasMethod s'
    = loop_hasMethod s || bool_decide (called methodName pluginMap args names ≠ [])
  ∧ (called methodName pluginMap args names = [] → loop_result s' = loop_result s).
Proof.
  revert s σ. induction names as [|name names IH]; intros s σ Hrun; simpl in Hrun.
  - injection Hrun as <- <-. simpl. rewrite app_nil_r, !orb_false_r.
    repeat split; lia.
  - apply bind_Normal in Hrun as (s1 & σ1 & H1 & Hrun).
    apply invoke_target_Normal in H1 as (T1 & S1 & L1 & N1 & P1 & M1 & R1).
    apply IH in Hrun as (T2 & S2 & L2 & N2 & P2 & M2 & R2).
    rewrite (called_cons _ _ _ name names).
    split; [congruence|]. split; [congruence|].
    split; [by rewrite L2, L1, app_assoc|].
    split; [rewrite N2, N1, length_app; lia|].
    split; [rewrite P2, P1; simpl; by rewrite orb_assoc|].
    split.
    + rewrite M2, M1, <-orb_assoc. f_equal.
      destruct (called methodName pluginMap args [name]);
        destruct (called methodName pluginMap args names); done.
    + intros [H1 H2]%app_eq_nil. rewrite R2, R1; done.
Qed.

Lemma invoke_loop_Throw methodName args pluginMap names s σ e σ' :
  for_of (PluginManager.invoke_target methodName args pluginMap) names s σ
  = (Throw e, σ') →
  from_plugin e = true ∧ this σ' = this σ ∧ subscriptions σ' = subscriptions σ.
Proof.
  revert s σ. induction names as [|name names IH]; intros s σ; simpl; [done|].
  rewrite bind_run.
  destruct (PluginManager.invoke_target _ _ _ _ _ _) as [[s1|e1] σ1] eqn:H1.
  - apply invoke_target_Normal in H1 as (T1 & S1 & _).
    intros (? & ? & ?)%IH. repeat split; congruence.
  - intros [= <- <-]. by apply invoke_target_Throw in H1.
Qed.

(** No candidate present: the loop does nothing. *)
Lemma invoke_loop_absent methodName args pluginMap names s σ :
  existsb (present pluginMap) names = false →
  for_of (PluginManager.invoke_target methodName args pluginMap) names s σ
  = (Normal s, σ).
Proof.
  revert s σ. induction names as [|name names IH]; intros s σ; simpl; [done|].
  intros [H1 H2]%orb_false_elim. rewrite bind_run.
  unfold PluginManager.invoke_target at 1. unfold present in H1.
  destruct (Map_get pluginMap name) as [plugin|]; [rewrite H1|]; by apply IH.
Qed.

Lemma called_absent methodName pluginMap args names :
  existsb (present pluginMap) names = false → called methodName pluginMap args names = [].
Proof.
  induction names as [|name names IH]; [done|]. intros H. simpl in H.
  apply orb_false_elim in H as [H1 H2]. rewrite called_cons, IH by done.
  unfold called. simpl.
  destruct (target_of methodName pluginMap name) as [pf|] eqn:Hpf; [|done].
  apply target_of_present in Hpf. congruence.
Qed.

(** The loop part of both methods. *)
Lemma invoke_targets_loop methodName args pluginMap nameOrList σ :
  (∀ v, nameOrList ≠ NL_other v) → nameOrList ≠ NL_undefined →
  PluginManager.invoke_targets methodName args pluginMap nameOrList σ
  = for_of (PluginManager.invoke_target methodName args pluginMap)
           (candidates pluginMap nameOrList) PluginManager.invoke_start σ.
Proof.
  intros Hother Hundef. destruct nameOrList as [|name|names|v]; simpl; try done.
  rewrite bind_run.
    by destruct (PluginManager.invoke_target _ _ _ _ _ _) as [[s|e] σ'].
Qed.

Lemma ret_run {S A} (a : A) (σ : S) : mret (M := ST S) a σ = (Normal a, σ).
Proof. done. Qed.

Lemma throw_run {S A} e (σ : S) : throw (A := A) e σ = (Throw e, σ).
Proof. done. Qed.

Lemma invokeSync_run σ pluginMap nameOrList methodName args :
  _pluginMap (this σ) = Some pluginMap →
  (∀ v, nameOrList ≠ NL_other v) →
  PluginManager.invokeSync nameOrList (VStr methodName) args σ
  = (s ← for_of (PluginManager.invoke_target methodName args pluginMap)
               (candidates pluginMap nameOrList) PluginManager.invoke_start;
     if throwNoPlugin (_options (this σ)) && negb (loop_hasPlugin s)
     then throw NoPluginError
     else if throwNoMethod (_options (this σ)) && negb (loop_hasMethod s)
     then throw (NoMethodError methodName)
     else mret (if bool_decide (1 < length (loop_results s))
                then Many (loop_results s)
                else One (loop_result s))) σ.
Proof.
  intros Hm Hother.
  unfold PluginManager.invokeSync, PluginManager.default_nameOrList, get_this.
  rewrite bind_run. cbv beta iota. rewrite Hm.
  destruct nameOrList as [|name|names|v]; [| | |by destruct (Hother v)];
    rewrite bind_run, ?ret_run; cbv beta iota; rewrite ?Hm; try done.
  simpl. rewrite !bind_run.
  by destruct (PluginManager.invoke_target _ _ _ _ _ _) as [[s|e] σ'].
Qed.

Lemma invoke_loop_uncalled methodName args pluginMap names s σ :
  called methodName pluginMap args names = [] →
  ∃ s', for_of (PluginManager.invoke_target methodName args pluginMap) names s σ
        = (Normal s', σ).
Proof.
  revert s. induction names as [|name names IH]; intros s Hc; simpl; [by eexists|].
  rewrite called_cons in Hc. apply app_eq_nil in Hc as [H1 H2].
  rewrite bind_run. unfold PluginManager.invoke_target at 1.
  unfold called, target_of in H1. simpl in H1.
  destruct (Map_get pluginMap name) as [plugin|]; [|by apply IH].
  destruct (_ && _); [|by apply IH].
  destruct (instance_method _ _) as [f|]; [done|]. by apply IH.
Qed.

Lemma invokeSync_calls σ pluginMap nameOrList methodName args r σ' :
  _pluginMap (this σ) = Some pluginMap →
  PluginManager.invokeSync nameOrList (VStr methodName) args σ = (Normal r, σ') →
  this σ' = this σ
  ∧ trace σ' = trace σ
               ++ called methodName pluginMap args (candidates pluginMap nameOrList).
Proof.
  intros Hm Hrun.
  assert (∀ v, nameOrList ≠ NL_other v) as Hother.
  { intros v ->. unfold PluginManager.invokeSync, get_this in Hrun.
    rewrite bind_run in Hrun. simpl in Hrun. by rewrite Hm in Hrun. }
  rewrite (invokeSync_run _ pluginMap) in Hrun by done.
  apply bind_Normal in Hrun as (s & σ1 & Hloop & Hrun).
  apply invoke_loop_Normal in Hloop as (T & _ & L & _).
  destruct (_ && _) in Hrun; [done|]. destruct (_ && _) in Hrun; [done|].
  injection Hrun as <- <-. done.
Qed.

Lemma invokeSync_shape σ pluginMap nameOrList methodName args r σ' :
  _pluginMap (this σ) = Some pluginMap →
  PluginManager.invokeSync nameOrList (VStr methodName) args σ = (Normal r, σ') →
  let calls := called methodName pluginMap args (candidates pluginMap nameOrList) in
  match r with
  | Many results => length results = length calls ∧ (2 ≤ length calls)%nat
  | One result => (length calls ≤ 1)%nat ∧ (calls = [] → result = VUndefined)
  end.
Proof.
  intros Hm Hrun.
  assert (∀ v, nameOrList ≠ NL_other v) as Hother.
  { intros v ->. unfold PluginManager.invokeSync, get_this in Hrun.
    rewrite bind_run in Hrun. simpl in Hrun. by rewrite Hm in Hrun. }
  rewrite (invokeSync_run _ pluginMap) in Hrun by done.
  apply bind_Normal in Hrun as (s & σ1 & Hloop & Hrun).
  apply invoke_loop_Normal in Hloop as (_ & _ & _ & N & _ & _ & R).
  destruct (_ && _) in Hrun; [done|]. destruct (_ && _) in Hrun; [done|].
  injection Hrun as <- <-. simpl in *.
  case_bool_decide; simpl; [lia|]. split; [lia|]. exact R.
Qed.

Lemma invokeSync_policy σ pluginMap nameOrList methodName args r σ' :
  _pluginMap (this σ) = Some pluginMap →
  (∀ v, nameOrList ≠ NL_other v) →
  PluginManager.invokeSync nameOrList (VStr methodName) args σ = (r, σ') →
  let names := candidates pluginMap nameOrList in
  let noPlugin := throwNoPlugin (_options (this σ))
                  && negb (existsb (present pluginMap) names) in
  let noMethod := throwNoMethod (_options (this σ))
                  && bool_decide (called methodName pluginMap args names = []) in
  (r = Throw NoPluginError ↔ noPlugin = true)
  ∧ (r = Throw (NoMethodError methodName) ↔ noPlugin = false ∧ noMethod = true)
  ∧ (noPlugin = true ∨ noMethod = true → σ' = σ).
Proof.
  intros Hm Hother Hrun names noPlugin noMethod.
  rewrite (invokeSync_run _ pluginMap) in Hrun by done. fold names in Hrun.
  rewrite bind_run in Hrun.
  destruct (for_of _ names _ σ) as [[s|e] σ1] eqn:Hloop.
  - pose proof Hloop as Hloop'.
    apply invoke_loop_Normal in Hloop as (_ & _ & _ & _ & P & M & _).
    simpl in P, M. rewrite P, M in Hrun.
    assert (called methodName pluginMap args names = [] → σ1 = σ) as Hsame.
    { intros Hc. destruct (invoke_loop_uncalled methodName args pluginMap names
                             PluginManager.invoke_start σ Hc) as [s2 H2].
      fold names in Hloop'. congruence. }
    assert (existsb (present pluginMap) names = false →
            called methodName pluginMap args names = []) as Habs
      by apply called_absent.
    subst noPlugin noMethod.
    destruct (throwNoPlugin _), (throwNoMethod _),
      (existsb (present pluginMap) names) eqn:Hp,
      (called methodName pluginMap args names) eqn:Hc;
      simpl in *; rewrite ?throw_run, ?ret_run in Hrun; injection Hrun as <- <-;
      try (specialize (Habs eq_refl); discriminate);
      repeat split; try done; try (by intros [? ?]);
      try (intros [?|?]; by try apply Hsame); intros; by try apply Hsame.
  - injection Hrun as <- <-. pose proof Hloop as Hloop'.
    apply invoke_loop_Throw in Hloop as (He & _).
    assert (existsb (present pluginMap) names = true
            ∧ called methodName pluginMap args names ≠ []) as [Hp Hc].
    { destruct (called methodName pluginMap args names) eqn:Hc.
      - destruct (invoke_loop_uncalled methodName args pluginMap names
                    PluginManager.invoke_start σ Hc) as [s2 H2].
        fold names in Hloop'. congruence.
      - split; [|done].
        destruct (existsb (present pluginMap) names) eqn:Hp; [done|].
        apply (called_absent methodName _ args) in Hp. congruence. }
    subst noPlugin noMethod. rewrite Hp. simpl. rewrite andb_false_r.
    rewrite bool_decide_eq_false_2 by done. rewrite andb_false_r.
    destruct e; simpl in He; try done.
    repeat split; try done; try (by intros [? ?]); intros [?|?]; done.
Qed.

(** X1. [invokeSync], when it returns, has called the method once for each
    candidate name, in the order of the candidates (the given name, the
    given names, or all registered names in registration order), that is
    registered, enabled and whose instance has the method, with the given
    arguments, and no other; a name given twice is called twice.  The
    manager object is as it was. *)
Theorem invokeSync_calls_the_targets_in_order σ pluginMap nameOrList methodName args r σ' :
  _pluginMap (this σ) = Some pluginMap →
  PluginManager.invokeSync nameOrList (VStr methodName) args σ = (Normal r, σ') →
  this σ' = this σ
  ∧ trace σ' = trace σ
               ++ called methodName pluginMap args (candidates pluginMap nameOrList).
Proof. apply invokeSync_calls. Qed.

Lemma invokeSync_calls_the_targets_in_order_witness :
  let σ := (PluginManager.enablePlugin (VStr "A") (VBool false) two_adders).2 in
  ∃ r σ',
    PluginManager.invokeSync (NL_iterable [VStr "B"; VStr "A"; VStr "C"; VStr "B"])
      (VStr "test") [VNum 1; VNum 2] σ = (Normal r, σ')
    ∧ trace σ' = trace σ ++ [Call "B" "test" [VNum 1; VNum 2];
                             Call "B" "test" [VNum 1; VNum 2]].
Proof.
  intros σ.
  destruct (PluginManager.invokeSync
              (NL_iterable [VStr "B"; VStr "A"; VStr "C"; VStr "B"])
              (VStr "test") [VNum 1; VNum 2] σ) as [r σ'] eqn:Hrun.
  assert (r = (PluginManager.invokeSync
                 (NL_iterable [VStr "B"; VStr "A"; VStr "C"; VStr "B"])
                 (VStr "test") [VNum 1; VNum 2] σ).1) as Hr by (by rewrite Hrun).
  vm_compute in Hr. subst r. eexists _, σ'. split; [done|].
  pose (eA := PluginEntry.set_enabled false
                (PluginEntry.constructor "A" "instance" (single "test" (add3 3))
                   VUndefined VUndefined)).
  pose (eB := PluginEntry.constructor "B" "instance" (single "test" (add3 3))
                VUndefined VUndefined).
  assert (_pluginMap (this σ) = Some [("A", eA); ("B", eB)]) as Hm by reflexivity.
  destruct (invokeSync_calls_the_targets_in_order σ [("A", eA); ("B", eB)]
              (NL_iterable [VStr "B"; VStr "A"; VStr "C"; VStr "B"]) "test"
              [VNum 1; VNum 2] _ σ' Hm Hrun) as [_ Htrace].
  exact Htrace.
Defined.

(** X2. What [invokeSync] returns: with two or more calls made, an array
    with one element per call; with one call or none, a single value, which
    is [undefined] when no call was made. *)
Theorem invokeSync_returns_one_result_per_call σ pluginMap nameOrList methodName args r σ' :
  _pluginMap (this σ) = Some pluginMap →
  PluginManager.invokeSync nameOrList (VStr methodName) args σ = (Normal r, σ') →
  let calls := called methodName pluginMap args (candidates pluginMap nameOrList) in
  match r with
  | Many results => length results = length calls ∧ (2 ≤ length calls)%nat
  | One result => (length calls ≤ 1)%nat ∧ (calls = [] → result = VUndefined)
  end.
Proof. apply invokeSync_shape. Qed.

Lemma invokeSync_returns_one_result_per_call_witness :
  ∃ σ',
    PluginManager.invokeSync NL_undefined (VStr "test") [VNum 1; VNum 2] two_adders
    = (Normal (Many [VNum 6; VNum 6]), σ')
    ∧ length [VNum 6; VNum 6]
      = length (called "test"
                  [("A", PluginEntry.constructor "A" "instance" (single "test" (add3 3))
                           VUndefined VUndefined);
                   ("B", PluginEntry.constructor "B" "instance" (single "test" (add3 3))
                           VUndefined VUndefined)]
                  [VNum 1; VNum 2] [VStr "A"; VStr "B"]).
Proof.
  destruct (PluginManager.invokeSync NL_undefined (VStr "test") [VNum 1; VNum 2]
              two_adders) as [r σ'] eqn:Hrun.
  assert (r = (PluginManager.invokeSync NL_undefined (VStr "test")
                 [VNum 1; VNum 2] two_adders).1) as Hr by (by rewrite Hrun).
  vm_compute in Hr. subst r. exists σ'. split; [done|].
  pose (eA := PluginEntry.constructor "A" "instance" (single "test" (add3 3))
                VUndefined VUndefined).
  pose (eB := PluginEntry.constructor "B" "instance" (single "test" (add3 3))
                VUndefined VUndefined).
  assert (_pluginMap (this two_adders) = Some [("A", eA); ("B", eB)]) as Hm
    by reflexivity.
  exact (proj1 (invokeSync_returns_one_result_per_call two_adders
                  [("A", eA); ("B", eB)] NL_undefined
                  "test" [VNum 1; VNum 2] _ σ' Hm Hrun)).
Defined.

(** X3. The error policy of [invokeSync], for a manager that is not
    destroyed and a [nameOrList] that is a string, an iterable or omitted:
    it throws the no-plugin error exactly when [throwNoPlugin] is set and no
    candidate is registered, enabled and has an instance that is not
    [null] (a disabled plugin counts as none); it throws the no-method
    error exactly when that is not the case, [throwNoMethod] is set and no
    candidate has the method to call; and in both cases nothing has been
    called and the state is as it was. *)
Theorem invokeSync_error_policy σ pluginMap nameOrList methodName args r σ' :
  _pluginMap (this σ) = Some pluginMap →
  (∀ v, nameOrList ≠ NL_other v) →
  PluginManager.invokeSync nameOrList (VStr methodName) args σ = (r, σ') →
  let names := candidates pluginMap nameOrList in
  let noPlugin := throwNoPlugin (_options (this σ))
                  && negb (existsb (present pluginMap) names) in
  let noMethod := throwNoMethod (_options (this σ))
                  && bool_decide (called methodName pluginMap args names = []) in
  (r = Throw NoPluginError ↔ noPlugin = true)
  ∧ (r = Throw (NoMethodError methodName) ↔ noPlugin = false ∧ noMethod = true)
  ∧ (noPlugin = true ∨ noMethod = true → σ' = σ).
Proof. apply invokeSync_policy. Qed.

Lemma invokeSync_error_policy_witness :
  PluginManager.invokeSync NL_undefined (VStr "test") [] strict_disabled
  = (Throw NoPluginError, strict_disabled).
Proof.
  destruct (PluginManager.invokeSync NL_undefined (VStr "test") [] strict_disabled)
    as [r σ'] eqn:Hrun.
  pose (eA := PluginEntry.set_enabled false
                (PluginEntry.constructor "A" "instance" counter VUndefined VUndefined)).
  assert (_pluginMap (this strict_disabled) = Some [("A", eA)]) as Hm by reflexivity.
  destruct (invokeSync_error_policy strict_disabled [("A", eA)] NL_undefined "test"
              [] r σ' Hm) as (Hplugin & _ & Hsame); [done|exact Hrun|].
  rewrite (proj2 Hplugin) by reflexivity.
  rewrite Hsame; [done|]. left. reflexivity.
Defined.

(** The same for the loop of the event dispatcher. *)
Lemma event_target_calls methodName ev pluginMap name s σ s' σ' :
  s_INVOKE_SYNC_EVENTS_target methodName ev (Some pluginMap) name s σ = (Normal s', σ') →
  trace σ' = trace σ ++ called methodName pluginMap [ev] [name].
Proof.
  unfold s_INVOKE_SYNC_EVENTS_target, called, target_of. simpl.
  destruct (Map_get pluginMap name) as [plugin|]; simpl;
    [|intros [= <- <-]; by rewrite app_nil_r].
  destruct (_ && _); simpl; [|intros [= <- <-]; by rewrite app_nil_r].
  destruct (instance_method _ _) as [f|]; simpl;
    [|intros [= <- <-]; by rewrite app_nil_r].
  intros (u1 & σ1 & H1 & Hrun)%bind_Normal.
  apply bind_Normal in Hrun as (u2 & σ2 & H2 & Hrun).
  apply bind_Normal in Hrun as (u3 & σ3 & H3 & Hrun).
  apply bind_Normal in Hrun as (v & σ4 & H4 & [= <- <-]).
  assert (trace σ3 = trace σ) as Htrace3.
  { unfold write_prop in *.
    pose proof (keeps_trace_on_store (assign ev "eventbus" (PluginEntry.eventProxy plugin)) σ) as T1.
    pose proof (keeps_trace_on_store (assign ev "pluginName" (VStr (PluginEntry.name plugin))) σ1) as T2.
    pose proof (keeps_trace_on_store (assign ev "pluginOptions" (PluginEntry.options plugin)) σ2) as T3.
    rewrite H1 in T1. rewrite H2 in T2. rewrite H3 in T3. simpl in *. congruence. }
  unfold call_plugin_method in H4. rewrite bind_run in H4. simpl in H4.
  rewrite on_store_run in H4. simpl in H4.
  destruct (f [ev] (store σ3)) as [[r|e] h]; simplify_eq/=. by rewrite Htrace3.
Qed.

Lemma event_loop_calls methodName ev pluginMap names s σ s' σ' :
  for_of (s_INVOKE_SYNC_EVENTS_target methodName ev (Some pluginMap)) names s σ
  = (Normal s', σ') →
  trace σ' = trace σ ++ called methodName pluginMap [ev] names.
Proof.
  revert s σ. induction names as [|name names IH]; intros s σ Hrun; simpl in Hrun.
  - injection Hrun as <- <-. by rewrite app_nil_r.
  - apply bind_Normal in Hrun as (s1 & σ1 & H1 & Hrun).
    apply event_target_calls in H1. apply IH in Hrun.
    by rewrite (called_cons _ _ _ name names), Hrun, H1, app_assoc.
Qed.

Lemma called_args methodName pluginMap args args' names :
  called methodName pluginMap args names
  = (λ c, Call (call_plugin c) (call_method c) args)
      <$> called methodName pluginMap args' names.
Proof.
  induction names as [|name names IH]; [done|].
  rewrite (called_cons _ _ args), (called_cons _ _ args'), fmap_app, IH. f_equal.
  unfold called. simpl. by destruct (target_of _ _ _).
Qed.

Lemma s_INVOKE_SYNC_EVENTS_calls methodName copyProps passthruProps nameOrList
    pluginMap options performErrorCheck σ payload σ' :
  s_INVOKE_SYNC_EVENTS (VStr methodName) copyProps passthruProps nameOrList
    (Some pluginMap) options performErrorCheck σ = (Normal payload, σ') →
  nameOrList ≠ NL_undefined ∧
  ∃ ev, trace σ' = trace σ
                   ++ called methodName pluginMap [ev] (candidates pluginMap nameOrList).
Proof.
  unfold s_INVOKE_SYNC_EVENTS.
  intros (c & σ1 & H1 & Hrun)%bind_Normal.
  apply bind_Normal in Hrun as (p & σ2 & H2 & Hrun).
  apply default_object_Normal in H1 as [D1 T1].
  apply default_object_Normal in H2 as [D2 T2].
  destruct (negb _) in Hrun; [done|]. destruct (negb _) in Hrun; [done|].
  destruct nameOrList as [|name|names|?]; try done.
  all: split; [done|].
  all: apply bind_Normal in Hrun as (ev & σ3 & H3 & Hrun).
  all: apply bind_Normal in Hrun as (s & σ4 & H4 & Hrun).
  all: destruct (_ && _) in Hrun; [done|].
  all: destruct (_ && _) in Hrun; [done|].
  all: apply metadata_attached in Hrun as (T5 & _).
  all: pose proof (keeps_trace_PluginEvent c p σ2) as T3; rewrite H3 in T3.
  all: exists ev; simpl in T3; rewrite T5, <-T1, <-T2, <-T3.
  - by apply event_target_calls in H4.
  - by apply event_loop_calls in H4.
Qed.

Lemma invokeSyncEvent_names σ pluginMap methodName copyProps passthruProps
    nameOrList payload σ' :
  _pluginMap (this σ) = Some pluginMap →
  PluginManager.invokeSyncEvent (VStr methodName) copyProps passthruProps
    nameOrList σ = (Normal payload, σ') →
  ∃ e, (e ∉ dom (store σ))
    ∧ let calls := called methodName pluginMap [VRef e]
                     (candidates pluginMap nameOrList) in
      trace σ' = trace σ ++ calls
      ∧ ∀ d, payload = VRef d →
          (load payload "$$plugin_invoke_count" (store σ')).1
          = Normal (VNum (Z.of_nat (length calls)))
          ∧ ∃ n, (load payload "$$plugin_invoke_names" (store σ')).1 = Normal (VRef n)
                 ∧ store σ' !! n = Some (array (VStr <$> (call_plugin <$> calls))).
Proof.
  intros Hm Hrun.
  destruct (invokeSyncEvent_one_envelope _ _ _ _ _ _ _ Hrun)
    as (e & calls & He & Htrace & Hcalls & _ & Hmeta).
  exists e. split; [done|].
  assert (∃ ev, trace σ' = trace σ
                           ++ called methodName pluginMap [ev]
                                (candidates pluginMap nameOrList)) as [ev Hexact].
  { unfold PluginManager.invokeSyncEvent in Hrun.
    apply bind_Normal in Hrun as (m & σ0 & H0 & Hrun).
    unfold get_this in H0. injection H0 as <- <-.
    apply bind_Normal in Hrun as (c & σ1 & H1 & Hrun).
    apply bind_Normal in Hrun as (p & σ2 & H2 & Hrun).
    apply bind_Normal in Hrun as (nl & σ3 & H3 & Hrun).
    apply default_object_Normal in H1 as [D1 T1].
    apply default_object_Normal in H2 as [D2 T2].
    rewrite Hm in Hrun.
    apply s_INVOKE_SYNC_EVENTS_calls in Hrun as (Hnl & ev & Hrun).
    exists ev. rewrite Hrun.
    unfold PluginManager.default_nameOrList in H3. rewrite Hm in H3.
    destruct nameOrList; injection H3 as <- <-; rewrite <-?T1, <-?T2; done. }
  assert (calls = called methodName pluginMap [VRef e]
                    (candidates pluginMap nameOrList)) as <-; [|done].
  rewrite Htrace in Hexact. apply app_inv_head in Hexact.
  rewrite (called_args _ _ [VRef e] [ev]), <-Hexact.
  clear -Hcalls. induction Hcalls as [|[p m a] calls [Hm Ha] _ IH]; [done|].
  simpl in *. rewrite Ha. f_equal. exact IH.
Qed.

(** X4. [invokeSyncEvent], when it returns, has called the method once
    for each candidate that is registered, enabled and has the method, in
    candidate order, each time with the one new envelope; an object payload
    carries their number as [$$plugin_invoke_count] and their names, in
    that order, as [$$plugin_invoke_names]. *)
Theorem invokeSyncEvent_names_the_targets σ pluginMap methodName copyProps
    passthruProps nameOrList payload σ' :
  _pluginMap (this σ) = Some pluginMap →
  PluginManager.invokeSyncEvent (VStr methodName) copyProps passthruProps
    nameOrList σ = (Normal payload, σ') →
  ∃ e, (e ∉ dom (store σ))
    ∧ let calls := called methodName pluginMap [VRef e]
                     (candidates pluginMap nameOrList) in
      trace σ' = trace σ ++ calls
      ∧ ∀ d, payload = VRef d →
          (load payload "$$plugin_invoke_count" (store σ')).1
          = Normal (VNum (Z.of_nat (length calls)))
          ∧ ∃ n, (load payload "$$plugin_invoke_names" (store σ')).1 = Normal (VRef n)
                 ∧ store σ' !! n = Some (array (VStr <$> (call_plugin <$> calls))).
Proof. apply invokeSyncEvent_names. Qed.

Lemma invokeSyncEvent_names_the_targets_witness :
  ∃ payload σ' e,
    PluginManager.invokeSyncEvent (VStr "test") (VRef 10) VUndefined
      (NL_iterable [VStr "B"; VStr "X"; VStr "A"]) counters_with_data
    = (Normal payload, σ')
    ∧ trace σ' = trace counters_with_data
                 ++ [Call "B" "test" [VRef e]; Call "A" "test" [VRef e]].
Proof.
  destruct (PluginManager.invokeSyncEvent (VStr "test") (VRef 10) VUndefined
              (NL_iterable [VStr "B"; VStr "X"; VStr "A"]) counters_with_data)
    as [r σ'] eqn:Hrun.
  assert (r = (PluginManager.invokeSyncEvent (VStr "test") (VRef 10) VUndefined
                 (NL_iterable [VStr "B"; VStr "X"; VStr "A"])
                 counters_with_data).1) as Hr by (by rewrite Hrun).
  vm_compute in Hr. subst r.
  pose (eA := PluginEntry.constructor "A" "instance" counter VUndefined VUndefined).
  pose (eB := PluginEntry.constructor "B" "instance" counter VUndefined VUndefined).
  assert (_pluginMap (this counters_with_data) = Some [("A", eA); ("B", eB)]) as Hm
    by reflexivity.
  destruct (invokeSyncEvent_names_the_targets counters_with_data
              [("A", eA); ("B", eB)] "test" (VRef 10) VUndefined
              (NL_iterable [VStr "B"; VStr "X"; VStr "A"]) _ σ' Hm Hrun)
    as (e & _ & Htrace & _).
  eexists _, σ', e. split; [done|]. exact Htrace.
Defined.

(** ** The registry *)

Lemma assoc_Map_set_ne {V} (k k' : string) (v : V) m :
  k' ≠ k → assoc k' (Map_set k v m) = assoc k' m.
Proof.
  intros Hne. induction m as [|[k0 v0] m IH]; simpl.
  - by rewrite bool_decide_eq_false_2.
  - destruct (decide (k0 = k)) as [->|H0].
    + rewrite bool_decide_eq_true_2 by done. simpl.
      by rewrite !bool_decide_eq_false_2.
    + rewrite (bool_decide_eq_false_2 (k0 = k)) by done. simpl.
      case_bool_decide; [done|]. exact IH.
Qed.

Lemma Map_keys_set {V} (k : string) (v : V) m :
  Map_keys (Map_set k v m)
  = if bool_decide (k ∈ Map_keys m) then Map_keys m else Map_keys m ++ [k].
Proof.
  induction m as [|[k0 v0] m IH]; [done|]. cbn [Map_set].
  change (Map_keys ((k0, v0) :: m)) with (k0 :: Map_keys m).
  destruct (decide (k0 = k)) as [->|H0].
  - rewrite bool_decide_eq_true_2 by done.
    rewrite bool_decide_eq_true_2; [done|left].
  - rewrite (bool_decide_eq_false_2 (k0 = k)) by done.
    change (Map_keys ((k0, v0) :: Map_set k v m)) with (k0 :: Map_keys (Map_set k v m)).
    rewrite IH. destruct (decide (k ∈ Map_keys m)) as [H1|H1].
    + rewrite !bool_decide_eq_true_2; [done|by right|done].
    + rewrite !bool_decide_eq_false_2; [done| |done].
      intros [?|?]%elem_of_cons; [by subst|done].
Qed.

Lemma assoc_None_keys {V} k (m : list (string * V)) :
  assoc k m = None ↔ k ∉ Map_keys m.
Proof.
  unfold Map_keys. induction m as [|[k0 v0] m IH]; simpl.
  - split; [intros _ ?%elem_of_nil; done|done].
  - case_bool_decide as H0.
    + subst. split; [done|]. intros H. destruct H. left.
    + rewrite IH. split.
      * intros H [?|?]%elem_of_cons; [by subst|done].
      * intros H ?. apply H. by right.
Qed.

Lemma Map_has_keys {V} (m : list (string * V)) k :
  Map_has m (VStr k) = bool_decide (k ∈ Map_keys m).
Proof.
  unfold Map_has. simpl. destruct (assoc k m) as [v|] eqn:Hk.
  - rewrite bool_decide_eq_true_2 by eauto.
    symmetry. apply bool_decide_eq_true_2. by eapply assoc_Some_keys.
  - rewrite bool_decide_eq_false_2 by (by intros [? ?]).
    symmetry. apply bool_decide_eq_false_2. by apply assoc_None_keys.
Qed.

Lemma assoc_delete_eq {V} k (m : list (string * V)) :
  assoc k (Map_delete (VStr k) m) = None.
Proof.
  simpl. induction m as [|[k0 v0] m IH]; [done|].
  rewrite filter_cons. simpl. case_decide as H0; simpl; [|done].
  by rewrite bool_decide_eq_false_2.
Qed.

Lemma assoc_delete_ne {V} k k' (m : list (string * V)) :
  k' ≠ k → assoc k' (Map_delete (VStr k) m) = assoc k' m.
Proof.
  intros Hne. simpl. induction m as [|[k0 v0] m IH]; [done|].
  rewrite filter_cons. simpl. case_decide as H0; simpl.
  - by rewrite IH.
  - assert (k0 = k) as -> by (by destruct (decide (k0 = k))).
    by rewrite bool_decide_eq_false_2.
Qed.

Lemma Map_keys_delete {V} k (m : list (string * V)) :
  Map_keys (Map_delete (VStr k) m) = filter (λ k', k' ≠ k) (Map_keys m).
Proof.
  unfold Map_keys, Map_delete. induction m as [|[k0 v0] m IH]; [done|].
  rewrite fmap_cons, !filter_cons. cbn [fst].
  destruct (decide (k0 ≠ k)); [rewrite fmap_cons|]; by rewrite IH.
Qed.

Lemma assoc_Map_alter_ne {V} (f : V → V) k k' (m : list (string * V)) :
  k' ≠ k → assoc k' (Map_alter f k m) = assoc k' m.
Proof.
  intros Hne. induction m as [|[k0 v0] m IH]; simpl; [done|].
  destruct (decide (k0 = k)) as [->|H0].
  - rewrite bool_decide_eq_true_2 by done. simpl.
    by rewrite !bool_decide_eq_false_2.
  - rewrite (bool_decide_eq_false_2 (k0 = k)) by done. simpl.
    case_bool_decide; [done|]. exact IH.
Qed.

Lemma keeps_subscriptions_ret {A} (a : A) : keeps_subscriptions (mret a).
Proof. done. Qed.

Lemma keeps_subscriptions_throw {A} e : keeps_subscriptions (throw (A := A) e).
Proof. done. Qed.

Lemma keeps_subscriptions_bind {A B} (c : M A) (f : A → M B) :
  keeps_subscriptions c → (∀ a, keeps_subscriptions (f a)) →
  keeps_subscriptions (c ≫= f).
Proof.
  intros Hc Hf σ. rewrite bind_run.
  specialize (Hc σ). destruct (c σ) as [[a|e] σ']; simpl in *; [|done].
  by rewrite Hf.
Qed.

Lemma keeps_subscriptions_on_store {A} (f : ST heap A) :
  keeps_subscriptions (on_store f).
Proof. intros σ. by rewrite on_store_run. Qed.

Lemma keeps_subscriptions_for_of {A T} (body : A → T → M T) xs s :
  (∀ x s, keeps_subscriptions (body x s)) → keeps_subscriptions (for_of body xs s).
Proof.
  intros Hbody. revert s. induction xs as [|x xs IH]; intros s; simpl.
  - apply keeps_subscriptions_ret.
  - apply keeps_subscriptions_bind; auto.
Qed.

Ltac keeps_subscriptions :=
  repeat first
    [ simple apply keeps_subscriptions_ret
    | simple apply keeps_subscriptions_throw
    | simple apply keeps_subscriptions_on_store
    | simple apply keeps_subscriptions_for_of; intros
    | simple apply keeps_subscriptions_bind; [|intros]
    | match goal with
      | |- keeps_subscriptions (match ?x with _ => _ end) => destruct x
      | |- keeps_subscriptions (let '(_, _) := ?x in _) => destruct x
      end
    | solve [intros ?; reflexivity] ].

Lemma keeps_subscriptions_s_INVOKE_SYNC_EVENTS methodName copyProps passthruProps
    nameOrList pluginMap options performErrorCheck :
  keeps_subscriptions (s_INVOKE_SYNC_EVENTS methodName copyProps passthruProps
                         nameOrList pluginMap options performErrorCheck).
Proof.
  unfold s_INVOKE_SYNC_EVENTS, s_INVOKE_SYNC_EVENTS_target, PluginEvent.constructor,
    call_plugin_method, new_cell, read_prop, write_prop.
  keeps_subscriptions.
Qed.

(** What a dispatch of the event protocol leaves as it was, whatever its
    outcome. *)
Lemma dispatch_keeps methodName copyProps passthruProps nameOrList pluginMap options
    performErrorCheck σ :
  let σ' := (s_INVOKE_SYNC_EVENTS methodName copyProps passthruProps nameOrList
               pluginMap options performErrorCheck σ).2 in
  this σ' = this σ ∧ subscriptions σ' = subscriptions σ.
Proof.
  split.
  - apply keeps_this_s_INVOKE_SYNC_EVENTS.
  - apply keeps_subscriptions_s_INVOKE_SYNC_EVENTS.
Qed.

Lemma new_cell_run c σ :
  new_cell c σ = (Normal (VRef (fresh (dom (store σ)))),
                  with_store (<[fresh (dom (store σ)) := c]> (store σ)) σ).
Proof. unfold new_cell. by rewrite on_store_run. Qed.

(** The end of [add]: the entry is stored, then [onPluginLoad] is
    dispatched to it. *)
Lemma add_tail name entry pluginMap σ r σ' :
  (set_this (PluginManager.with_pluginMap
               (Some (Map_set name entry pluginMap)) (this σ));;
   copyProps ← new_cell (plain ∅);
   passthruProps ← new_cell (plain ∅);
   m ← get_this;
   s_INVOKE_SYNC_EVENTS (VStr "onPluginLoad") copyProps passthruProps
     (NL_string name) (_pluginMap m) (_options m) false;;
   mret tt) σ = (r, σ') →
  this σ' = PluginManager.with_pluginMap (Some (Map_set name entry pluginMap)) (this σ)
  ∧ subscriptions σ' = subscriptions σ
  ∧ (r = Normal tt →
     ∃ ev, trace σ' = trace σ
                      ++ called "onPluginLoad" (Map_set name entry pluginMap)
                           [ev] [VStr name]).
Proof.
  rewrite bind_run. unfold set_this at 1. cbv beta iota.
  set (σ1 := {| this := _ |}).
  rewrite bind_run, new_cell_run. cbv beta iota.
  rewrite bind_run, new_cell_run. cbv beta iota.
  rewrite bind_run. unfold get_this. cbv beta iota.
  rewrite bind_run.
  match goal with
  | |- context [s_INVOKE_SYNC_EVENTS ?a ?b ?c ?d ?e ?f ?g ?s] =>
      pose proof (dispatch_keeps a b c d e f g s) as [Kthis Ksubs];
      destruct (s_INVOKE_SYNC_EVENTS a b c d e f g s) as [[payload|e0] σ2] eqn:Hrun
  end; simpl in Kthis, Ksubs.
  - intros [= <- <-]. split; [done|]. split; [done|]. intros _.
    apply s_INVOKE_SYNC_EVENTS_calls in Hrun as (_ & ev & Hrun).
    exists ev. exact Hrun.
  - intros [= <- <-]. done.
Qed.

(** [add], once the manager is known not to be destroyed: either the
    configuration is refused or the module is not found, and nothing has
    changed; or the entry has been stored, and [onPluginLoad] dispatched to
    it. *)
Lemma add_inv cfg σ pluginMap r σ' :
  _pluginMap (this σ) = Some pluginMap →
  PluginManager.add (Some cfg) σ = (r, σ') →
  (σ' = σ ∧ ∃ e, r = Throw e ∧ from_plugin e = false)
  ∨ ∃ name entry,
      PluginConfig.name cfg = VStr name
      ∧ this σ'
        = PluginManager.with_pluginMap (Some (Map_set name entry pluginMap)) (this σ)
      ∧ subscriptions σ' = subscriptions σ
      ∧ PluginEntry.name entry = name
      ∧ PluginEntry.enabled entry = true
      ∧ PluginEntry.options entry = PluginConfig.options cfg
      ∧ (∀ i, PluginConfig.instance cfg = Some i → PluginEntry.instance entry = i)
      ∧ (r = Normal tt →
         ∃ ev, trace σ' = trace σ
                          ++ called "onPluginLoad" (Map_set name entry pluginMap)
                               [ev] [VStr name]).
Proof.
  intros Hm. unfold PluginManager.add, get_this. rewrite bind_run. cbv beta iota.
  rewrite Hm.
  destruct (PluginConfig.name cfg) as [| | | |name| | | |] eqn:Hname;
    try (intros [= <- <-]; left; split; [done|by eexists]).
  destruct (_ && _); [intros [= <- <-]; left; split; [done|by eexists]|].
  destruct (_ && _); [intros [= <- <-]; left; split; [done|by eexists]|].
  rewrite bind_run.
  destruct (PluginConfig.instance cfg) as [i|] eqn:Hi.
  - rewrite ret_run. cbv beta iota.
    intros (Hthis & Hsubs & Htrace)%add_tail. right. eexists name, _.
    split; [done|]. split; [exact Hthis|]. split; [done|]. split; [done|].
    split; [done|]. split; [done|]. split; [by intros ? [= <-]|]. exact Htrace.
  - cbv beta. destruct (modules σ _) as [inst|] eqn:Hmod.
    + intros (Hthis & Hsubs & Htrace)%add_tail. right. eexists name, _.
      split; [done|]. split; [exact Hthis|]. split; [done|]. split; [done|].
      split; [done|]. split; [done|]. split; [done|]. exact Htrace.
    + intros [= <- <-]. left. split; [done|by eexists].
Qed.

Lemma hasPlugin_run σ pluginMap name :
  _pluginMap (this σ) = Some pluginMap →
  PluginManager.hasPlugin (VStr name) σ
  = (Normal (bool_decide (name ∈ Map_keys pluginMap)), σ).
Proof.
  intros Hm. unfold PluginManager.hasPlugin, get_this. rewrite bind_run.
  cbv beta iota. rewrite Hm. simpl. by rewrite Map_has_keys.
Qed.

Lemma getPluginNames_run σ pluginMap :
  _pluginMap (this σ) = Some pluginMap →
  PluginManager.getPluginNames VUndefined σ = (Normal (Map_keys pluginMap), σ).
Proof.
  intros Hm. unfold PluginManager.getPluginNames, get_this. rewrite bind_run.
  cbv beta iota. by rewrite Hm.
Qed.

Lemma called_registered methodName name entry pluginMap ev :
  PluginEntry.enabled entry = true →
  called methodName (Map_set name entry pluginMap) [ev] [VStr name]
  = if bool_decide (is_Some (instance_method (PluginEntry.instance entry) methodName))
    then [Call (PluginEntry.name entry) methodName [ev]] else [].
Proof.
  intros Hen. unfold called, target_of. simpl. rewrite assoc_Map_set_eq, Hen.
  destruct (PluginEntry.instance entry) as [|member]; simpl; [done|].
  by destruct (member methodName) as [f|].
Qed.

(** X5. After [add] has returned, the name is registered:
    [hasPlugin(name)] is true, and [getPluginNames()] is what it was when
    the name was registered already, which keeps its place, and has the name
    added at the end when it was not; the entry under the name is enabled
    and holds the configuration's options; the entries under the other
    names are as they were. *)
Theorem add_registers cfg name σ pluginMap σ' :
  _pluginMap (this σ) = Some pluginMap →
  PluginConfig.name cfg = VStr name →
  PluginManager.add (Some cfg) σ = (Normal tt, σ') →
  PluginManager.hasPlugin (VStr name) σ' = (Normal true, σ')
  ∧ PluginManager.getPluginNames VUndefined σ'
    = (Normal (if bool_decide (name ∈ Map_keys pluginMap)
               then Map_keys pluginMap else Map_keys pluginMap ++ [name]), σ')
  ∧ ∃ pluginMap' entry,
      _pluginMap (this σ') = Some pluginMap'
      ∧ Map_get pluginMap' (VStr name) = Some entry
      ∧ PluginEntry.name entry = name
      ∧ PluginEntry.enabled entry = true
      ∧ PluginEntry.options entry = PluginConfig.options cfg
      ∧ ∀ k, k ≠ name → Map_get pluginMap' (VStr k) = Map_get pluginMap (VStr k).
Proof.
  intros Hm Hname Hrun.
  destruct (add_inv _ _ _ _ _ Hm Hrun)
    as [[_ (e & ? & _)]|(name' & entry & Hname' & Hthis & _ & Hn & Hen & Hopt & _)];
    [done|].
  assert (name' = name) as -> by congruence.
  assert (_pluginMap (this σ') = Some (Map_set name entry pluginMap)) as Hm'
    by (by rewrite Hthis).
  rewrite (hasPlugin_run _ _ _ Hm'), (getPluginNames_run _ _ Hm'), Map_keys_set.
  split; [|split; [done|]].
  - f_equal. f_equal. apply bool_decide_eq_true_2.
    case_bool_decide; [done|]. apply elem_of_app. right. left.
  - exists (Map_set name entry pluginMap), entry. split; [done|].
    split; [apply assoc_Map_set_eq|]. split; [done|]. split; [done|].
    split; [done|]. intros k Hk. simpl. by apply assoc_Map_set_ne.
Qed.

Lemma add_registers_witness :
  ∃ σ',
    PluginManager.add (Some (config_instance "A" counter)) two_adders = (Normal tt, σ')
    ∧ PluginManager.getPluginNames VUndefined σ' = (Normal ["A"; "B"], σ')
    ∧ PluginManager.hasPlugin (VStr "A") σ' = (Normal true, σ').
Proof.
  destruct (PluginManager.add (Some (config_instance "A" counter)) two_adders)
    as [r σ'] eqn:Hrun.
  assert (r = (PluginManager.add (Some (config_instance "A" counter)) two_adders).1)
    as Hr by (by rewrite Hrun).
  vm_compute in Hr. subst r. exists σ'. split; [done|].
  pose (eA := PluginEntry.constructor "A" "instance" (single "test" (add3 3))
                VUndefined VUndefined).
  pose (eB := PluginEntry.constructor "B" "instance" (single "test" (add3 3))
                VUndefined VUndefined).
  assert (_pluginMap (this two_adders) = Some [("A", eA); ("B", eB)]) as Hm
    by reflexivity.
  destruct (add_registers (config_instance "A" counter) "A" two_adders
              [("A", eA); ("B", eB)] σ' Hm eq_refl Hrun) as (Hhas & Hnames & _).
  split; [exact Hnames|exact Hhas].
Defined.

(** X6. [add] is not undone when [onPluginLoad] fails: when an exception
    leaves the plugin's [onPluginLoad], [add] throws it, and the plugin is
    registered nevertheless. *)
Theorem add_keeps_the_plugin_when_onPluginLoad_throws cfg σ pluginMap e σ' :
  _pluginMap (this σ) = Some pluginMap →
  PluginManager.add (Some cfg) σ = (Throw (Thrown e), σ') →
  ∃ name, PluginConfig.name cfg = VStr name
    ∧ PluginManager.hasPlugin (VStr name) σ' = (Normal true, σ').
Proof.
  intros Hm Hrun.
  destruct (add_inv _ _ _ _ _ Hm Hrun)
    as [[_ (e' & [= <-] & He)]|(name & entry & Hname & Hthis & _)]; [done|].
  exists name. split; [done|].
  assert (_pluginMap (this σ') = Some (Map_set name entry pluginMap)) as Hm'
    by (by rewrite Hthis).
  rewrite (hasPlugin_run _ _ _ Hm'). f_equal. f_equal.
  apply bool_decide_eq_true_2. rewrite Map_keys_set.
  case_bool_decide; [done|]. apply elem_of_app. right. left.
Qed.

Lemma add_keeps_the_plugin_when_onPluginLoad_throws_witness :
  ∃ σ',
    PluginManager.add (Some (config_instance "F" fragile)) two_adders
    = (Throw (Thrown (UserError (VStr "load"))), σ')
    ∧ PluginManager.hasPlugin (VStr "F") σ' = (Normal true, σ').
Proof.
  destruct (PluginManager.add (Some (config_instance "F" fragile)) two_adders)
    as [r σ'] eqn:Hrun.
  assert (r = (PluginManager.add (Some (config_instance "F" fragile)) two_adders).1)
    as Hr by (by rewrite Hrun).
  vm_compute in Hr. subst r. exists σ'. split; [done|].
  pose (eA := PluginEntry.constructor "A" "instance" (single "test" (add3 3))
                VUndefined VUndefined).
  pose (eB := PluginEntry.constructor "B" "instance" (single "test" (add3 3))
                VUndefined VUndefined).
  assert (_pluginMap (this two_adders) = Some [("A", eA); ("B", eB)]) as Hm
    by reflexivity.
  destruct (add_keeps_the_plugin_when_onPluginLoad_throws
              (config_instance "F" fragile) two_adders [("A", eA); ("B", eB)]
              _ σ' Hm Hrun) as (name & [= <-] & Hhas).
  exact Hhas.
Defined.

(** X7. [add], when it returns, has called one method at most: the
    [onPluginLoad] of the instance it stored (the configuration's, when it
    gives one), once, if the instance has one; the instance that was
    registered under the name before is not told. *)
Theorem add_calls_onPluginLoad_of_the_plugin_only cfg name σ pluginMap σ' :
  _pluginMap (this σ) = Some pluginMap →
  PluginConfig.name cfg = VStr name →
  PluginManager.add (Some cfg) σ = (Normal tt, σ') →
  ∃ pluginMap' entry ev,
    _pluginMap (this σ') = Some pluginMap'
    ∧ Map_get pluginMap' (VStr name) = Some entry
    ∧ (∀ i, PluginConfig.instance cfg = Some i → PluginEntry.instance entry = i)
    ∧ trace σ'
      = trace σ
        ++ if bool_decide (is_Some (instance_method (PluginEntry.instance entry)
                                      "onPluginLoad"))
           then [Call name "onPluginLoad" [ev]] else [].
Proof.
  intros Hm Hname Hrun.
  destruct (add_inv _ _ _ _ _ Hm Hrun)
    as [[_ (e & ? & _)]|(name' & entry & Hname' & Hthis & _ & Hn & Hen & _ & Hi & Ht)];
    [done|].
  assert (name' = name) as -> by congruence.
  destruct (Ht eq_refl) as [ev Htrace].
  exists (Map_set name entry pluginMap), entry, ev.
  split; [by rewrite Hthis|]. split; [apply assoc_Map_set_eq|]. split; [done|].
  by rewrite Htrace, called_registered, Hn.
Qed.

Lemma add_calls_onPluginLoad_of_the_plugin_only_witness :
  let loaded := single "onPluginLoad" (constant VUndefined) in
  ∃ σ' ev,
    PluginManager.add (Some (config_instance "A" loaded)) two_adders = (Normal tt, σ')
    ∧ trace σ' = trace two_adders ++ [Call "A" "onPluginLoad" [ev]].
Proof.
  intros loaded.
  destruct (PluginManager.add (Some (config_instance "A" loaded)) two_adders)
    as [r σ'] eqn:Hrun.
  assert (r = (PluginManager.add (Some (config_instance "A" loaded)) two_adders).1)
    as Hr by (by rewrite Hrun).
  vm_compute in Hr. subst r.
  pose (eA := PluginEntry.constructor "A" "instance" (single "test" (add3 3))
                VUndefined VUndefined).
  pose (eB := PluginEntry.constructor "B" "instance" (single "test" (add3 3))
                VUndefined VUndefined).
  assert (_pluginMap (this two_adders) = Some [("A", eA); ("B", eB)]) as Hm
    by reflexivity.
  destruct (add_calls_onPluginLoad_of_the_plugin_only (config_instance "A" loaded)
              "A" two_adders [("A", eA); ("B", eB)] σ' Hm eq_refl Hrun)
    as (pm' & entry & ev & _ & _ & Hinst & Htrace).
  exists σ', ev. split; [done|].
  rewrite (Hinst loaded eq_refl) in Htrace. exact Htrace.
Defined.

(** [remove] on a manager that is not destroyed. *)
Lemma remove_inv pluginName σ pluginMap r σ' :
  _pluginMap (this σ) = Some pluginMap →
  PluginManager.remove pluginName σ = (r, σ') →
  (Map_has pluginMap pluginName = false ∧ r = Normal false ∧ σ' = σ)
  ∨ ∃ name entry,
      pluginName = VStr name ∧ Map_get pluginMap pluginName = Some entry
      ∧ subscriptions σ' = subscriptions σ
      ∧ ((∃ e, r = Throw e ∧ this σ' = this σ)
         ∨ (r = Normal true
            ∧ this σ' = PluginManager.with_pluginMap
                          (Some (Map_delete pluginName pluginMap)) (this σ)
            ∧ ∃ ev, trace σ' = trace σ
                               ++ called "onPluginUnload" pluginMap [ev] [VStr name])).
Proof.
  intros Hm. unfold PluginManager.remove, get_this. rewrite bind_run. cbv beta iota.
  rewrite Hm. unfold Map_has.
  destruct pluginName as [| | | |name| | | |];
    try (intros [= <- <-]; left; split; [|done];
         by apply bool_decide_eq_false_2; intros [? ?]).
  destruct (Map_get pluginMap (VStr name)) as [entry|] eqn:Hget.
  2:{ intros [= <- <-]. left. split; [|done].
      by apply bool_decide_eq_false_2; intros [? ?]. }
  rewrite bind_run, new_cell_run. cbv beta iota.
  rewrite bind_run, new_cell_run. cbv beta iota.
  rewrite bind_run.
  match goal with
  | |- context [s_INVOKE_SYNC_EVENTS ?a ?b ?c ?d ?e ?f ?g ?s] =>
      pose proof (dispatch_keeps a b c d e f g s) as [Kthis Ksubs];
      destruct (s_INVOKE_SYNC_EVENTS a b c d e f g s) as [[payload|e0] σ2] eqn:Hrun
  end; simpl in Kthis, Ksubs.
  - rewrite bind_run.
    assert ((if is_EventProxy (PluginEntry.eventProxy entry)
             then EventProxy_destroy (PluginEntry.eventProxy entry)
             else mret tt) σ2 = (Normal tt, σ2)) as -> by (by destruct (is_EventProxy _)).
    rewrite bind_run. unfold get_this. cbv beta iota.
    rewrite bind_run. unfold set_this. cbv beta iota. rewrite ret_run.
    intros [= <- <-]. right. exists name, entry. split; [done|]. split; [done|].
    split; [done|]. right. split; [done|]. simpl. rewrite Kthis, Hm.
    split; [done|].
    apply s_INVOKE_SYNC_EVENTS_calls in Hrun as (_ & ev & Hrun). by exists ev.
  - intros [= <- <-]. right. exists name, entry. split; [done|]. split; [done|].
    split; [done|]. left. eauto.
Qed.

Lemma filter_all {A} (P : A → Prop) `{∀ x, Decision (P x)} (l : list A) :
  (∀ x, x ∈ l → P x) → filter P l = l.
Proof.
  induction l as [|x l IH]; intros Hl; [done|].
  rewrite filter_cons, decide_True by (apply Hl; left).
  f_equal. apply IH. intros y Hy. apply Hl. by right.
Qed.

(** X8. [remove], when it returns: the result says whether the name was
    registered; afterwards [hasPlugin] of the name is false and
    [getPluginNames()] is the list there was without the name, the other
    names in their order, their entries as they were. *)
Theorem remove_unregisters name σ pluginMap b σ' :
  _pluginMap (this σ) = Some pluginMap →
  PluginManager.remove (VStr name) σ = (Normal b, σ') →
  b = bool_decide (name ∈ Map_keys pluginMap)
  ∧ PluginManager.hasPlugin (VStr name) σ' = (Normal false, σ')
  ∧ PluginManager.getPluginNames VUndefined σ'
    = (Normal (filter (λ k, k ≠ name) (Map_keys pluginMap)), σ')
  ∧ ∃ pluginMap', _pluginMap (this σ') = Some pluginMap'
      ∧ ∀ k, k ≠ name → Map_get pluginMap' (VStr k) = Map_get pluginMap (VStr k).
Proof.
  intros Hm Hrun.
  destruct (remove_inv _ _ _ _ _ Hm Hrun)
    as [(Hhas & [= ->] & ->)
       |(name' & entry & [= <-] & Hget & _
         & [(e & ? & _)|([= ->] & Hthis & _)])]; [|done|].
  - rewrite Map_has_keys in Hhas. apply bool_decide_eq_false_1 in Hhas.
    rewrite (hasPlugin_run _ _ _ Hm), (getPluginNames_run _ _ Hm).
    rewrite !bool_decide_eq_false_2 by done.
    split; [done|]. split; [done|]. split.
    + f_equal. f_equal. symmetry. apply filter_all.
      intros k Hk ->. done.
    + by exists pluginMap.
  - assert (_pluginMap (this σ') = Some (Map_delete (VStr name) pluginMap)) as Hm'
      by (by rewrite Hthis).
    rewrite (hasPlugin_run _ _ _ Hm'), (getPluginNames_run _ _ Hm'), Map_keys_delete.
    split; [|split; [|split; [done|]]].
    + symmetry. apply bool_decide_eq_true_2. by eapply assoc_Some_keys.
    + f_equal. f_equal. apply bool_decide_eq_false_2.
      intros [H _]%list_elem_of_filter. done.
    + eexists. split; [done|]. intros k Hk. by apply assoc_delete_ne.
Qed.

Lemma remove_unregisters_witness :
  ∃ σ',
    PluginManager.remove (VStr "A") two_adders = (Normal true, σ')
    ∧ PluginManager.getPluginNames VUndefined σ' = (Normal ["B"], σ')
    ∧ PluginManager.hasPlugin (VStr "A") σ' = (Normal false, σ').
Proof.
  destruct (PluginManager.remove (VStr "A") two_adders) as [r σ'] eqn:Hrun.
  assert (r = (PluginManager.remove (VStr "A") two_adders).1)
    as Hr by (by rewrite Hrun).
  vm_compute in Hr. subst r. exists σ'. split; [done|].
  pose (eA := PluginEntry.constructor "A" "instance" (single "test" (add3 3))
                VUndefined VUndefined).
  pose (eB := PluginEntry.constructor "B" "instance" (single "test" (add3 3))
                VUndefined VUndefined).
  assert (_pluginMap (this two_adders) = Some [("A", eA); ("B", eB)]) as Hm
    by reflexivity.
  destruct (remove_unregisters "A" two_adders [("A", eA); ("B", eB)] true σ' Hm Hrun)
    as (_ & Hhas & Hnames & _).
  split; [exact Hnames|exact Hhas].
Defined.

(** X9. [remove] gives up when [onPluginUnload] fails: when it throws,
    the manager object is as it was and the plugin still registered. *)
Theorem remove_keeps_the_plugin_when_it_throws pluginName σ pluginMap e σ' :
  _pluginMap (this σ) = Some pluginMap →
  PluginManager.remove pluginName σ = (Throw e, σ') →
  this σ' = this σ
  ∧ ∃ name, pluginName = VStr name
      ∧ PluginManager.hasPlugin (VStr name) σ' = (Normal true, σ').
Proof.
  intros Hm Hrun.
  destruct (remove_inv _ _ _ _ _ Hm Hrun)
    as [(_ & ? & _)
       |(name & entry & -> & Hget & _ & [(e' & _ & Hthis)|(? & _)])]; [done| |done].
  split; [done|]. exists name. split; [done|].
  assert (_pluginMap (this σ') = Some pluginMap) as Hm' by (by rewrite Hthis).
  rewrite (hasPlugin_run _ _ _ Hm'). f_equal. f_equal.
  apply bool_decide_eq_true_2. by eapply assoc_Some_keys.
Qed.

Lemma remove_keeps_the_plugin_when_it_throws_witness :
  ∃ σ',
    PluginManager.remove (VStr "F") with_fragile
    = (Throw (Thrown (UserError (VStr "unload"))), σ')
    ∧ PluginManager.hasPlugin (VStr "F") σ' = (Normal true, σ').
Proof.
  destruct (PluginManager.remove (VStr "F") with_fragile) as [r σ'] eqn:Hrun.
  assert (r = (PluginManager.remove (VStr "F") with_fragile).1)
    as Hr by (by rewrite Hrun).
  vm_compute in Hr. subst r. exists σ'. split; [done|].
  destruct (remove_keeps_the_plugin_when_it_throws (VStr "F") with_fragile
              _ _ σ' eq_refl Hrun) as (_ & name & [= <-] & Hhas).
  exact Hhas.
Defined.

(** X10. [remove], when it has removed a plugin, has called one method
    at most: the [onPluginUnload] of that plugin, once, if the plugin was
    enabled and its instance has one; a disabled plugin is removed without
    being told. *)
Theorem remove_calls_onPluginUnload_of_an_enabled_plugin name σ pluginMap entry σ' :
  _pluginMap (this σ) = Some pluginMap →
  Map_get pluginMap (VStr name) = Some entry →
  PluginManager.remove (VStr name) σ = (Normal true, σ') →
  ∃ ev,
    trace σ'
    = trace σ
      ++ if PluginEntry.enabled entry
            && bool_decide (is_Some (instance_method (PluginEntry.instance entry)
                                       "onPluginUnload"))
         then [Call (PluginEntry.name entry) "onPluginUnload" [ev]] else [].
Proof.
  intros Hm Hget Hrun.
  destruct (remove_inv _ _ _ _ _ Hm Hrun)
    as [(_ & ? & _)
       |(name' & entry' & [= <-] & Hget' & _
         & [(e & ? & _)|(_ & _ & ev & Htrace)])]; [done..|].
  exists ev. rewrite Htrace. f_equal.
  unfold called, target_of. simpl in *. rewrite Hget.
  destruct (PluginEntry.enabled entry); simpl; [|done].
  destruct (PluginEntry.instance entry) as [|member]; simpl; [done|].
  by destruct (member "onPluginUnload").
Qed.

Lemma remove_calls_onPluginUnload_of_an_enabled_plugin_witness :
  let entry := PluginEntry.set_enabled false
                 (PluginEntry.constructor "F" "instance" fragile VUndefined VUndefined) in
  let σ := (PluginManager.enablePlugin (VStr "F") (VBool false) with_fragile).2 in
  ∃ σ',
    PluginManager.remove (VStr "F") σ = (Normal true, σ')
    ∧ trace σ' = trace σ.
Proof.
  intros entry σ.
  destruct (PluginManager.remove (VStr "F") σ) as [r σ'] eqn:Hrun.
  assert (r = (PluginManager.remove (VStr "F") σ).1) as Hr by (by rewrite Hrun).
  vm_compute in Hr. subst r. exists σ'. split; [done|].
  destruct (remove_calls_onPluginUnload_of_an_enabled_plugin "F" σ [("F", entry)]
              entry σ' eq_refl eq_refl Hrun) as [ev Htrace].
  rewrite Htrace. exact (app_nil_r (trace σ)).
Defined.

Lemma destroy_proxies (entries : list PluginEntry.t) σ :
  for_of (λ entry _,
            if is_EventProxy (PluginEntry.eventProxy entry)
            then EventProxy_destroy (PluginEntry.eventProxy entry) else mret tt)
         entries tt σ = (Normal tt, σ).
Proof.
  induction entries as [|entry entries IH]; [done|]. simpl. rewrite bind_run.
  by destruct (is_EventProxy _).
Qed.

Lemma removeAll_inv σ pluginMap r σ' :
  _pluginMap (this σ) = Some pluginMap →
  PluginManager.removeAll σ = (r, σ') →
  subscriptions σ' = subscriptions σ
  ∧ ((∃ e, r = Throw e ∧ this σ' = this σ)
     ∨ (r = Normal tt
        ∧ this σ' = PluginManager.with_pluginMap (Some []) (this σ)
        ∧ ∃ ev, trace σ' = trace σ
                           ++ called "onPluginUnload" pluginMap [ev]
                                (VStr <$> Map_keys pluginMap))).
Proof.
  intros Hm. unfold PluginManager.removeAll, get_this. rewrite bind_run.
  cbv beta iota. rewrite Hm.
  rewrite bind_run, new_cell_run. cbv beta iota.
  rewrite bind_run, new_cell_run. cbv beta iota.
  rewrite bind_run.
  match goal with
  | |- context [s_INVOKE_SYNC_EVENTS ?a ?b ?c ?d ?e ?f ?g ?s] =>
      pose proof (dispatch_keeps a b c d e f g s) as [Kthis Ksubs];
      destruct (s_INVOKE_SYNC_EVENTS a b c d e f g s) as [[payload|e0] σ2] eqn:Hrun
  end; simpl in Kthis, Ksubs.
  - rewrite bind_run, destroy_proxies. rewrite bind_run. cbv beta iota.
    unfold set_this. intros [= <- <-]. simpl. split; [done|]. right.
    split; [done|]. rewrite Kthis. split; [done|].
    apply s_INVOKE_SYNC_EVENTS_calls in Hrun as (_ & ev & Hrun). by exists ev.
  - intros [= <- <-]. split; [done|]. left. eauto.
Qed.

(** X11. [removeAll]: when it returns the registry is empty, and it has
    called the [onPluginUnload] of every enabled plugin that has one, once
    each, in registration order; when it throws, no plugin has been
    removed. *)
Theorem removeAll_empties_the_registry σ pluginMap r σ' :
  _pluginMap (this σ) = Some pluginMap →
  PluginManager.removeAll σ = (r, σ') →
  (r = Normal tt →
     PluginManager.getPluginNames VUndefined σ' = (Normal [], σ')
     ∧ ∃ ev, trace σ' = trace σ
                        ++ called "onPluginUnload" pluginMap [ev]
                             (VStr <$> Map_keys pluginMap))
  ∧ (∀ e, r = Throw e → this σ' = this σ).
Proof.
  intros Hm Hrun.
  destruct (removeAll_inv _ _ _ _ Hm Hrun) as [_ [(e & -> & Hthis)|(-> & Hthis & Ht)]].
  - split; [done|]. by intros.
  - split; [|done]. intros _. split; [|done].
    apply (getPluginNames_run σ' []). by rewrite Hthis.
Qed.

Lemma removeAll_empties_the_registry_witness :
  let σ := (PluginManager.enablePlugin (VStr "A") (VBool false)
              (PluginManager.addAll
                 (Configs_array
                    [Some (config_instance "A" (single "onPluginUnload" (constant VNull)));
                     Some (config_instance "B" (single "onPluginUnload" (constant VNull)));
                     Some (config_instance "C" counter)])
                 (run no_modules no_options (mret tt)).2).2).2 in
  ∃ σ' ev,
    PluginManager.removeAll σ = (Normal tt, σ')
    ∧ PluginManager.getPluginNames VUndefined σ' = (Normal [], σ')
    ∧ trace σ' = trace σ ++ [Call "B" "onPluginUnload" [ev]].
Proof.
  intros σ.
  destruct (PluginManager.removeAll σ) as [r σ'] eqn:Hrun.
  assert (r = (PluginManager.removeAll σ).1) as Hr by (by rewrite Hrun).
  vm_compute in Hr. subst r.
  pose (unloaded := single "onPluginUnload" (constant VNull)).
  pose (eA := PluginEntry.set_enabled false
                (PluginEntry.constructor "A" "instance" unloaded VUndefined VUndefined)).
  pose (eB := PluginEntry.constructor "B" "instance" unloaded VUndefined VUndefined).
  pose (eC := PluginEntry.constructor "C" "instance" counter VUndefined VUndefined).
  assert (_pluginMap (this σ) = Some [("A", eA); ("B", eB); ("C", eC)]) as Hm
    by reflexivity.
  destruct (removeAll_empties_the_registry σ _ _ σ' Hm Hrun) as [Hnormal _].
  destruct (Hnormal eq_refl) as (Hnames & ev & Htrace).
  exists σ', ev. split; [done|]. split; [exact Hnames|exact Htrace].
Defined.

Lemma same_but_registry_refl σ : same_but_registry σ σ.
Proof. by repeat split. Qed.

Lemma same_but_registry_trans σ1 σ2 σ3 :
  same_but_registry σ1 σ2 → same_but_registry σ2 σ3 → same_but_registry σ1 σ3.
Proof.
  intros (?&?&?&?&?&?) (?&?&?&?&?&?). repeat split; congruence.
Qed.

Lemma enablePlugin_inv p b σ pluginMap :
  _pluginMap (this σ) = Some pluginMap →
  ∃ σ' pluginMap',
    PluginManager.enablePlugin (VStr p) (VBool b) σ
    = (Normal (bool_decide (p ∈ Map_keys pluginMap)), σ')
    ∧ same_but_registry σ σ'
    ∧ _pluginMap (this σ') = Some pluginMap'
    ∧ Map_keys pluginMap' = Map_keys pluginMap
    ∧ Map_get pluginMap' (VStr p) = PluginEntry.set_enabled b <$> Map_get pluginMap (VStr p)
    ∧ ∀ k, k ≠ p → Map_get pluginMap' (VStr k) = Map_get pluginMap (VStr k).
Proof.
  intros Hm. unfold PluginManager.enablePlugin, get_this. rewrite bind_run.
  cbv beta iota. rewrite Hm.
  destruct (Map_get pluginMap (VStr p)) as [entry|] eqn:Hget.
  - rewrite bind_run. unfold set_this. cbv beta iota. rewrite ret_run.
    rewrite (bool_decide_eq_true_2 (p ∈ Map_keys pluginMap))
      by (by eapply assoc_Some_keys).
    eexists _, (Map_alter (PluginEntry.set_enabled b) p pluginMap).
    split; [reflexivity|]. split; [by repeat split|].
    split; [done|]. split; [apply Map_keys_alter|]. simpl in *.
    split; [by rewrite assoc_Map_alter, Hget|].
    intros k Hk. by apply assoc_Map_alter_ne.
  - rewrite ret_run.
    rewrite (bool_decide_eq_false_2 (p ∈ Map_keys pluginMap))
      by (by apply assoc_None_keys).
    exists σ, pluginMap.
    split; [reflexivity|]. split; [apply same_but_registry_refl|].
    split; [done|]. split; [done|]. split; [by rewrite Hget|done].
Qed.

(** X12. [enablePlugin(name, enabled)] with a string and a boolean, on a
    manager that is not destroyed, returns whether the name is registered;
    the entry under the name, if there is one, has the flag set, and
    nothing else of its fields has changed; the names, their order, the
    other entries, the store and the invocation log are as they were. *)
Theorem enablePlugin_sets_one_flag p b σ pluginMap r σ' :
  _pluginMap (this σ) = Some pluginMap →
  PluginManager.enablePlugin (VStr p) (VBool b) σ = (r, σ') →
  r = Normal (bool_decide (p ∈ Map_keys pluginMap))
  ∧ same_but_registry σ σ'
  ∧ ∃ pluginMap',
      _pluginMap (this σ') = Some pluginMap'
      ∧ Map_keys pluginMap' = Map_keys pluginMap
      ∧ Map_get pluginMap' (VStr p)
        = PluginEntry.set_enabled b <$> Map_get pluginMap (VStr p)
      ∧ ∀ k, k ≠ p → Map_get pluginMap' (VStr k) = Map_get pluginMap (VStr k).
Proof.
  intros Hm Hrun.
  destruct (enablePlugin_inv p b σ pluginMap Hm) as (σ1 & pm' & Hrun' & Hrest).
  rewrite Hrun' in Hrun. injection Hrun as <- <-.
  split; [done|]. split; [apply Hrest|]. exists pm'. apply Hrest.
Qed.

Lemma enablePlugin_sets_one_flag_witness :
  ∃ σ',
    PluginManager.enablePlugin (VStr "B") (VBool false) two_adders = (Normal true, σ')
    ∧ PluginManager.getPluginNames (VBool true) σ' = (Normal ["A"], σ')
    ∧ PluginManager.getPluginNames VUndefined σ' = (Normal ["A"; "B"], σ').
Proof.
  destruct (PluginManager.enablePlugin (VStr "B") (VBool false) two_adders)
    as [r σ'] eqn:Hrun.
  pose (eA := PluginEntry.constructor "A" "instance" (single "test" (add3 3))
                VUndefined VUndefined).
  pose (eB := PluginEntry.constructor "B" "instance" (single "test" (add3 3))
                VUndefined VUndefined).
  assert (_pluginMap (this two_adders) = Some [("A", eA); ("B", eB)]) as Hm
    by reflexivity.
  destruct (enablePlugin_sets_one_flag "B" false two_adders _ r σ' Hm Hrun)
    as (-> & _ & pm' & Hm' & Hkeys & _).
  exists σ'. split; [done|].
  assert (σ' = (PluginManager.enablePlugin (VStr "B") (VBool false) two_adders).2)
    as -> by (by rewrite Hrun).
  split; reflexivity.
Defined.

Lemma getPluginNames_enabled_run σ pluginMap enabled :
  _pluginMap (this σ) = Some pluginMap →
  PluginManager.getPluginNames (VBool enabled) σ
  = (Normal (PluginEntry.name <$>
               filter (λ plugin, PluginEntry.enabled plugin = enabled)
                      (Map_values pluginMap)), σ).
Proof.
  intros Hm. unfold PluginManager.getPluginNames, get_this. rewrite bind_run.
  cbv beta iota. by rewrite Hm.
Qed.

Lemma assoc_fmap {V} (f : V → V) k (m : list (string * V)) :
  assoc k ((λ kv, (kv.1, f kv.2)) <$> m) = f <$> assoc k m.
Proof.
  induction m as [|[k0 v0] m IH]; [done|]. simpl in *.
  case_bool_decide; [done|exact IH].
Qed.

(** X13. [enableAllPlugins(enabled)] with a boolean, on a manager that is
    not destroyed: every entry has the flag set and is otherwise as it was,
    so [getPluginNames(enabled)] gives every plugin and
    [getPluginNames(!enabled)] none; the names and their order are as they
    were. *)
Theorem enableAllPlugins_sets_every_flag b σ pluginMap r σ' :
  _pluginMap (this σ) = Some pluginMap →
  PluginManager.enableAllPlugins (VBool b) σ = (r, σ') →
  r = Normal tt
  ∧ same_but_registry σ σ'
  ∧ PluginManager.getPluginNames VUndefined σ' = (Normal (Map_keys pluginMap), σ')
  ∧ PluginManager.getPluginNames (VBool b) σ'
    = (Normal (PluginEntry.name <$> Map_values pluginMap), σ')
  ∧ PluginManager.getPluginNames (VBool (negb b)) σ' = (Normal [], σ')
  ∧ ∃ pluginMap',
      _pluginMap (this σ') = Some pluginMap'
      ∧ ∀ k, Map_get pluginMap' (VStr k)
             = PluginEntry.set_enabled b <$> Map_get pluginMap (VStr k).
Proof.
  intros Hm. unfold PluginManager.enableAllPlugins, get_this. rewrite bind_run.
  cbv beta iota. rewrite Hm. unfold set_this. intros [= <- <-].
  set (pm' := (λ kv : string * PluginEntry.t,
                 (kv.1, PluginEntry.set_enabled b kv.2)) <$> pluginMap).
  set (σ' := {| this := _ |}).
  assert (_pluginMap (this σ') = Some pm') as Hm' by done.
  split; [done|]. split; [by repeat split|].
  rewrite (getPluginNames_run _ _ Hm'), !(getPluginNames_enabled_run _ _ _ Hm').
  assert (Map_values pm' = PluginEntry.set_enabled b <$> Map_values pluginMap) as ->.
  { unfold Map_values, pm'. rewrite <-!list_fmap_compose. done. }
  split; [|split; [|split]].
  - f_equal. f_equal. unfold Map_keys, pm'. rewrite <-list_fmap_compose. done.
  - f_equal. f_equal. rewrite filter_all.
    + rewrite <-list_fmap_compose. done.
    + by intros e (e0 & -> & _)%list_elem_of_fmap.
  - f_equal. f_equal.
    assert (filter (λ plugin, PluginEntry.enabled plugin = negb b)
              (PluginEntry.set_enabled b <$> Map_values pluginMap) = []) as ->; [|done].
    induction (Map_values pluginMap) as [|e es IH]; [done|].
    rewrite fmap_cons, filter_cons, decide_False; [done|]. simpl. by destruct b.
  - exists pm'. split; [done|]. intros k. apply assoc_fmap.
Qed.

Lemma enableAllPlugins_sets_every_flag_witness :
  ∃ σ',
    PluginManager.enableAllPlugins (VBool false) two_adders = (Normal tt, σ')
    ∧ PluginManager.getPluginNames (VBool false) σ' = (Normal ["A"; "B"], σ')
    ∧ PluginManager.getPluginNames (VBool true) σ' = (Normal [], σ').
Proof.
  destruct (PluginManager.enableAllPlugins (VBool false) two_adders)
    as [r σ'] eqn:Hrun.
  pose (eA := PluginEntry.constructor "A" "instance" (single "test" (add3 3))
                VUndefined VUndefined).
  pose (eB := PluginEntry.constructor "B" "instance" (single "test" (add3 3))
                VUndefined VUndefined).
  assert (_pluginMap (this two_adders) = Some [("A", eA); ("B", eB)]) as Hm
    by reflexivity.
  destruct (enableAllPlugins_sets_every_flag false two_adders _ r σ' Hm Hrun)
    as (-> & _ & _ & Hsame & Hother & _).
  exists σ'. split; [done|]. split; [exact Hsame|exact Hother].
Defined.

Lemma set_enabled_idem b e :
  PluginEntry.set_enabled b (PluginEntry.set_enabled b e) = PluginEntry.set_enabled b e.
Proof. done. Qed.

Lemma forallb_pointwise {A} (f g : A → bool) l :
  (∀ x, f x = g x) → forallb f l = forallb g l.
Proof. intros H. induction l as [|x l IH]; simpl; [done|]. by rewrite H, IH. Qed.

Lemma enablePlugins_step_found b k entry success σ pluginMap :
  _pluginMap (this σ) = Some pluginMap → assoc k pluginMap = Some entry →
  PluginManager.enablePlugins_step b (VStr k) success σ
  = (Normal success,
     {| this := PluginManager.with_pluginMap
                  (Some (Map_alter (PluginEntry.set_enabled b) k pluginMap)) (this σ);
        store := store σ; subscriptions := subscriptions σ; modules := modules σ;
        path_resolve := path_resolve σ; trace := trace σ |}).
Proof.
  intros Hm Hk. unfold PluginManager.enablePlugins_step, get_this.
  rewrite bind_run. cbv beta iota. rewrite Hm. cbn [Map_get]. by rewrite Hk.
Qed.

Lemma enablePlugins_step_missing b name success σ pluginMap :
  _pluginMap (this σ) = Some pluginMap → Map_get pluginMap name = None →
  PluginManager.enablePlugins_step b name success σ = (Normal false, σ).
Proof.
  intros Hm Hk. unfold PluginManager.enablePlugins_step, get_this.
  rewrite bind_run. cbv beta iota. rewrite Hm.
  destruct name as [| | | |k| | | |]; try done. by rewrite Hk.
Qed.

(** The loop of [enablePlugins]. *)
Lemma enablePlugins_loop b names :
  ∀ success σ pluginMap,
    _pluginMap (this σ) = Some pluginMap →
    ∃ σ' pluginMap',
      for_of (PluginManager.enablePlugins_step b) names success σ
      = (Normal (success && forallb (Map_has pluginMap) names), σ')
      ∧ same_but_registry σ σ'
      ∧ _pluginMap (this σ') = Some pluginMap'
      ∧ Map_keys pluginMap' = Map_keys pluginMap
      ∧ ∀ k, Map_get pluginMap' (VStr k)
             = if bool_decide (VStr k ∈ names)
               then PluginEntry.set_enabled b <$> Map_get pluginMap (VStr k)
               else Map_get pluginMap (VStr k).
Proof.
  induction names as [|name names IH]; intros success σ pluginMap Hm.
  - exists σ, pluginMap. simpl. rewrite andb_true_r.
    split; [done|]. split; [apply same_but_registry_refl|]. done.
  - cbn [for_of forallb]. rewrite bind_run.
    assert ((∃ k entry, name = VStr k ∧ assoc k pluginMap = Some entry)
            ∨ Map_get pluginMap name = None) as [(k & entry & -> & Hk)|Hno].
    { destruct name as [| | | |k| | | |]; try (by right). simpl.
      destruct (assoc k pluginMap) as [entry|] eqn:Hk; [left; eauto|by right]. }
    + rewrite (enablePlugins_step_found _ _ _ _ _ _ Hm Hk).
      set (pm1 := Map_alter (PluginEntry.set_enabled b) k pluginMap).
      set (σ1 := {| this := _ |}).
      destruct (IH success σ1 pm1 eq_refl) as (σ' & pm' & Hrun & Hsame & Hm' & Hkeys & Hget).
      exists σ', pm'. rewrite Hrun.
      assert (∀ v, Map_has pm1 v = Map_has pluginMap v) as Hhas.
      { intros [| | | |k'| | | |]; try done.
        unfold pm1. by rewrite !Map_has_keys, Map_keys_alter. }
      split.
      { f_equal. f_equal. rewrite (forallb_pointwise _ _ _ Hhas).
        unfold Map_has at 2. cbn [Map_get]. rewrite Hk.
        by rewrite bool_decide_eq_true_2 by eauto. }
      split; [eapply same_but_registry_trans; [|exact Hsame]; by repeat split|].
      split; [done|]. split; [by rewrite Hkeys; apply Map_keys_alter|].
      intros k'. specialize (Hget k'). simpl in Hget |- *. rewrite Hget. unfold pm1.
      destruct (decide (k' = k)) as [->|Hne].
      * rewrite assoc_Map_alter, (bool_decide_eq_true_2 (VStr k ∈ VStr k :: names))
          by left.
        rewrite Hk. simpl. by case_bool_decide.
      * rewrite assoc_Map_alter_ne by done.
        destruct (decide (VStr k' ∈ names)) as [Hin|Hin].
        -- rewrite !bool_decide_eq_true_2; [done|by right|done].
        -- rewrite !bool_decide_eq_false_2; [done| |done].
           intros [[= ->]|?]%elem_of_cons; done.
    + rewrite (enablePlugins_step_missing _ _ _ _ _ Hm Hno).
      destruct (IH false σ pluginMap Hm) as (σ' & pm' & Hrun & Hsame & Hm' & Hkeys & Hget).
      exists σ', pm'. rewrite Hrun. simpl.
      assert (Map_has pluginMap name = false) as ->.
      { unfold Map_has. rewrite Hno. by apply bool_decide_eq_false_2; intros [? ?]. }
      rewrite andb_false_r. split; [done|]. split; [done|]. split; [done|].
      split; [done|]. intros k. specialize (Hget k). simpl in Hget |- *.
      rewrite Hget.
      destruct (decide (VStr k ∈ names)) as [Hin|Hin].
      * rewrite !bool_decide_eq_true_2; [done|by right|done].
      * destruct (decide (name = VStr k)) as [->|Hne].
        -- rewrite bool_decide_eq_false_2 by done.
           rewrite bool_decide_eq_true_2 by left.
           simpl in *. by rewrite Hno.
        -- rewrite !bool_decide_eq_false_2; [done| |done].
           intros [?|?]%elem_of_cons; done.
Qed.

(** X14. [enablePlugins(pluginNames, enabled)] with a boolean, on a
    manager that is not destroyed, when it returns: the result is true
    exactly when every name the iteration of [pluginNames] yields is
    registered (a string yields its characters); each registered name it
    yields has the flag set, the other entries are as they were, and so are
    the names and their order, the store and the invocation log. *)
Theorem enablePlugins_answers_for_all_names pluginNames b σ pluginMap r σ' :
  _pluginMap (this σ) = Some pluginMap →
  PluginManager.enablePlugins pluginNames (VBool b) σ = (Normal r, σ') →
  ∃ names,
    PluginManager.iterate pluginNames σ = (Normal names, σ)
    ∧ r = forallb (Map_has pluginMap) names
    ∧ same_but_registry σ σ'
    ∧ ∃ pluginMap',
        _pluginMap (this σ') = Some pluginMap'
        ∧ Map_keys pluginMap' = Map_keys pluginMap
        ∧ ∀ k, Map_get pluginMap' (VStr k)
               = if bool_decide (VStr k ∈ names)
                 then PluginEntry.set_enabled b <$> Map_get pluginMap (VStr k)
                 else Map_get pluginMap (VStr k).
Proof.
  intros Hm. unfold PluginManager.enablePlugins, get_this. rewrite bind_run.
  cbv beta iota. rewrite Hm.
  intros (names & σ1 & Hnames & Hrun)%bind_Normal.
  assert (σ1 = σ) as ->.
  { unfold PluginManager.iterate in Hnames.
    destruct pluginNames; rewrite ?ret_run, ?throw_run in Hnames; by simplify_eq. }
  exists names. split; [done|].
  destruct (enablePlugins_loop b names true σ pluginMap Hm)
    as (σ2 & pm' & Hloop & Hsame & Hm' & Hkeys & Hget).
  rewrite Hloop in Hrun. injection Hrun as <- <-.
  split; [done|]. split; [done|]. by exists pm'.
Qed.

Lemma enablePlugins_answers_for_all_names_witness :
  ∃ σ',
    PluginManager.enablePlugins (NL_string "AB") (VBool false) two_adders
    = (Normal true, σ')
    ∧ PluginManager.getPluginNames (VBool false) σ' = (Normal ["A"; "B"], σ').
Proof.
  destruct (PluginManager.enablePlugins (NL_string "AB") (VBool false) two_adders)
    as [r σ'] eqn:Hrun.
  assert (r = (PluginManager.enablePlugins (NL_string "AB") (VBool false)
                 two_adders).1) as Hr by (by rewrite Hrun).
  vm_compute in Hr. subst r.
  pose (eA := PluginEntry.constructor "A" "instance" (single "test" (add3 3))
                VUndefined VUndefined).
  pose (eB := PluginEntry.constructor "B" "instance" (single "test" (add3 3))
                VUndefined VUndefined).
  assert (_pluginMap (this two_adders) = Some [("A", eA); ("B", eB)]) as Hm
    by reflexivity.
  destruct (enablePlugins_answers_for_all_names (NL_string "AB") false two_adders
              _ true σ' Hm Hrun) as (names & _ & _ & _ & pm' & Hm' & _).
  exists σ'. split; [done|].
  assert (σ' = (PluginManager.enablePlugins (NL_string "AB") (VBool false)
                  two_adders).2) as -> by (by rewrite Hrun).
  reflexivity.
Defined.

(** X15. On a manager whose entries are stored under their own names,
    [getPluginNames(true)] and [getPluginNames(false)] split
    [getPluginNames()]: together they are its names, each exactly as often,
    and each of the two keeps the registration order. *)
Theorem getPluginNames_splits_by_state σ pluginMap :
  _pluginMap (this σ) = Some pluginMap →
  named pluginMap →
  ∃ on off,
    PluginManager.getPluginNames (VBool true) σ = (Normal on, σ)
    ∧ PluginManager.getPluginNames (VBool false) σ = (Normal off, σ)
    ∧ PluginManager.getPluginNames VUndefined σ = (Normal (Map_keys pluginMap), σ)
    ∧ on ++ off ≡ₚ Map_keys pluginMap
    ∧ on `sublist_of` Map_keys pluginMap
    ∧ off `sublist_of` Map_keys pluginMap.
Proof.
  intros Hm Hnamed.
  rewrite !(getPluginNames_enabled_run _ _ _ Hm), (getPluginNames_run _ _ Hm).
  eexists _, _. split; [done|]. split; [done|]. split; [done|].
  assert (Map_keys pluginMap = PluginEntry.name <$> Map_values pluginMap) as ->.
  { unfold Map_keys, Map_values. rewrite <-list_fmap_compose.
    apply list_fmap_ext. intros i [k e] Hin%list_elem_of_lookup_2. simpl.
    symmetry. by apply Hnamed. }
  split; [|split; apply fmap_sublist, sublist_filter].
  rewrite <-fmap_app. apply fmap_Permutation.
  rewrite <-(filter_app_complement (λ plugin, PluginEntry.enabled plugin = true)
               (Map_values pluginMap)) at 3.
  apply Permutation_app; [done|].
  rewrite (list_filter_iff (λ plugin, PluginEntry.enabled plugin = false)
             (λ plugin, ¬ PluginEntry.enabled plugin = true)); [done|].
  intros e. by destruct (PluginEntry.enabled e).
Qed.

Lemma getPluginNames_splits_by_state_witness :
  let σ := (PluginManager.enablePlugin (VStr "A") (VBool false) two_adders).2 in
  PluginManager.getPluginNames (VBool true) σ = (Normal ["B"], σ)
  ∧ PluginManager.getPluginNames (VBool false) σ = (Normal ["A"], σ).
Proof.
  intros σ.
  pose (eA := PluginEntry.set_enabled false
                (PluginEntry.constructor "A" "instance" (single "test" (add3 3))
                   VUndefined VUndefined)).
  pose (eB := PluginEntry.constructor "B" "instance" (single "test" (add3 3))
                VUndefined VUndefined).
  destruct (getPluginNames_splits_by_state σ [("A", eA); ("B", eB)])
    as (on & off & Hon & Hoff & _).
  - reflexivity.
  - intros k e Hin.
    repeat (apply elem_of_cons in Hin as [Hin|Hin]; [by simplify_eq|]).
    by apply elem_of_nil in Hin.
  - split.
    + rewrite Hon. f_equal. f_equal.
      assert (Normal on = (PluginManager.getPluginNames (VBool true) σ).1) as H
        by (by rewrite Hon).
      vm_compute in H. by injection H.
    + rewrite Hoff. f_equal. f_equal.
      assert (Normal off = (PluginManager.getPluginNames (VBool false) σ).1) as H
        by (by rewrite Hoff).
      vm_compute in H. by injection H.
Defined.

(** ** What every operation keeps of the registry *)

Lemma keeps_registry_this {A} (c : M A) : keeps_this c → keeps_registry c.
Proof. intros H σ. by rewrite H. Qed.

Lemma keeps_registry_bind {A B} (c : M A) (f : A → M B) :
  keeps_registry c → (∀ a, keeps_registry (f a)) → keeps_registry (c ≫= f).
Proof.
  intros Hc Hf σ. rewrite bind_run.
  specialize (Hc σ). destruct (c σ) as [[a|e] σ']; simpl in *; [|done].
  by rewrite Hf.
Qed.

Lemma keeps_registry_for_of {A T} (body : A → T → M T) xs s :
  (∀ x s, keeps_registry (body x s)) → keeps_registry (for_of body xs s).
Proof.
  intros Hbody. revert s. induction xs as [|x xs IH]; intros s; simpl.
  - done.
  - apply keeps_registry_bind; auto.
Qed.

Lemma keeps_registry_on bus name callback :
  keeps_registry (eventbus_on bus name callback).
Proof. by destruct bus. Qed.

Lemma keeps_registry_off bus name callback :
  keeps_registry (eventbus_off bus name callback).
Proof. by destruct bus. Qed.

Ltac keeps_registry :=
  repeat first
    [ simple apply keeps_registry_on
    | simple apply keeps_registry_off
    | match goal with
      | |- keeps_registry (get_this ≫= λ m, set_this _) => intros ?; reflexivity
      end
    | simple apply keeps_registry_for_of; intros
    | simple apply keeps_registry_bind; [|intros]
    | match goal with
      | |- keeps_registry (match ?x with _ => _ end) => destruct x
      | |- keeps_registry (let '(_, _) := ?x in _) => destruct x
      end
    | solve [apply keeps_registry_this; keeps_this]
    | solve [intros ?; reflexivity] ].

Lemma keeps_registry_setOptions options :
  keeps_registry (PluginManager.setOptions options).
Proof. intros σ. unfold PluginManager.setOptions. by destruct options. Qed.

Lemma keeps_registry_setEventbus targetEventbus eventPrepend :
  keeps_registry (PluginManager.setEventbus targetEventbus eventPrepend).
Proof.
  unfold PluginManager.setEventbus, new_cell, EventProxy_destroy. intros σ.
  rewrite bind_run. unfold get_this at 1. cbv beta iota.
  destruct (_pluginMap (this σ)) as [pluginMap|] eqn:Hm; [|exact Hm].
  destruct (negb _); [exact Hm|].
  destruct (if bool_decide (eventPrepend = VUndefined) then VStr "plugins"
            else eventPrepend) as [| | | |prepend| | | |]; try exact Hm.
  destruct (strict_eq _ _); [exact Hm|].
  rewrite bind_run. unfold set_this at 1. cbv beta iota.
  set (σ1 := {| this := _ |}).
  assert (_pluginMap (this σ1) = Some pluginMap) as <- by exact Hm.
  match goal with
  | |- _pluginMap (this (?c σ1).2) = _ => assert (keeps_registry c) as H
  end; [|apply H].
  keeps_registry.
Qed.

Lemma keeps_this_invokeSync nameOrList methodName args :
  keeps_this (PluginManager.invokeSync nameOrList methodName args).
Proof.
  unfold PluginManager.invokeSync, PluginManager.default_nameOrList,
    PluginManager.invoke_targets, PluginManager.invoke_target.
  keeps_this.
Qed.

Lemma keeps_this_try_catch {A} (body : M A) handle :
  keeps_this body → (∀ e, keeps_this (handle e)) → keeps_this (try_catch body handle).
Proof.
  intros Hb Hh σ. unfold try_catch. specialize (Hb σ).
  destruct (body σ) as [[a|e] σ']; simpl in *; [done|]. by rewrite Hh.
Qed.

Lemma keeps_this_invokeAsync nameOrList methodName args :
  keeps_this (PluginManager.invokeAsync nameOrList methodName args).
Proof.
  unfold PluginManager.invokeAsync, PluginManager.default_nameOrList,
    PluginManager.invoke_targets, PluginManager.invoke_target.
  repeat first [ simple apply keeps_this_try_catch; [|intros]
               | progress keeps_this ].
Qed.

Lemma keeps_this_invokeSyncEvent methodName copyProps passthruProps nameOrList :
  keeps_this (PluginManager.invokeSyncEvent methodName copyProps passthruProps nameOrList).
Proof.
  unfold PluginManager.invokeSyncEvent, PluginManager.default_nameOrList, new_cell.
  keeps_this.
Qed.

Lemma hasMethod_state methodName σ : (PluginManager.hasMethod methodName σ).2 = σ.
Proof.
  unfold PluginManager.hasMethod, get_this. rewrite bind_run. cbv beta iota.
  destruct (_pluginMap (this σ)) as [pluginMap|]; [|done].
  destruct methodName as [| | | |methodName| | | |]; try done.
  induction (Map_values pluginMap) as [|plugin plugins IH]; [done|].
  destruct (PluginEntry.instance plugin); [done|]. by case_bool_decide.
Qed.

Lemma registry_wf_same σ σ' :
  _pluginMap (this σ') = _pluginMap (this σ) → registry_wf σ → registry_wf σ'.
Proof. intros H Hwf pm Hm. apply Hwf. by rewrite <-H. Qed.

Lemma NoDup_Map_set {V} k (v : V) m : NoDup (Map_keys m) → NoDup (Map_keys (Map_set k v m)).
Proof.
  intros H. rewrite Map_keys_set. case_bool_decide; [done|].
  apply NoDup_app. split; [done|]. split; [|apply NoDup_singleton].
  by intros x Hx ->%list_elem_of_singleton.
Qed.

Lemma elem_of_Map_set {V} k (v : V) m k' v' :
  (k', v') ∈ Map_set k v m → (k' = k ∧ v' = v) ∨ (k', v') ∈ m.
Proof.
  induction m as [|[k0 v0] m IH]; simpl.
  - intros [= -> ->]%list_elem_of_singleton. by left.
  - case_bool_decide.
    + intros [[= -> ->]|Hin]%elem_of_cons; [by left|]. right. by right.
    + intros [[= -> ->]|Hin]%elem_of_cons; [right; left|].
      destruct (IH Hin) as [?|?]; [by left|]. right. by right.
Qed.

Lemma registry_wf_set σ σ' pluginMap name entry :
  registry_wf σ → _pluginMap (this σ) = Some pluginMap →
  PluginEntry.name entry = name →
  _pluginMap (this σ') = Some (Map_set name entry pluginMap) →
  registry_wf σ'.
Proof.
  intros Hwf Hm Hname Hm' pm Hpm. rewrite Hm' in Hpm. injection Hpm as <-.
  destruct (Hwf _ Hm) as [Hnodup Hnamed]. split; [by apply NoDup_Map_set|].
  intros k e [[-> ->]|Hin]%elem_of_Map_set; [done|]. by apply Hnamed.
Qed.

Lemma registry_wf_delete σ σ' pluginMap pluginName :
  registry_wf σ → _pluginMap (this σ) = Some pluginMap →
  _pluginMap (this σ') = Some (Map_delete pluginName pluginMap) →
  registry_wf σ'.
Proof.
  intros Hwf Hm Hm' pm Hpm. rewrite Hm' in Hpm. injection Hpm as <-.
  destruct (Hwf _ Hm) as [Hnodup Hnamed].
  destruct pluginName as [| | | |name| | | |]; try done.
  split.
  - rewrite Map_keys_delete. by apply NoDup_filter.
  - intros k e [_ Hin]%list_elem_of_filter. by apply Hnamed.
Qed.

Lemma registry_wf_alter σ σ' pluginMap name b :
  registry_wf σ → _pluginMap (this σ) = Some pluginMap →
  _pluginMap (this σ')
  = Some (Map_alter (PluginEntry.set_enabled b) name pluginMap) →
  registry_wf σ'.
Proof.
  intros Hwf Hm Hm' pm Hpm. rewrite Hm' in Hpm. injection Hpm as <-.
  destruct (Hwf _ Hm) as [Hnodup Hnamed]. split; [by rewrite Map_keys_alter|].
  intros k e (e0 & Hin & ->)%elem_of_Map_alter.
  case_bool_decide; [|by apply Hnamed]. simpl. by apply (Hnamed k e0).
Qed.

Lemma registry_wf_keys σ σ' pluginMap pluginMap' :
  registry_wf σ → _pluginMap (this σ) = Some pluginMap →
  _pluginMap (this σ') = Some pluginMap' →
  Map_keys pluginMap' = Map_keys pluginMap →
  (∀ k e, (k, e) ∈ pluginMap' → ∃ e0, (k, e0) ∈ pluginMap
                                   ∧ PluginEntry.name e = PluginEntry.name e0) →
  registry_wf σ'.
Proof.
  intros Hwf Hm Hm' Hkeys Hentries pm Hpm. rewrite Hm' in Hpm. injection Hpm as <-.
  destruct (Hwf _ Hm) as [Hnodup Hnamed]. split; [by rewrite Hkeys|].
  intros k e (e0 & Hin & ->)%Hentries. by apply Hnamed.
Qed.

Lemma add_destroyed pluginConfig σ :
  _pluginMap (this σ) = None → PluginManager.add pluginConfig σ = (Throw Destroyed, σ).
Proof.
  intros Hm. unfold PluginManager.add, get_this. rewrite bind_run. cbv beta iota.
  by rewrite Hm.
Qed.

Lemma registry_wf_add pluginConfig σ :
  registry_wf σ → registry_wf (PluginManager.add pluginConfig σ).2.
Proof.
  intros Hwf. destruct (_pluginMap (this σ)) as [pluginMap|] eqn:Hm.
  - destruct pluginConfig as [cfg|].
    + destruct (PluginManager.add (Some cfg) σ) as [r σ'] eqn:Hrun.
      destruct (add_inv _ _ _ _ _ Hm Hrun)
        as [[-> _]|(name & entry & _ & Hthis & _ & Hn & _)]; [done|].
      simpl. eapply registry_wf_set; [done..|]. by rewrite Hthis.
    + unfold PluginManager.add, get_this. rewrite bind_run. cbv beta iota.
      by rewrite Hm.
  - by rewrite add_destroyed.
Qed.

Lemma registry_wf_perform op σ : registry_wf σ → registry_wf (perform op σ).2.
Proof.
  intros Hwf. destruct op; simpl.
  - by apply registry_wf_add.
  - (* addAll *)
    unfold PluginManager.addAll, get_this. rewrite bind_run. cbv beta iota.
    destruct (_pluginMap (this σ)) as [pluginMap|] eqn:Hm; [|done].
    destruct pluginConfigs as [|cfgs|]; try done. clear pluginMap Hm.
    revert σ Hwf. induction cfgs as [|cfg cfgs IH]; intros σ Hwf; [done|].
    simpl. rewrite bind_run.
    pose proof (registry_wf_add cfg σ Hwf) as H1.
    destruct (PluginManager.add cfg σ) as [[[]|e] σ1]; [|done]. by apply IH.
  - (* remove *)
    rewrite bind_run.
    destruct (PluginManager.remove pluginName σ) as [[b|e] σ'] eqn:Hrun; simpl.
    all: destruct (_pluginMap (this σ)) as [pluginMap|] eqn:Hm;
      [|unfold PluginManager.remove, get_this in Hrun; rewrite bind_run in Hrun;
        cbv beta iota in Hrun; rewrite Hm, throw_run in Hrun; by simplify_eq].
    all: destruct (remove_inv _ _ _ _ _ Hm Hrun)
      as [(_ & _ & ->)|(name & entry & -> & _ & _ & [(e' & _ & Hthis)|(_ & Hthis & _)])];
      try done.
    all: try (eapply registry_wf_same; [|done]; by rewrite Hthis).
    all: eapply registry_wf_delete; [done..|]; by rewrite Hthis.
  - (* removeAll *)
    destruct (PluginManager.removeAll σ) as [r σ'] eqn:Hrun; simpl.
    destruct (_pluginMap (this σ)) as [pluginMap|] eqn:Hm;
      [|unfold PluginManager.removeAll, get_this in Hrun; rewrite bind_run in Hrun;
        cbv beta iota in Hrun; rewrite Hm, throw_run in Hrun; by simplify_eq].
    destruct (removeAll_inv _ _ _ _ Hm Hrun) as [_ [(e & _ & Hthis)|(_ & Hthis & _)]].
    + eapply registry_wf_same; [|done]. by rewrite Hthis.
    + intros pm Hpm. rewrite Hthis in Hpm. injection Hpm as <-.
      split; [apply NoDup_nil_2|]. by intros k e ?%elem_of_nil.
  - (* destroy *)
    unfold PluginManager.destroy, get_this. rewrite bind_run. cbv beta iota.
    destruct (_pluginMap (this σ)) as [pluginMap|] eqn:Hm; [|done].
    rewrite bind_run.
    destruct (PluginManager.removeAll σ) as [[[]|e] σ1] eqn:Hrun; simpl.
    2:{ destruct (removeAll_inv _ _ _ _ Hm Hrun) as [_ [(e' & _ & Hthis)|(? & _)]];
          [|done]. eapply registry_wf_same; [|done]. by rewrite Hthis. }
    destruct (removeAll_inv _ _ _ _ Hm Hrun) as [_ [(e' & ? & _)|(_ & Hthis & _)]];
      [done|].
    rewrite bind_run. cbv beta iota. rewrite bind_run.
    match goal with
    | |- context [(if ?b then ?c else mret ()) σ1] =>
        assert (keeps_registry (if b then c else mret ())) as Hk
          by (keeps_registry);
        specialize (Hk σ1);
        destruct ((if b then c else mret ()) σ1) as [[[]|e] σ2]
    end; simpl in *.
    + intros pm Hpm. done.
    + intros pm Hpm. rewrite Hk, Hthis in Hpm. injection Hpm as <-.
      split; [apply NoDup_nil_2|]. by intros k e' ?%elem_of_nil.
  - (* enablePlugin *)
    rewrite bind_run. unfold PluginManager.enablePlugin, get_this.
    rewrite bind_run. cbv beta iota.
    destruct (_pluginMap (this σ)) as [pluginMap|] eqn:Hm; [|done].
    destruct pluginName as [| | | |name| | | |]; try done.
    destruct enabled as [| |b| | | | | |]; try done.
    destruct (Map_get pluginMap (VStr name)); [|done].
    eapply registry_wf_alter; [done..|]. done.
  - (* enablePlugins *)
    rewrite bind_run. unfold PluginManager.enablePlugins, get_this.
    rewrite bind_run. cbv beta iota.
    destruct (_pluginMap (this σ)) as [pluginMap|] eqn:Hm; [|done].
    destruct enabled as [| |b| | | | | |]; try done.
    rewrite bind_run.
    destruct (PluginManager.iterate pluginNames σ) as [r σ1] eqn:Hnames.
    assert (σ1 = σ) as ->.
    { unfold PluginManager.iterate in Hnames.
      destruct pluginNames; rewrite ?ret_run, ?throw_run in Hnames; by simplify_eq. }
    destruct r as [names|e]; [|done].
    destruct (enablePlugins_loop b names true σ pluginMap Hm)
      as (σ' & pm' & Hloop & _ & Hm' & Hkeys & Hget).
    rewrite Hloop. simpl. eapply registry_wf_keys; [done..|].
    intros k e Hin.
    assert (NoDup (Map_keys pm')) as Hnodup
      by (rewrite Hkeys; by apply (Hwf pluginMap)).
    assert (Map_get pm' (VStr k) = Some e) as Hk.
    { simpl. clear -Hin Hnodup. unfold Map_keys in Hnodup.
      induction pm' as [|[k0 e0] pm' IH]; [by apply elem_of_nil in Hin|].
      rewrite fmap_cons in Hnodup. apply NoDup_cons in Hnodup as [Hk0 Hnodup].
      simpl. apply elem_of_cons in Hin as [[= <- <-]|Hin].
      - by rewrite bool_decide_eq_true_2.
      - rewrite bool_decide_eq_false_2; [by apply IH|].
        intros ->. apply Hk0. apply list_elem_of_fmap. by exists (k, e). }
    rewrite Hget in Hk.
    destruct (Map_get pluginMap (VStr k)) as [e0|] eqn:Hk0;
      [|by case_bool_decide].
    exists e0. split; [by apply assoc_elem_of|].
    case_bool_decide; by simplify_eq/=.
  - (* enableAllPlugins *)
    unfold PluginManager.enableAllPlugins, get_this. rewrite bind_run. cbv beta iota.
    destruct (_pluginMap (this σ)) as [pluginMap|] eqn:Hm; [|done].
    destruct enabled as [| |b| | | | | |]; try done.
    eapply registry_wf_keys; [done..| |].
    + unfold Map_keys. by rewrite <-list_fmap_compose.
    + intros k e ([k0 e0] & [= -> ->] & Hin)%list_elem_of_fmap. by exists e0.
  - rewrite bind_run.
    pose proof (keeps_this_invokeSync nameOrList methodName args σ) as H.
    destruct (PluginManager.invokeSync _ _ _ σ) as [[r|e] σ']; simpl in *;
      (eapply registry_wf_same; [|done]); by rewrite H.
  - rewrite bind_run.
    pose proof (keeps_this_invokeAsync nameOrList methodName args σ) as H.
    destruct (PluginManager.invokeAsync _ _ _ σ) as [[r|e] σ']; simpl in *;
      (eapply registry_wf_same; [|done]); by rewrite H.
  - rewrite bind_run.
    pose proof (keeps_this_invokeSyncEvent methodName copyProps passthruProps
                  nameOrList σ) as H.
    destruct (PluginManager.invokeSyncEvent _ _ _ _ σ) as [[r|e] σ']; simpl in *;
      (eapply registry_wf_same; [|done]); by rewrite H.
  - rewrite bind_run. unfold PluginManager.getOptions, get_this.
    rewrite bind_run. cbv beta iota.
    destruct (_pluginMap (this σ)) as [pluginMap|] eqn:Hm; [|done].
    rewrite new_cell_run. simpl. eapply registry_wf_same; [|done]. done.
  - rewrite bind_run. unfold PluginManager.getPluginOptions, get_this.
    rewrite bind_run. cbv beta iota.
    destruct (_pluginMap (this σ)) as [pluginMap|] eqn:Hm; [|done].
    destruct (negb _); [done|].
    destruct (Map_get pluginMap pluginName) as [entry|]; [|done].
    rewrite on_store_run.
    destruct (json_copy _ _) as [[v|e] h]; simpl;
      (eapply registry_wf_same; [|done]); done.
  - eapply registry_wf_same; [|done]. apply keeps_registry_setOptions.
  - eapply registry_wf_same; [|done]. apply keeps_registry_setEventbus.
  - eapply registry_wf_same; [|done]. f_equal.
    assert (keeps_this (PluginManager.getEventbus;; mret ())) as H; [|apply H].
    unfold PluginManager.getEventbus. keeps_this.
  - eapply registry_wf_same; [|done]. f_equal.
    assert (keeps_this (PluginManager.getPluginNames enabled;; mret ())) as H;
      [|apply H].
    unfold PluginManager.getPluginNames. keeps_this.
  - rewrite bind_run. pose proof (hasMethod_state methodName σ) as H.
    destruct (PluginManager.hasMethod methodName σ) as [[b|e] σ']; simpl in *;
      by subst σ'.
  - eapply registry_wf_same; [|done]. f_equal.
    assert (keeps_this (PluginManager.hasPlugin pluginName;; mret ())) as H;
      [|apply H].
    unfold PluginManager.hasPlugin. keeps_this.
  - eapply registry_wf_same; [|done]. f_equal.
    assert (keeps_this (PluginManager.hasPluginMethod pluginName methodName;;
                        mret ())) as H; [|apply H].
    unfold PluginManager.hasPluginMethod. keeps_this.
Qed.

Lemma registry_wf_session ops σ : registry_wf σ → registry_wf (session ops σ).
Proof.
  revert σ. induction ops as [|op ops IH]; intros σ Hwf; [done|].
  simpl. apply IH. by apply registry_wf_perform.
Qed.

Lemma registry_wf_constructor options modules :
  registry_wf (PluginManager.constructor options (boot modules)).2.
Proof.
  destruct options as [o|]; [|done]. unfold PluginManager.constructor.
  rewrite bind_run. unfold set_this at 1. cbv beta iota.
  set (σ1 := {| this := _ |}).
  assert (registry_wf σ1) as Hwf.
  { intros pm [= <-]. split; [apply NoDup_nil_2|]. by intros k e ?%elem_of_nil. }
  eapply registry_wf_same; [|exact Hwf].
  match goal with
  | |- _pluginMap (this (?c σ1).2) = _ => assert (keeps_registry c) as H
  end; [|apply H].
  apply keeps_registry_bind; [|intros; apply keeps_registry_setOptions].
  destruct (String.eqb _ _); [apply keeps_registry_setEventbus|].
  intros ?; reflexivity.
Qed.

(** X16. From [new PluginManager(options)] on, whatever public methods are
    called in whatever order ([getMethodNames] and [getPluginMethodNames]
    apart, which only read), and whether they return or throw, the registry
    never holds a name twice and every entry is filed under its own name.
    Plugins act on the objects they are handed; they do not call the
    manager. *)
Theorem registry_stays_well_formed options modules ops :
  registry_wf (session ops (PluginManager.constructor options (boot modules)).2).
Proof. apply registry_wf_session, registry_wf_constructor. Qed.

(** ** hasMethod and hasPlugin *)

Lemma hasMethod_inv σ pluginMap methodName r σ' :
  _pluginMap (this σ) = Some pluginMap →
  PluginManager.hasMethod (VStr methodName) σ = (r, σ') →
  σ' = σ
  ∧ (∀ b, r = Normal b → (b = true ↔ offered pluginMap methodName))
  ∧ (instances_are_objects pluginMap → ∃ b, r = Normal b).
Proof.
  intros Hm. unfold PluginManager.hasMethod, get_this. rewrite bind_run.
  cbv beta iota. rewrite Hm. unfold offered, instances_are_objects. clear Hm.
  unfold Map_values. revert r σ'.
  induction pluginMap as [|[k e] pluginMap IH]; intros r σ'.
  - simpl. rewrite ret_run. intros [= <- <-]. split; [done|]. split; [|by eauto].
    intros b [= <-]. split; [done|]. by intros (? & ? & ?%elem_of_nil & _).
  - rewrite fmap_cons. cbn [snd].
    destruct (PluginEntry.instance e) as [|member] eqn:He.
    + rewrite throw_run. intros [= <- <-]. split; [done|]. split; [done|].
      intros Hobj. destruct (Hobj k e); [by left|done].
    + case_bool_decide as Hmem.
      * rewrite ret_run. intros [= <- <-]. split; [done|]. split; [|by eauto].
        intros b [= <-]. split; [|done]. intros _. exists k, e.
        split; [by left|]. by rewrite He.
      * intros Hrun. destruct (IH _ _ Hrun) as (-> & Hb & Hobj).
        split; [done|]. split.
        -- intros b Hr. rewrite (Hb b Hr). split.
           ++ intros (n & e' & Hin & Hsome). exists n, e'. split; [by right|done].
           ++ intros (n & e' & [[= -> ->]|Hin]%elem_of_cons & Hsome).
              ** rewrite He in Hsome. done.
              ** by exists n, e'.
        -- intros Hall. apply Hobj. intros n e' Hin. apply (Hall n e'). by right.
Qed.

(** X17. [hasMethod(methodName)] leaves the manager as it is, and when it
    answers, the answer is [true] exactly when some registered plugin,
    enabled or not, has [methodName] as a function; it does answer when no
    plugin was registered with a [null] instance. *)
Theorem hasMethod_answers_for_some_plugin σ pluginMap methodName r σ' :
  _pluginMap (this σ) = Some pluginMap →
  PluginManager.hasMethod (VStr methodName) σ = (r, σ') →
  σ' = σ
  ∧ (∀ b, r = Normal b → (b = true ↔ offered pluginMap methodName))
  ∧ (instances_are_objects pluginMap → ∃ b, r = Normal b).
Proof. apply hasMethod_inv. Qed.

Lemma hasMethod_answers_for_some_plugin_witness :
  PluginManager.hasMethod (VStr "test") two_counters = (Normal true, two_counters).
Proof.
  destruct (PluginManager.hasMethod (VStr "test") two_counters) as [r σ'] eqn:Hrun.
  assert (r = (PluginManager.hasMethod (VStr "test") two_counters).1) as Hr
    by (by rewrite Hrun).
  vm_compute in Hr. subst r.
  pose (eA := PluginEntry.constructor "A" "instance" counter VUndefined VUndefined).
  pose (eB := PluginEntry.constructor "B" "instance" counter VUndefined VUndefined).
  assert (_pluginMap (this two_counters) = Some [("A", eA); ("B", eB)]) as Hm
    by reflexivity.
  destruct (hasMethod_answers_for_some_plugin two_counters [("A", eA); ("B", eB)]
              "test" (Normal true) σ' Hm Hrun) as (-> & _).
  reflexivity.
Defined.

(** X18. [hasPlugin(name)] is [true] exactly for the names that
    [getPluginNames()] lists, and neither call changes the manager. *)
Theorem hasPlugin_agrees_with_getPluginNames σ pluginMap name :
  _pluginMap (this σ) = Some pluginMap →
  ∃ names, PluginManager.getPluginNames VUndefined σ = (Normal names, σ)
    ∧ PluginManager.hasPlugin (VStr name) σ = (Normal (bool_decide (name ∈ names)), σ).
Proof.
  intros Hm. exists (Map_keys pluginMap).
  by rewrite (getPluginNames_run _ _ Hm), (hasPlugin_run _ _ _ Hm).
Qed.

Lemma hasPlugin_agrees_with_getPluginNames_witness :
  ∃ names, PluginManager.getPluginNames VUndefined two_counters
           = (Normal names, two_counters)
    ∧ PluginManager.hasPlugin (VStr "A") two_counters
      = (Normal (bool_decide ("A" ∈ names)), two_counters).
Proof.
  pose (eA := PluginEntry.constructor "A" "instance" counter VUndefined VUndefined).
  pose (eB := PluginEntry.constructor "B" "instance" counter VUndefined VUndefined).
  assert (_pluginMap (this two_counters) = Some [("A", eA); ("B", eB)]) as Hm
    by reflexivity.
  exact (hasPlugin_agrees_with_getPluginNames two_counters [("A", eA); ("B", eB)]
           "A" Hm).
Defined.

(** ** The eventbus *)

Lemma off_all_run b (cs : list (string * handler)) σ :
  ∃ σ', for_of (λ c _, eventbus_off (VBus b) c.1 c.2) cs tt σ = (Normal tt, σ')
    ∧ this σ' = this σ ∧ store σ' = store σ ∧ trace σ' = trace σ
    ∧ subscriptions σ'
      = filter (λ s, s ∉ (λ c : string * handler, (b, c.1, c.2)) <$> cs)
               (subscriptions σ).
Proof.
  revert σ. induction cs as [|c cs IH]; intros σ.
  - exists σ. repeat split. symmetry. apply filter_all.
    by intros s _ ?%elem_of_nil.
  - cbn [for_of]. rewrite bind_run. unfold eventbus_off at 1, set_subscriptions.
    cbv beta iota. set (σ1 := {| this := this σ |}).
    destruct (IH σ1) as (σ' & -> & Hthis & Hstore & Htrace & Hsubs).
    exists σ'. repeat split; try done.
    rewrite Hsubs. simpl. rewrite list_filter_filter. apply list_filter_iff.
    intros s. rewrite not_elem_of_cons. tauto.
Qed.

Lemma on_all_run b (cs : list (string * handler)) σ :
  ∃ σ', for_of (λ c _, eventbus_on (VBus b) c.1 c.2) cs tt σ = (Normal tt, σ')
    ∧ this σ' = this σ ∧ store σ' = store σ ∧ trace σ' = trace σ
    ∧ subscriptions σ'
      = subscriptions σ ++ ((λ c : string * handler, (b, c.1, c.2)) <$> cs).
Proof.
  revert σ. induction cs as [|c cs IH]; intros σ.
  - exists σ. repeat split. by rewrite app_nil_r.
  - cbn [for_of]. rewrite bind_run. unfold eventbus_on at 1, set_subscriptions.
    cbv beta iota. set (σ1 := {| this := this σ |}).
    destruct (IH σ1) as (σ' & -> & Hthis & Hstore & Htrace & Hsubs).
    exists σ'. repeat split; try done.
    rewrite Hsubs. simpl. by rewrite <-app_assoc.
Qed.

Lemma off_all_throw v (cs : list (string * handler)) σ :
  (∀ b, v ≠ VBus b) → cs ≠ [] →
  ∃ e, for_of (λ c _, eventbus_off v c.1 c.2) cs tt σ = (Throw e, σ).
Proof.
  intros Hv Hcs. destruct cs as [|c cs]; [done|]. cbn [for_of]. rewrite bind_run.
  destruct v as [| | | | | |b| |]; try (by eexists). by destruct (Hv b).
Qed.

Lemma destroy_inv σ pluginMap r σ' :
  _pluginMap (this σ) = Some pluginMap →
  PluginManager.destroy σ = (r, σ') →
  (r = Normal tt
   ∧ _pluginMap (this σ') = None ∧ _eventbus (this σ') = VNull
   ∧ (∀ b, _eventbus (this σ) = VBus b →
        subscriptions σ'
        = filter (λ s, s ∉ commands b (template (_eventPrepend (this σ))))
                 (subscriptions σ))
   ∧ ∃ ev, trace σ' = trace σ
                      ++ called "onPluginUnload" pluginMap [ev]
                           (VStr <$> Map_keys pluginMap))
  ∨ (∃ e, r = Throw e
     ∧ _pluginMap (this σ') ≠ None
     ∧ _eventbus (this σ') = _eventbus (this σ)
     ∧ subscriptions σ' = subscriptions σ).
Proof.
  intros Hm. unfold PluginManager.destroy, get_this. rewrite bind_run.
  cbv beta iota. rewrite Hm. rewrite bind_run.
  destruct (PluginManager.removeAll σ) as [[[]|e] σ1] eqn:Hrun.
  2:{ intros [= <- <-]. right. exists e.
      destruct (removeAll_inv _ _ _ _ Hm Hrun) as [Hsubs [(e' & _ & Hthis)|(? & _)]];
        [|done].
      rewrite Hthis, Hm. done. }
  destruct (removeAll_inv _ _ _ _ Hm Hrun)
    as [Hsubs [(e' & ? & _)|(_ & Hthis & ev & Htrace)]]; [done|].
  rewrite bind_run. cbv beta iota. rewrite bind_run.
  assert (_eventbus (this σ1) = _eventbus (this σ)) as Hbus by by rewrite Hthis.
  assert (_eventPrepend (this σ1) = _eventPrepend (this σ)) as Hprepend
    by by rewrite Hthis.
  assert (_pluginMap (this σ1) ≠ None) as Hlive by by rewrite Hthis.
  rewrite Hbus, Hprepend.
  set (cs := command_surface (template (_eventPrepend (this σ)))).
  assert (cs ≠ []) as Hcs by done.
  set (guard := negb (strict_eq (_eventbus (this σ)) VNull)
                && negb (String.eqb (typeof (_eventbus (this σ))) "undefined")).
  assert ((∃ b, _eventbus (this σ) = VBus b)
          ∨ guard = false
          ∨ guard = true ∧ ∀ b, _eventbus (this σ) ≠ VBus b) as Hcases.
  { subst guard. destruct (_eventbus (this σ)); eauto. }
  destruct Hcases as [[b Hb]|[Hg|[Hg Hb]]].
  - assert (guard = true) as -> by (subst guard; by rewrite Hb).
    rewrite Hb.
    destruct (off_all_run b cs σ1) as (σ2 & Hoff & Hthis2 & _ & Htrace2 & Hsubs2).
    rewrite Hoff. intros [= <- <-]. left.
    split; [done|]. split; [done|]. split; [done|]. split.
    + intros b' Hb'. assert (b' = b) as -> by congruence.
      cbn [subscriptions]. by rewrite Hsubs2, Hsubs.
    + exists ev. cbn [trace]. by rewrite Htrace2.
  - rewrite Hg. intros [= <- <-]. left.
    split; [done|]. split; [done|]. split; [done|]. split.
    + intros b Hb. subst guard. by rewrite Hb in Hg.
    + by exists ev.
  - rewrite Hg.
    destruct (off_all_throw (_eventbus (this σ)) cs σ1 Hb Hcs) as [e ->].
    intros [= <- <-]. right. by exists e.
Qed.

(** X19. [destroy()] on a live manager either returns, and then the registry
    and the eventbus are gone ([null]), every enabled plugin that has an
    [onPluginUnload] was sent it, in registration order, and the eventbus,
    if there was one, has lost the manager's commands and nothing else; or
    it throws, and then the manager is not destroyed: it keeps its eventbus
    and all its subscriptions. *)
Theorem destroy_unloads_and_unbinds σ pluginMap r σ' :
  _pluginMap (this σ) = Some pluginMap →
  PluginManager.destroy σ = (r, σ') →
  (r = Normal tt
   ∧ _pluginMap (this σ') = None ∧ _eventbus (this σ') = VNull
   ∧ (∀ b, _eventbus (this σ) = VBus b →
        subscriptions σ'
        = filter (λ s, s ∉ commands b (template (_eventPrepend (this σ))))
                 (subscriptions σ))
   ∧ ∃ ev, trace σ' = trace σ
                      ++ called "onPluginUnload" pluginMap [ev]
                           (VStr <$> Map_keys pluginMap))
  ∨ (∃ e, r = Throw e
     ∧ _pluginMap (this σ') ≠ None
     ∧ _eventbus (this σ') = _eventbus (this σ)
     ∧ subscriptions σ' = subscriptions σ).
Proof. apply destroy_inv. Qed.

Lemma destroy_unloads_and_unbinds_witness :
  (PluginManager.destroy on_bus).1 = Normal tt
  ∧ _pluginMap (this (PluginManager.destroy on_bus).2) = None
  ∧ subscriptions (PluginManager.destroy on_bus).2 = [].
Proof.
  destruct (PluginManager.destroy on_bus) as [r σ'] eqn:Hrun.
  assert (r = (PluginManager.destroy on_bus).1) as Hr by (by rewrite Hrun).
  vm_compute in Hr. subst r.
  pose (eA := PluginEntry.constructor "A" "instance" counter (VProxy (VBus 0)) VUndefined).
  assert (_pluginMap (this on_bus) = Some [("A", eA)]) as Hm by reflexivity.
  destruct (destroy_unloads_and_unbinds on_bus [("A", eA)] (Normal tt) σ' Hm Hrun)
    as [(_ & Hgone & _ & Hsubs & _)|(e & ? & _)]; [|done].
  split; [done|]. split; [exact Hgone|].
  cbn [snd]. rewrite (Hsubs 0 eq_refl). reflexivity.
Defined.

(** ** After [destroy] *)







(** ** The options of the manager *)

Lemma setOptions_getOptions_run σ pluginMap options :
  _pluginMap (this σ) = Some pluginMap →
  let old := _options (this σ) in
  let o := fresh (dom (store σ)) in
  ∃ σ', (PluginManager.setOptions (Some options);; PluginManager.getOptions) σ
        = (Normal (VRef o), σ')
    ∧ store σ !! o = None
    ∧ store σ'
      = <[o := plain (<["noEventAdd" := VBool (flag (arg_noEventAdd options)
                                                    (noEventAdd old))]>
                      (<["noEventRemoval" := VBool (flag (arg_noEventRemoval options)
                                                         (noEventRemoval old))]>
                       (<["throwNoMethod" := VBool (flag (arg_throwNoMethod options)
                                                         (throwNoMethod old))]>
                        (<["throwNoPlugin" := VBool (flag (arg_throwNoPlugin options)
                                                          (throwNoPlugin old))]>
                           ∅))))]> (store σ)
    ∧ _pluginMap (this σ') = Some pluginMap
    ∧ _eventbus (this σ') = _eventbus (this σ)
    ∧ subscriptions σ' = subscriptions σ ∧ trace σ' = trace σ.
Proof.
  intros Hm old o. rewrite bind_run. unfold PluginManager.setOptions, get_this.
  rewrite bind_run. cbv beta iota. unfold set_this at 1.
  unfold PluginManager.getOptions, get_this. rewrite bind_run. cbv beta iota.
  cbn [this PluginManager.with_options _pluginMap]. rewrite Hm.
  rewrite new_cell_run. eexists. split; [reflexivity|].
  split; [|by repeat split].
  apply not_elem_of_dom, is_fresh.
Qed.

(** X22. [setOptions(options)] followed by [getOptions()] on a live manager:
    each of the four flags is the one given if it was given as a boolean and
    the old one otherwise, and the flags come back in a new object; the
    registry, the eventbus and its subscriptions stay as they were and no
    plugin is called. *)
Theorem setOptions_then_getOptions σ pluginMap options :
  _pluginMap (this σ) = Some pluginMap →
  let old := _options (this σ) in
  let o := fresh (dom (store σ)) in
  ∃ σ', (PluginManager.setOptions (Some options);; PluginManager.getOptions) σ
        = (Normal (VRef o), σ')
    ∧ store σ !! o = None
    ∧ store σ'
      = <[o := plain (<["noEventAdd" := VBool (flag (arg_noEventAdd options)
                                                    (noEventAdd old))]>
                      (<["noEventRemoval" := VBool (flag (arg_noEventRemoval options)
                                                         (noEventRemoval old))]>
                       (<["throwNoMethod" := VBool (flag (arg_throwNoMethod options)
                                                         (throwNoMethod old))]>
                        (<["throwNoPlugin" := VBool (flag (arg_throwNoPlugin options)
                                                          (throwNoPlugin old))]>
                           ∅))))]> (store σ)
    ∧ _pluginMap (this σ') = Some pluginMap
    ∧ _eventbus (this σ') = _eventbus (this σ)
    ∧ subscriptions σ' = subscriptions σ ∧ trace σ' = trace σ.
Proof. apply setOptions_getOptions_run. Qed.

Lemma setOptions_then_getOptions_witness :
  ∃ o σ', (PluginManager.setOptions (Some strict_options);; PluginManager.getOptions)
            two_counters = (Normal (VRef o), σ')
    ∧ get_prop (default (plain ∅) (store σ' !! o)) "throwNoPlugin" = VBool true
    ∧ get_prop (default (plain ∅) (store σ' !! o)) "noEventAdd" = VBool false.
Proof.
  pose (eA := PluginEntry.constructor "A" "instance" counter VUndefined VUndefined).
  pose (eB := PluginEntry.constructor "B" "instance" counter VUndefined VUndefined).
  assert (_pluginMap (this two_counters) = Some [("A", eA); ("B", eB)]) as Hm
    by reflexivity.
  destruct (setOptions_then_getOptions two_counters [("A", eA); ("B", eB)]
              strict_options Hm) as (σ' & Hrun & _ & Hstore & _).
  eexists _, σ'. split; [exact Hrun|].
  rewrite Hstore, lookup_insert_eq. split; reflexivity.
Defined.

(** ** setEventbus *)

Lemma setEventbus_empty σ b eventPrepend prefix :
  _pluginMap (this σ) = Some [] →
  (_eventbus (this σ) = VNull ∨ ∃ b0, _eventbus (this σ) = VBus b0 ∧ b0 ≠ b) →
  prepend_of eventPrepend = VStr prefix →
  ∃ σ', PluginManager.setEventbus (VBus b) eventPrepend σ = (Normal tt, σ')
    ∧ PluginManager.getEventbus σ' = (Normal (VBus b), σ')
    ∧ _eventPrepend (this σ') = VStr prefix
    ∧ subscriptions σ' = unbind (this σ) (subscriptions σ) ++ commands b prefix
    ∧ _pluginMap (this σ') = Some [] ∧ _options (this σ') = _options (this σ)
    ∧ store σ' = store σ ∧ trace σ' = trace σ.
Proof.
  intros Hm Hold Hprefix. unfold PluginManager.setEventbus, get_this.
  rewrite bind_run. cbv beta iota. rewrite Hm.
  unfold prepend_of in Hprefix. rewrite Hprefix.
  change (negb (String.eqb (typeof (VBus b)) "object")) with false. cbv iota.
  assert (strict_eq (VBus b) (_eventbus (this σ)) = false) as ->.
  { apply bool_decide_eq_false_2. destruct Hold as [->|(b0 & -> & ?)]; congruence. }
  rewrite bind_run. unfold set_this at 1. cbv beta iota.
  set (σ1 := {| this := _ |}).
  change (bool_decide (0 < length (@nil (string * PluginEntry.t)))) with false.
  cbv iota. rewrite bind_run, ret_run. cbv beta iota. rewrite bind_run.
  set (off := for_of _ (command_surface (template (_eventPrepend (this σ)))) ()).
  assert (∃ σ2, (if negb (strict_eq (_eventbus (this σ)) VNull) then off
                 else mret ()) σ1 = (Normal tt, σ2)
            ∧ this σ2 = this σ1 ∧ store σ2 = store σ ∧ trace σ2 = trace σ
            ∧ subscriptions σ2 = unbind (this σ) (subscriptions σ))
    as (σ2 & -> & Hthis2 & Hstore2 & Htrace2 & Hsubs2).
  { unfold unbind. destruct Hold as [Hnull|(b0 & Hb0 & _)].
    - rewrite Hnull. exists σ1. by repeat split.
    - rewrite Hb0. change (negb (strict_eq (VBus b0) VNull)) with true. cbv iota.
      subst off. rewrite Hb0.
      destruct (off_all_run b0 (command_surface (template (_eventPrepend (this σ)))) σ1)
        as (σ2 & Hoff & ? & ? & ? & ?).
      exists σ2. by repeat split. }
  cbv beta iota. rewrite bind_run.
  destruct (on_all_run b (command_surface prefix) σ2)
    as (σ3 & -> & Hthis3 & Hstore3 & Htrace3 & Hsubs3).
  cbv beta iota. rewrite bind_run. cbv beta iota. unfold set_this.
  eexists. split; [reflexivity|].
  unfold PluginManager.getEventbus, get_this. rewrite bind_run. cbv beta iota.
  cbn [this store trace subscriptions PluginManager.with_eventbus _pluginMap
       _eventbus _eventPrepend _options].
  rewrite Hthis3, Hthis2.
  assert (_pluginMap (this σ1) = Some []) as Hm1 by exact Hm.
  rewrite Hm1.
  split; [done|]. split; [done|]. split.
  { rewrite Hsubs3, Hsubs2. done. }
  repeat split; congruence.
Qed.

(** X23. [setEventbus(bus, eventPrepend)] on a manager without plugins, for
    a bus other than the current one: the manager's eighteen commands are
    taken off the old bus under the old prefix and put on the new bus under
    the new prefix (['plugins'] if none is given), after which [getEventbus()]
    returns the new bus; nothing else changes. *)
Theorem setEventbus_moves_the_commands σ b eventPrepend prefix :
  _pluginMap (this σ) = Some [] →
  (_eventbus (this σ) = VNull ∨ ∃ b0, _eventbus (this σ) = VBus b0 ∧ b0 ≠ b) →
  prepend_of eventPrepend = VStr prefix →
  ∃ σ', PluginManager.setEventbus (VBus b) eventPrepend σ = (Normal tt, σ')
    ∧ PluginManager.getEventbus σ' = (Normal (VBus b), σ')
    ∧ _eventPrepend (this σ') = VStr prefix
    ∧ subscriptions σ' = unbind (this σ) (subscriptions σ) ++ commands b prefix
    ∧ _pluginMap (this σ') = Some [] ∧ _options (this σ') = _options (this σ)
    ∧ store σ' = store σ ∧ trace σ' = trace σ.
Proof. apply setEventbus_empty. Qed.

Lemma setEventbus_moves_the_commands_witness :
  let σ := (run no_modules (bus_options false) (mret tt)).2 in
  ∃ σ', PluginManager.setEventbus (VBus 1) (VStr "other") σ = (Normal tt, σ')
    ∧ subscriptions σ' = commands 1 "other".
Proof.
  intros σ.
  destruct (setEventbus_moves_the_commands σ 1 (VStr "other") "other")
    as (σ' & Hrun & _ & _ & Hsubs & _).
  - reflexivity.
  - right. exists 0. split; [reflexivity|done].
  - reflexivity.
  - exists σ'. split; [exact Hrun|]. rewrite Hsubs. vm_compute. reflexivity.
Defined.

Lemma setEventbus_with_plugins σ pluginMap targetEventbus eventPrepend prefix r σ' :
  _pluginMap (this σ) = Some pluginMap → pluginMap ≠ [] →
  typeof targetEventbus = "object" → targetEventbus ≠ _eventbus (this σ) →
  prepend_of eventPrepend = VStr prefix →
  PluginManager.setEventbus targetEventbus eventPrepend σ = (r, σ') →
  (∃ e, r = Throw e)
  ∧ _pluginMap (this σ') = Some pluginMap
  ∧ _eventbus (this σ') = _eventbus (this σ)
  ∧ subscriptions σ' = subscriptions σ
  ∧ _eventPrepend (this σ') = VStr prefix.
Proof.
  intros Hm Hne Hobj Hbus Hprefix. unfold PluginManager.setEventbus, get_this.
  rewrite bind_run. cbv beta iota. rewrite Hm.
  unfold prepend_of in Hprefix. rewrite Hprefix, Hobj.
  change (negb (String.eqb "object" "object")) with false. cbv iota.
  assert (strict_eq targetEventbus (_eventbus (this σ)) = false) as ->
    by by apply bool_decide_eq_false_2.
  rewrite bind_run. unfold set_this at 1. cbv beta iota.
  set (σ1 := {| this := _ |}).
  assert (bool_decide (0 < length pluginMap) = true) as ->.
  { apply bool_decide_eq_true_2. destruct pluginMap; [done|simpl; lia]. }
  rewrite bind_run. rewrite bind_run, new_cell_run. cbv beta iota.
  rewrite bind_run, new_cell_run. cbv beta iota. rewrite bind_run.
  match goal with
  | |- context [s_INVOKE_SYNC_EVENTS ?a ?b ?c ?d ?e ?f ?g ?s] =>
      pose proof (dispatch_keeps a b c d e f g s) as [Kthis Ksubs];
      destruct (s_INVOKE_SYNC_EVENTS a b c d e f g s) as [[payload|e0] σ2]
  end; cbn [snd] in Kthis, Ksubs.
  - destruct pluginMap as [|[k entry] pluginMap']; [done|].
    rewrite bind_run. unfold Map_values. rewrite fmap_cons. cbn [for_of snd].
    rewrite bind_run, bind_run. unfold EventProxy_destroy.
    destruct (is_EventProxy _); rewrite ret_run; cbv beta iota; rewrite throw_run;
      intros [= <- <-]; (split; [by eexists|]); rewrite Kthis, Ksubs; done.
  - intros [= <- <-]. split; [by eexists|]. rewrite Kthis, Ksubs. done.
Qed.

(** X24. [setEventbus] with a bus other than the current one never returns
    on a manager that has a plugin: the entries' [eventProxy] has a getter
    and no setter, so the assignment in the loop throws (if no plugin threw
    before from [onPluginUnload]).  The plugins stay registered, the
    manager stays on its old eventbus with its old subscriptions, but its
    event prefix is already the new one. *)
Theorem setEventbus_throws_with_plugins σ pluginMap targetEventbus eventPrepend
    prefix r σ' :
  _pluginMap (this σ) = Some pluginMap → pluginMap ≠ [] →
  typeof targetEventbus = "object" → targetEventbus ≠ _eventbus (this σ) →
  prepend_of eventPrepend = VStr prefix →
  PluginManager.setEventbus targetEventbus eventPrepend σ = (r, σ') →
  (∃ e, r = Throw e)
  ∧ _pluginMap (this σ') = Some pluginMap
  ∧ _eventbus (this σ') = _eventbus (this σ)
  ∧ subscriptions σ' = subscriptions σ
  ∧ _eventPrepend (this σ') = VStr prefix.
Proof. apply setEventbus_with_plugins. Qed.

Lemma setEventbus_throws_with_plugins_witness :
  is_TypeError (PluginManager.setEventbus (VBus 1) (VStr "other") on_bus).1
  ∧ _eventPrepend (this (PluginManager.setEventbus (VBus 1) (VStr "other") on_bus).2)
    = VStr "other"
  ∧ subscriptions (PluginManager.setEventbus (VBus 1) (VStr "other") on_bus).2
    = commands 0 "plugins".
Proof.
  destruct (PluginManager.setEventbus (VBus 1) (VStr "other") on_bus) as [r σ'] eqn:Hrun.
  assert (r = (PluginManager.setEventbus (VBus 1) (VStr "other") on_bus).1) as Hr
    by (by rewrite Hrun).
  vm_compute in Hr.
  pose (eA := PluginEntry.constructor "A" "instance" counter (VProxy (VBus 0)) VUndefined).
  assert (_pluginMap (this on_bus) = Some [("A", eA)]) as Hm by reflexivity.
  assert (_eventbus (this on_bus) = VBus 0) as Hb by reflexivity.
  assert (VBus 1 ≠ _eventbus (this on_bus)) as Hbus by (rewrite Hb; discriminate).
  assert ([("A", eA)] ≠ []) as Hne by discriminate.
  destruct (setEventbus_throws_with_plugins on_bus [("A", eA)] (VBus 1) (VStr "other")
              "other" r σ' Hm Hne eq_refl Hbus eq_refl Hrun)
    as (_ & _ & _ & Hsubs & Hprefix).
  split; [subst r; by eexists|]. split; [exact Hprefix|].
  cbn [snd]. rewrite Hsubs. vm_compute. reflexivity.
Defined.

(** ** Removal through the eventbus *)

Lemma append_inj (p a b : string) : (p ++ a = p ++ b)%string → a = b.
Proof. induction p as [|c p IH]; simpl; [done|]. intros [= H]. by apply IH. Qed.

Lemma commands_named b prefix sfx :
  filter (λ s, s.1 = (b, (prefix ++ sfx)%string)) (commands b prefix)
  = (λ c, (b, (prefix ++ c.1)%string, c.2)) <$> filter (λ c, c.1 = sfx) (command_surface "").
Proof.
  unfold commands.
  change (command_surface prefix)
    with ((λ c : string * handler, ((prefix ++ c.1)%string, c.2)) <$> command_surface "").
  induction (command_surface "") as [|[n h] l IH]; [done|].
  rewrite !fmap_cons, !filter_cons. cbn [fst snd].
  destruct (decide (n = sfx)) as [->|Hn].
  - rewrite decide_True by done. rewrite fmap_cons. by rewrite IH.
  - rewrite decide_False; [exact IH|]. intros [= H%append_inj]. done.
Qed.

Lemma trigger_one b name h args σ c :
  filter (λ s, s.1 = (b, name)) (subscriptions σ) = [(b, name, h)] →
  callback h args = Some c →
  eventbus_trigger b name args σ = Some ((c;; mret tt) σ).
Proof. intros Hf Hc. unfold eventbus_trigger. rewrite Hf. simpl. by rewrite Hc. Qed.

Lemma bound_filter b prefix sfx σ :
  filter (λ s, s.1.1 = b) (subscriptions σ) = commands b prefix →
  filter (λ s, s.1 = (b, (prefix ++ sfx)%string)) (subscriptions σ)
  = (λ c, (b, (prefix ++ c.1)%string, c.2)) <$> filter (λ c, c.1 = sfx) (command_surface "").
Proof.
  intros Hb. rewrite <-commands_named, <-Hb, list_filter_filter.
  apply list_filter_iff. intros [[b' n] h]. simpl. split; [|tauto].
  intros H. split; [done|]. by injection H.
Qed.

Lemma remove_events σ pluginMap b prefix pluginName :
  _pluginMap (this σ) = Some pluginMap →
  filter (λ s, s.1.1 = b) (subscriptions σ) = commands b prefix →
  eventbus_trigger b (prefix ++ ":remove")%string [Arg_value pluginName] σ
  = Some (if noEventRemoval (_options (this σ)) then (Normal tt, σ)
          else (PluginManager.remove pluginName;; mret tt) σ)
  ∧ eventbus_trigger b (prefix ++ ":remove:all")%string [] σ
    = Some (if noEventRemoval (_options (this σ)) then (Normal tt, σ)
            else PluginManager.removeAll σ).
Proof.
  intros Hm Hb. split.
  - rewrite (trigger_one b _ H_removeEventbus [Arg_value pluginName] σ
               (PluginManager._removeEventbus pluginName;; mret tt));
      [|rewrite (bound_filter _ _ _ _ Hb); reflexivity|reflexivity].
    f_equal. rewrite !bind_run.
    unfold PluginManager._removeEventbus, get_this. rewrite bind_run.
    cbv beta iota. rewrite Hm.
    destruct (noEventRemoval _); cbn [negb]; [done|].
    by destruct (PluginManager.remove pluginName σ) as [[?|?] ?].
  - rewrite (trigger_one b _ H_removeAllEventbus [] σ
               PluginManager._removeAllEventbus);
      [|rewrite (bound_filter _ _ _ _ Hb); reflexivity|reflexivity].
    f_equal. rewrite !bind_run.
    unfold PluginManager._removeAllEventbus, get_this. rewrite bind_run.
    cbv beta iota. rewrite Hm.
    destruct (noEventRemoval _); cbn [negb]; [done|].
    by destruct (PluginManager.removeAll σ) as [[[]|?] ?].
Qed.

(** X25. On a manager whose commands are on the bus, publishing
    ['<prefix>:remove'] with a plugin name does what [remove(name)] does and
    publishing ['<prefix>:remove:all'] does what [removeAll()] does; with
    [noEventRemoval] set both events leave everything as it is. *)
Theorem removal_events_do_what_the_methods_do σ pluginMap b prefix pluginName :
  _pluginMap (this σ) = Some pluginMap →
  filter (λ s, s.1.1 = b) (subscriptions σ) = commands b prefix →
  eventbus_trigger b (prefix ++ ":remove")%string [Arg_value pluginName] σ
  = Some (if noEventRemoval (_options (this σ)) then (Normal tt, σ)
          else (PluginManager.remove pluginName;; mret tt) σ)
  ∧ eventbus_trigger b (prefix ++ ":remove:all")%string [] σ
    = Some (if noEventRemoval (_options (this σ)) then (Normal tt, σ)
            else PluginManager.removeAll σ).
Proof. apply remove_events. Qed.

Lemma removal_events_do_what_the_methods_do_witness :
  eventbus_trigger 0 "plugins:remove" [Arg_value (VStr "A")] on_bus
  = Some ((PluginManager.remove (VStr "A");; mret tt) on_bus).
Proof.
  pose (eA := PluginEntry.constructor "A" "instance" counter (VProxy (VBus 0)) VUndefined).
  assert (_pluginMap (this on_bus) = Some [("A", eA)]) as Hm by reflexivity.
  assert (filter (λ s, s.1.1 = 0) (subscriptions on_bus) = commands 0 "plugins") as Hb
    by (vm_compute; reflexivity).
  destruct (removal_events_do_what_the_methods_do on_bus [("A", eA)] 0 "plugins"
              (VStr "A") Hm Hb) as [H _].
  assert (noEventRemoval (_options (this on_bus)) = false) as Hflag by reflexivity.
  rewrite Hflag in H. exact H.
Defined.

(** ** Payloads that JSON cannot write *)

Lemma ser_members_throw k rs : (k, SerThrow) ∈ rs → ser_members rs = None.
Proof.
  induction rs as [|[k' r] rs IH]; [by intros ?%elem_of_nil|].
  intros [[= <- <-]|Hin]%elem_of_cons; [done|].
  simpl. destruct r; [done|by apply IH|by rewrite IH].
Qed.

Lemma circular_stringify h v fuel : circular h v → stringify_fuel fuel h v = SerThrow.
Proof.
  intros (o & c & k & -> & Hc & Helems & Hk).
  induction fuel as [|fuel IH]; [done|].
  simpl. rewrite Hc, Helems.
  rewrite (ser_members_throw k); [done|].
  apply list_elem_of_In, in_map_iff. exists (k, VRef o). split.
  - simpl. by rewrite IH.
  - by apply list_elem_of_In, elem_of_map_to_list.
Qed.

Lemma circular_copy h v :
  circular h v →
  json_copy v h = (Throw (TypeError "Converting circular structure to JSON"), h).
Proof. intros H. unfold json_copy, JSON_stringify. by rewrite circular_stringify. Qed.

Lemma circular_alloc h v c :
  circular h v → circular (<[fresh (dom h) := c]> h) v.
Proof.
  intros (o & c' & k & -> & Hc & Helems & Hk). exists o, c', k.
  split; [done|]. split; [|done]. rewrite lookup_insert_ne; [done|].
  intros <-. apply (is_fresh (dom h)). by apply elem_of_dom.
Qed.

Lemma circular_object h v : circular h v → v ≠ VUndefined ∧ typeof v = "object".
Proof. by intros (o & c & k & -> & _). Qed.

Lemma default_object_run (v : value) σ :
  ∃ v' σ1,
    (if bool_decide (v = VUndefined) then new_cell (plain ∅) else mret v) σ
    = (Normal v', σ1)
    ∧ v' ≠ VUndefined ∧ trace σ1 = trace σ ∧ this σ1 = this σ
    ∧ (v ≠ VUndefined → v' = v ∧ σ1 = σ)
    ∧ (∀ u, circular (store σ) u → circular (store σ1) u).
Proof.
  case_bool_decide.
  - rewrite new_cell_run. eexists _, _. split; [done|]. repeat split; try done.
    intros u Hu. by apply circular_alloc.
  - exists v, σ. by repeat split.
Qed.

Lemma constructor_circular copyProps passthruProps σ :
  circular (store σ) copyProps → passthruProps ≠ VUndefined →
  ∃ σ', PluginEvent.constructor copyProps passthruProps σ
        = (Throw (TypeError "Converting circular structure to JSON"), σ')
    ∧ trace σ' = trace σ.
Proof.
  intros Hc Hp. unfold PluginEvent.constructor.
  destruct (circular_object _ _ Hc) as [Hu _].
  rewrite !bool_decide_eq_false_2 by done.
  rewrite bind_run, ret_run. cbv beta iota. rewrite bind_run, ret_run. cbv beta iota.
  rewrite bind_run, new_cell_run. cbv beta iota.
  rewrite bind_run, on_store_run.
  rewrite circular_copy by (by apply circular_alloc). cbn [fst snd].
  by eexists.
Qed.

Lemma dispatch_circular methodName copyProps passthruProps nameOrList pluginMap
    options performErrorCheck σ :
  circular (store σ) copyProps → passthruProps ≠ VUndefined →
  let run := s_INVOKE_SYNC_EVENTS methodName copyProps passthruProps nameOrList
               pluginMap options performErrorCheck σ in
  is_TypeError run.1 ∧ trace run.2 = trace σ.
Proof.
  intros Hc Hp run. subst run. unfold s_INVOKE_SYNC_EVENTS.
  destruct (circular_object _ _ Hc) as [Hu Hobj].
  rewrite !bool_decide_eq_false_2 by done.
  rewrite bind_run, ret_run. cbv beta iota. rewrite bind_run, ret_run.
  cbv beta iota.
  destruct methodName; try (split; [by eexists|done]).
  destruct (negb _); [split; [by eexists|done]|].
  rewrite Hobj. change (negb (String.eqb "object" "object")) with false.
  cbv iota. destruct nameOrList; try (split; [by eexists|done]).
  all: rewrite bind_run.
  all: destruct (constructor_circular copyProps passthruProps σ Hc Hp)
         as (σ2 & -> & Htrace2).
  all: split; [by eexists|done].
Qed.

Lemma invokeSyncEvent_circular methodName copyProps passthruProps nameOrList σ :
  circular (store σ) copyProps →
  let run := PluginManager.invokeSyncEvent methodName copyProps passthruProps
               nameOrList σ in
  is_TypeError run.1 ∧ trace run.2 = trace σ ∧ this run.2 = this σ.
Proof.
  intros Hc run.
  cut (is_TypeError run.1 ∧ trace run.2 = trace σ).
  { intros [? ?]. split; [done|]. split; [done|]. apply keeps_this_invokeSyncEvent. }
  subst run. unfold PluginManager.invokeSyncEvent, get_this.
  rewrite bind_run. cbv beta iota.
  destruct (circular_object _ _ Hc) as [Hu Hobj].
  rewrite (bool_decide_eq_false_2 (copyProps = VUndefined)) by done.
  rewrite bind_run, ret_run. cbv beta iota. rewrite bind_run.
  destruct (default_object_run passthruProps σ)
    as (p & σ1 & -> & Hp & Htrace1 & _ & _ & Hcirc). cbv beta iota.
  apply Hcirc in Hc. rewrite bind_run.
  unfold PluginManager.default_nameOrList. rewrite <-Htrace1.
  destruct nameOrList as [|name|names|v];
    try (rewrite ret_run; cbv beta iota; by apply dispatch_circular).
  destruct (_pluginMap (this σ)) as [pluginMap|] eqn:Hm.
  - rewrite ret_run. cbv beta iota. by apply dispatch_circular.
  - rewrite throw_run. split; [by eexists|done].
Qed.

(** X26. [invokeSyncEvent] with a [copyProps] object that holds itself in
    one of its properties throws a [TypeError], whatever the other
    arguments are, and no plugin is called. *)
Theorem invokeSyncEvent_rejects_circular_copyProps methodName copyProps passthruProps
    nameOrList σ :
  circular (store σ) copyProps →
  let run := PluginManager.invokeSyncEvent methodName copyProps passthruProps
               nameOrList σ in
  is_TypeError run.1 ∧ trace run.2 = trace σ ∧ this run.2 = this σ.
Proof. apply invokeSyncEvent_circular. Qed.

Lemma invokeSyncEvent_rejects_circular_copyProps_witness :
  is_TypeError
    (PluginManager.invokeSyncEvent (VStr "test") (VRef 0) VUndefined NL_undefined knot).1
  ∧ trace (PluginManager.invokeSyncEvent (VStr "test") (VRef 0) VUndefined
             NL_undefined knot).2 = [].
Proof.
  destruct (invokeSyncEvent_rejects_circular_copyProps (VStr "test") (VRef 0)
              VUndefined NL_undefined knot) as (Hr & Htrace & _).
  - exists 0, (plain {[ "self" := VRef 0 ]}), "self". repeat split.
  - split; [exact Hr|]. rewrite Htrace. vm_compute. reflexivity.
Defined.

(** ** getPluginOptions *)

Lemma getPluginOptions_edges cfg name σ pluginMap r σ' :
  _pluginMap (this σ) = Some pluginMap →
  PluginConfig.name cfg = VStr name →
  PluginConfig.options cfg = VUndefined →
  PluginManager.add (Some cfg) σ = (r, σ') →
  (∃ e, r = Throw e ∧ from_plugin e = false)
  ∨ (is_SyntaxError (PluginManager.getPluginOptions (VStr name) σ').1
     ∧ (PluginManager.getPluginOptions (VStr name) σ').2 = σ'
     ∧ ∀ other, other ≠ name → other ∉ Map_keys pluginMap →
         PluginManager.getPluginOptions (VStr other) σ' = (Normal VUndefined, σ')).
Proof.
  intros Hm Hname Hopt Hrun.
  destruct (add_inv _ _ _ _ _ Hm Hrun)
    as [[_ ?]|(name' & entry & Hn & Hthis & _ & _ & _ & Hoptions & _)]; [by left|].
  right. rewrite Hname in Hn. injection Hn as <-.
  assert (_pluginMap (this σ') = Some (Map_set name entry pluginMap)) as Hm'
    by by rewrite Hthis.
  unfold PluginManager.getPluginOptions, get_this.
  split; [|split].
  - rewrite bind_run. cbv beta iota. rewrite Hm'.
    change (negb (String.eqb (typeof (VStr name)) "string")) with false. cbv iota.
    cbn [Map_get]. rewrite assoc_Map_set_eq. rewrite on_store_run.
    rewrite Hoptions, Hopt. by eexists.
  - rewrite bind_run. cbv beta iota. rewrite Hm'.
    change (negb (String.eqb (typeof (VStr name)) "string")) with false. cbv iota.
    cbn [Map_get]. rewrite assoc_Map_set_eq. rewrite on_store_run.
    rewrite Hoptions, Hopt. by destruct σ'.
  - intros other Hne Hnot. rewrite bind_run. cbv beta iota. rewrite Hm'.
    change (negb (String.eqb (typeof (VStr other)) "string")) with false. cbv iota.
    cbn [Map_get]. rewrite assoc_Map_set_ne by done.
    by rewrite (proj2 (assoc_None_keys _ _) Hnot).
Qed.

(** X27. After [add] of a configuration without [options] (also when the
    plugin's [onPluginLoad] threw), [getPluginOptions(name)] throws a
    [SyntaxError] and changes nothing: the entry's options are [undefined],
    which [JSON.parse] does not read.  For a name that is not registered it
    returns [undefined]. *)
Theorem getPluginOptions_without_options cfg name σ pluginMap r σ' :
  _pluginMap (this σ) = Some pluginMap →
  PluginConfig.name cfg = VStr name →
  PluginConfig.options cfg = VUndefined →
  PluginManager.add (Some cfg) σ = (r, σ') →
  (∃ e, r = Throw e ∧ from_plugin e = false)
  ∨ (is_SyntaxError (PluginManager.getPluginOptions (VStr name) σ').1
     ∧ (PluginManager.getPluginOptions (VStr name) σ').2 = σ'
     ∧ ∀ other, other ≠ name → other ∉ Map_keys pluginMap →
         PluginManager.getPluginOptions (VStr other) σ' = (Normal VUndefined, σ')).
Proof. apply getPluginOptions_edges. Qed.

Lemma getPluginOptions_without_options_witness :
  let σ := (run no_modules no_options
              (PluginManager.add (Some (config_instance "A" counter)))).2 in
  let σ' := (PluginManager.add (Some (config_instance "B" counter)) σ).2 in
  is_SyntaxError (PluginManager.getPluginOptions (VStr "B") σ').1
  ∧ PluginManager.getPluginOptions (VStr "C") σ' = (Normal VUndefined, σ').
Proof.
  intros σ.
  pose (eA := PluginEntry.constructor "A" "instance" counter VUndefined VUndefined).
  assert (_pluginMap (this σ) = Some [("A", eA)]) as Hm by reflexivity.
  destruct (PluginManager.add (Some (config_instance "B" counter)) σ)
    as [r σ'] eqn:Hrun.
  assert (r = (PluginManager.add (Some (config_instance "B" counter)) σ).1) as Hr
    by (by rewrite Hrun).
  vm_compute in Hr. subst r.
  destruct (getPluginOptions_without_options (config_instance "B" counter) "B" σ
              [("A", eA)] (Normal tt) σ' Hm eq_refl eq_refl Hrun)
    as [(e & ? & _)|(Hsyntax & _ & Hother)]; [done|].
  split; [exact Hsyntax|].
  apply Hother; [done|]. by intros [?|?%elem_of_nil]%elem_of_cons.
Defined.

(** ** Deep copies *)

Lemma member_copy_impl (P Q : value → value → Prop) x x' :
  (∀ v v', P v v' → Q v v') → member_copy P x x' → member_copy Q x x'.
Proof.
  intros HPQ. unfold member_copy. destruct x as [[]|]; try done;
    intros (v' & -> & H); eauto.
Qed.


Lemma elem_copy_impl (P Q : value → value → Prop) x x' :
  (∀ v v', P v v' → Q v v') → elem_copy P x x' → elem_copy Q x x'.
Proof. intros HPQ. unfold elem_copy. destruct x; auto. Qed.

(** A copy stays a copy when other cells are written or allocated, and when
    fewer cells count as old. *)
Lemma copy_of_weaken n old old' h h' h'' v v' :
  copy_of n old h h' v v' →
  old' ⊆ old →
  (∀ l, l ∈ dom h' → l ∉ old → h'' !! l = h' !! l) →
  copy_of n old' h h'' v v'.
Proof.
  intros Hcopy Hold Hsame. revert v v' Hcopy.
  assert (∀ l c, l ∉ old → h' !! l = Some c → (l ∉ old') ∧ h'' !! l = Some c) as Hcell.
  { intros l c Hl Hc. split; [set_solver|]. rewrite Hsame; [done| |done].
    by apply elem_of_dom. }
  induction n as [|n IH]; intros v v'; destruct v; simpl; try done.
  - intros (l' & -> & Hl & Hc). destruct (Hcell _ _ Hl Hc). eauto.
  - intros (c & l' & c' & Hl & -> & Hl' & Hc' & Hrest).
    destruct (Hcell _ _ Hl' Hc'). exists c, l', c'. repeat split; try done.
    destruct (cell_elems c) as [elems|].
    + destruct Hrest as (elems' & -> & Hall). exists elems'. split; [done|].
      eapply Forall2_impl; [done|]. intros x x'. by apply elem_copy_impl.
    + destruct Hrest as [Hel Hprops]. split; [done|]. intros k.
      eapply member_copy_impl; [|apply Hprops]. done.
  - intros (l' & -> & Hl & Hc). destruct (Hcell _ _ Hl Hc). eauto.
Qed.

Lemma copy_of_alloc n (hx h1 h2 : heap) h v v' :
  copy_of n (dom h1) h h2 v v' → hx ⊆ h1 → ∀ h3, h2 ⊆ h3 →
  copy_of n (dom hx) h h3 v v'.
Proof.
  intros Hcopy Hsub h3 Hsub3. eapply copy_of_weaken; [done| |].
  - by apply subseteq_dom.
  - intros l [c Hl]%elem_of_dom _. rewrite Hl.
    by eapply lookup_weaken.
Qed.

Lemma stringify_undefined n h v : stringify_fuel n h v = SerUndefined → v = VUndefined.
Proof.
  destruct n, v; simpl; try done. destruct (h !! l) as [c|]; [|done].
  destruct (cell_elems c); [by destruct (ser_elems _)|by destruct (ser_members _)].
Qed.

Lemma alloc_subseteq c (h : heap) : h ⊆ (alloc c h).2.
Proof.
  unfold alloc. simpl. apply insert_subseteq, not_elem_of_dom, is_fresh.
Qed.

Lemma parse_elems_copy n h elems js hx vs h1 :
  (∀ v j hx r hx',
     stringify_fuel n h v = SerText j → JSON_parse j hx = (r, hx') →
     hx ⊆ hx' ∧ copy_of n (dom hx) h hx' v r) →
  ser_elems (map (stringify_fuel n h) elems) = Some js →
  parse_elems js hx = (vs, h1) →
  hx ⊆ h1 ∧ Forall2 (elem_copy (copy_of n (dom hx) h h1)) elems vs.
Proof.
  intros IH. revert js hx vs h1.
  induction elems as [|x elems IHe]; intros js hx vs h1; simpl.
  - intros [= <-]. simpl. by intros [= <- <-].
  - destruct (stringify_fuel n h x) as [| |j0] eqn:Hx; [done| |].
    + apply stringify_undefined in Hx as ->.
      destruct (ser_elems _) as [js'|] eqn:Hjs'; [|done].
      intros [= <-]. simpl.
      destruct (parse_elems js' hx) as [vs' h1'] eqn:Hparse'.
      intros [= <- <-].
      destruct (IHe _ _ _ _ eq_refl Hparse') as [Hsub Hall].
      split; [done|]. by constructor.
    + destruct (ser_elems _) as [js'|] eqn:Hjs'; [|done].
      intros [= <-]. simpl.
      destruct (JSON_parse j0 hx) as [v0 hx1] eqn:Hparse0.
      destruct (parse_elems js' hx1) as [vs' h1'] eqn:Hparse'.
      intros [= <- <-].
      destruct (IH _ _ _ _ _ Hx Hparse0) as [Hsub0 Hcopy0].
      destruct (IHe _ _ _ _ eq_refl Hparse') as [Hsub Hall].
      split; [by etrans|]. constructor.
      * assert (copy_of n (dom hx) h h1' x v0) as Hc.
        { eapply copy_of_weaken; [done|done|].
          intros l [c Hc]%elem_of_dom _. rewrite Hc.
          by eapply lookup_weaken. }
        destruct x; try done. by destruct n.
      * eapply Forall2_impl; [done|]. intros y y'.
        apply elem_copy_impl. intros u u' Hu.
        eapply copy_of_weaken; [done|by apply subseteq_dom|done].
Qed.

Lemma parse_members_copy n h (entries : list (string * value)) ms hx kvs h1 :
  (∀ v j hx r hx',
     stringify_fuel n h v = SerText j → JSON_parse j hx = (r, hx') →
     hx ⊆ hx' ∧ copy_of n (dom hx) h hx' v r) →
  NoDup entries.*1 →
  ser_members (map (λ kv, (kv.1, stringify_fuel n h kv.2)) entries) = Some ms →
  parse_members ms hx = (kvs, h1) →
  hx ⊆ h1
  ∧ ∀ k, member_copy (copy_of n (dom hx) h h1)
           ((list_to_map entries : gmap string value) !! k)
           ((list_to_map kvs : gmap string value) !! k).
Proof.
  intros IH. revert ms hx kvs h1.
  induction entries as [|[k0 x] entries IHe]; intros ms hx kvs h1; simpl.
  - intros _ [= <-]. simpl. intros [= <- <-]. split; [done|].
    intros k. by rewrite lookup_empty.
  - intros [Hk0 Hnodup]%NoDup_cons Hms Hparse.
    destruct (stringify_fuel n h x) as [| |j0] eqn:Hx; [done| |].
    + apply stringify_undefined in Hx as ->.
      destruct (IHe _ _ _ _ Hnodup Hms Hparse) as [Hsub Hall].
      split; [done|]. intros k.
      destruct (decide (k = k0)) as [->|Hk].
      * rewrite lookup_insert_eq. simpl.
        apply not_elem_of_list_to_map_1.
        pose proof (parse_members_keys ms hx) as Hkeys.
        rewrite Hparse in Hkeys. simpl in Hkeys. rewrite Hkeys.
        intros Hin. apply Hk0.
        pose proof (ser_members_keys _ _ Hms) as Hsl.
        pose proof (elem_of_sublist _ _ _ Hin Hsl) as Hin'.
        change (map ?f ?l) with (f <$> l) in Hin'.
        by rewrite <-list_fmap_compose in Hin'.
      * rewrite lookup_insert_ne by done. apply Hall.
    + destruct (ser_members _) as [ms'|] eqn:Hms'; [|done].
      injection Hms as <-. simpl in Hparse.
      destruct (JSON_parse j0 hx) as [v0 hx1] eqn:Hparse0.
      destruct (parse_members ms' hx1) as [kvs' h1'] eqn:Hparse'.
      injection Hparse as <- <-.
      destruct (IH _ _ _ _ _ Hx Hparse0) as [Hsub0 Hcopy0].
      destruct (IHe _ _ _ _ Hnodup eq_refl Hparse') as [Hsub Hall].
      split; [by etrans|]. intros k. simpl.
      destruct (decide (k = k0)) as [->|Hk].
      * rewrite !lookup_insert_eq.
        assert (copy_of n (dom hx) h h1' x v0) as Hc.
        { eapply copy_of_weaken; [done|done|].
          intros l [c0 Hc0]%elem_of_dom _. rewrite Hc0.
          by eapply lookup_weaken. }
        destruct x; try (by destruct n); by (eexists; split).
      * rewrite !lookup_insert_ne by done.
        eapply member_copy_impl; [|apply Hall]. intros u u' Hu.
        eapply copy_of_weaken; [done|by apply subseteq_dom|done].
Qed.

Lemma stringify_parse n h :
  ∀ v j hx r hx',
    stringify_fuel n h v = SerText j → JSON_parse j hx = (r, hx') →
    hx ⊆ hx' ∧ copy_of n (dom hx) h hx' v r.
Proof.
  induction n as [|n IH]; intros v j hx r hx'.
  - destruct v; simpl; try done; intros [= <-]; simpl; intros [= <- <-]; try done.
    split; [apply (alloc_subseteq (plain ∅))|].
    eexists. split; [done|]. split; [apply is_fresh|]. apply lookup_insert_eq.
  - destruct v; simpl; try done; try (intros [= <-]; simpl; intros [= <- <-]; done).
    + destruct (h !! l) as [c|] eqn:Hl; [|done].
      destruct (cell_elems c) as [elems|] eqn:Helems.
      * destruct (ser_elems _) as [js|] eqn:Hjs; [|done]. intros [= <-].
        rewrite JSON_parse_array.
        destruct (parse_elems js hx) as [vs h1] eqn:Hparse.
        destruct (parse_elems_copy _ _ _ _ _ _ _ IH Hjs Hparse) as [Hsub Hall].
        unfold alloc. intros [= <- <-].
        split; [etrans; [done|apply (alloc_subseteq (array vs))]|].
        exists c, (fresh (dom h1)), (array vs). split; [done|]. split; [done|].
        split.
        { intros Hin. apply (is_fresh (dom h1)). by apply (subseteq_dom _ _ Hsub). }
        split; [apply lookup_insert_eq|]. rewrite Helems.
        exists vs. split; [done|]. eapply Forall2_impl; [done|]. intros y y'.
        apply elem_copy_impl. intros u u' Hu.
        eapply copy_of_weaken; [done|done|].
        intros l' [c' Hc']%elem_of_dom _. rewrite Hc'.
        eapply lookup_weaken; [done|]. apply (alloc_subseteq (array vs)).
      * destruct (ser_members _) as [ms|] eqn:Hms; [|done]. intros [= <-].
        rewrite JSON_parse_object.
        destruct (parse_members ms hx) as [kvs h1] eqn:Hparse.
        destruct (parse_members_copy _ _ _ _ _ _ _ IH
                    (NoDup_fst_map_to_list (cell_props c)) Hms Hparse)
          as [Hsub Hall].
        rewrite list_to_map_to_list in Hall.
        unfold alloc. intros [= <- <-].
        split; [etrans; [done|apply (alloc_subseteq (plain (list_to_map kvs)))]|].
        exists c, (fresh (dom h1)), (plain (list_to_map kvs)).
        split; [done|]. split; [done|]. split.
        { intros Hin. apply (is_fresh (dom h1)). by apply (subseteq_dom _ _ Hsub). }
        split; [apply lookup_insert_eq|]. rewrite Helems. split; [done|].
        intros k. eapply member_copy_impl; [|apply Hall]. intros u u' Hu.
        eapply copy_of_weaken; [done|done|].
        intros l' [c' Hc']%elem_of_dom _. rewrite Hc'.
        eapply lookup_weaken; [done|].
        apply (alloc_subseteq (plain (list_to_map kvs))).
    + intros [= <-]. simpl. intros [= <- <-].
      split; [apply (alloc_subseteq (plain ∅))|].
      eexists. split; [done|]. split; [apply is_fresh|]. apply lookup_insert_eq.
Qed.

(** [JSON.parse(JSON.stringify(v))], when it returns, returns a deep copy of
    [v] made of new cells, and has written to no cell that was there. *)
Lemma json_copy_deep v h r h' :
  json_copy v h = (Normal r, h') →
  h ⊆ h' ∧ copy_of (S (size h)) (dom h) h h' v r.
Proof.
  unfold json_copy, JSON_stringify.
  destruct (stringify_fuel _ _ _) as [| |j] eqn:Hj; [done..|].
  destruct (JSON_parse j h) as [r' h''] eqn:Hparse. intros [= <- <-].
  by eapply stringify_parse.
Qed.










(** ** A plugin that is enabled again *)

Lemma json_copy_empty h o :
  h !! o = Some (plain ∅) →
  json_copy (VRef o) h
  = (Normal (VRef (fresh (dom h))), <[fresh (dom h) := plain ∅]> h).
Proof.
  intros Ho. unfold json_copy, JSON_stringify. simpl. rewrite Ho. simpl.
  by rewrite map_to_list_empty.
Qed.

Lemma Object_assign_empty h d tc o :
  h !! d = Some tc → h !! o = Some (plain ∅) →
  Object_assign (VRef d) (VRef o) h = (Normal (VRef d), <[d := tc]> h).
Proof.
  intros Hd Ho. unfold Object_assign. rewrite Hd, Ho. unfold own_entries. simpl.
  by rewrite map_to_list_empty.
Qed.

Lemma write_prop_run e c k v σ :
  store σ !! e = Some c →
  write_prop (VRef e) k v σ
  = (Normal tt, with_store (<[e := set_prop k v c]> (store σ)) σ).
Proof. intros He. unfold write_prop. rewrite on_store_run. simpl. by rewrite He. Qed.

Lemma PluginEvent_defaults σ o1 o2 :
  store σ !! o1 = Some (plain ∅) → store σ !! o2 = Some (plain ∅) →
  ∃ e σ1, PluginEvent.constructor (VRef o1) (VRef o2) σ = (Normal (VRef e), σ1)
    ∧ trace σ1 = trace σ ∧ this σ1 = this σ ∧ is_Some (store σ1 !! e).
Proof.
  intros H1 H2. unfold PluginEvent.constructor.
  rewrite !bool_decide_eq_false_2 by done.
  rewrite bind_run, ret_run. cbv beta iota. rewrite bind_run, ret_run. cbv beta iota.
  rewrite bind_run, new_cell_run. cbv beta iota.
  set (h := store σ) in *. set (e := fresh (dom h)).
  assert (e ∉ dom h) as He by apply is_fresh.
  assert (o1 ≠ e) as Ho1 by (intros ->; apply He; by apply elem_of_dom).
  assert (o2 ≠ e) as Ho2 by (intros ->; apply He; by apply elem_of_dom).
  set (h1 := <[e := plain ∅]> h).
  rewrite bind_run, on_store_run. cbn [store with_store].
  rewrite (json_copy_empty h1 o1) by (unfold h1; by rewrite lookup_insert_ne).
  cbn [fst snd]. set (d := fresh (dom h1)).
  assert (d ∉ dom h1) as Hd by apply is_fresh.
  assert (d ≠ e) as Hde.
  { intros Heq. apply Hd. rewrite Heq. unfold h1. rewrite dom_insert. set_solver. }
  assert (o2 ≠ d) as Ho2d.
  { intros ->. apply Hd. unfold h1. rewrite dom_insert.
    apply elem_of_union_r. by apply elem_of_dom. }
  set (h2 := <[d := plain ∅]> h1).
  assert (h2 !! d = Some (plain ∅)) as Hd2 by apply lookup_insert_eq.
  assert (h2 !! o2 = Some (plain ∅)) as Ho22.
  { unfold h2, h1. by rewrite !lookup_insert_ne. }
  assert (h2 !! e = Some (plain ∅)) as He2.
  { unfold h2, h1. rewrite lookup_insert_ne by done. apply lookup_insert_eq. }
  rewrite bind_run, on_store_run. cbn [store with_store].
  rewrite (Object_assign_empty h2 d (plain ∅) o2 Hd2 Ho22). cbn [fst snd].
  rewrite with_store_with_store.
  set (h3 := <[d := plain ∅]> h2).
  assert (h3 !! e = Some (plain ∅)) as He3.
  { unfold h3. by rewrite lookup_insert_ne. }
  rewrite bind_run, (write_prop_run e (plain ∅)) by exact He3. cbv beta iota.
  rewrite bind_run, (write_prop_run e _) by apply lookup_insert_eq. cbv beta iota.
  rewrite bind_run, (write_prop_run e _) by apply lookup_insert_eq. cbv beta iota.
  rewrite bind_run, (write_prop_run e _) by apply lookup_insert_eq. cbv beta iota.
  rewrite ret_run.
  eexists e, _. split; [reflexivity|]. cbn [store with_store trace this].
  split; [done|]. split; [done|]. rewrite lookup_insert_eq. by eexists.
Qed.

Lemma keeps_trace_write_prop obj k v : keeps_trace (write_prop obj k v).
Proof. apply keeps_trace_on_store. Qed.

Lemma keeps_trace_read_prop obj k : keeps_trace (read_prop obj k).
Proof. apply keeps_trace_on_store. Qed.

Lemma keeps_trace_new_cell c : keeps_trace (new_cell c).
Proof. apply keeps_trace_on_store. Qed.

(** A dispatch of the event protocol to one enabled plugin that has the
    method calls it, with the envelope. *)
Lemma invokeSyncEvent_calls σ pluginMap p entry methodName f :
  _pluginMap (this σ) = Some pluginMap →
  Map_get pluginMap (VStr p) = Some entry →
  PluginEntry.enabled entry = true →
  PluginEntry.name entry = p →
  instance_method (PluginEntry.instance entry) methodName = Some f →
  ∃ ev,
    trace (PluginManager.invokeSyncEvent (VStr methodName) VUndefined VUndefined
             (NL_string p) σ).2
    = trace σ ++ [Call p methodName [ev]].
Proof.
  intros Hm Hget Hen Hname Hf.
  unfold PluginManager.invokeSyncEvent, get_this. rewrite bind_run. cbv beta iota.
  rewrite !bool_decide_eq_true_2 by done.
  rewrite bind_run, new_cell_run. cbv beta iota.
  rewrite bind_run, new_cell_run. cbv beta iota.
  unfold PluginManager.default_nameOrList. rewrite bind_run, ret_run. cbv beta iota.
  set (o1 := fresh (dom (store σ))).
  set (σa := with_store (<[o1 := plain ∅]> (store σ)) σ).
  set (o2 := fresh (dom (store σa))).
  set (σb := with_store (<[o2 := plain ∅]> (store σa)) σa).
  assert (o2 ≠ o1) as Ho.
  { intros Heq. apply (is_fresh (dom (store σa))). fold o2. rewrite Heq.
    unfold σa. cbn [store with_store]. rewrite dom_insert. set_solver. }
  assert (store σb !! o1 = Some (plain ∅)) as H1.
  { unfold σb, σa. cbn [store with_store].
    rewrite lookup_insert_ne by done. apply lookup_insert_eq. }
  assert (store σb !! o2 = Some (plain ∅)) as H2.
  { unfold σb. cbn [store with_store]. apply lookup_insert_eq. }
  unfold s_INVOKE_SYNC_EVENTS. rewrite !bool_decide_eq_false_2 by done.
  rewrite bind_run, ret_run. cbv beta iota. rewrite bind_run, ret_run. cbv beta iota.
  change (negb (String.eqb (typeof (VRef o2)) "object")) with false.
  change (negb (String.eqb (typeof (VRef o1)) "object")) with false. cbv iota.
  rewrite bind_run.
  destruct (PluginEvent_defaults σb o1 o2 H1 H2)
    as (e & σ1 & -> & Htrace1 & Hthis1 & [ec Hec]).
  cbv beta iota. rewrite bind_run.
  unfold s_INVOKE_SYNC_EVENTS_target at 1. rewrite Hm, Hget, Hen.
  destruct (PluginEntry.instance entry) as [|member] eqn:Hinst; [done|].
  cbn [instance_truthy andb instance_method]. cbn [instance_method] in Hf.
  rewrite Hf.
  rewrite bind_run, (write_prop_run e ec) by exact Hec. cbv beta iota.
  rewrite bind_run, (write_prop_run e _) by apply lookup_insert_eq. cbv beta iota.
  rewrite bind_run, (write_prop_run e _) by apply lookup_insert_eq. cbv beta iota.
  rewrite bind_run. unfold call_plugin_method. rewrite bind_run.
  unfold log_call at 1. cbv beta iota. rewrite on_store_run.
  cbn [store with_store trace]. rewrite Hname.
  exists (VRef e).
  match goal with
  | |- context [f [VRef e] ?h] => destruct (f [VRef e] h) as [[v|err] h']
  end; cbn [fst snd].
  2:{ cbn [trace with_store]. by rewrite Htrace1. }
  rewrite ret_run. cbv beta iota.
  cbn [ev_hasPlugin ev_hasMethod negb andb]. rewrite !andb_false_r.
  match goal with
  | |- trace (?c ?s).2 = _ =>
      assert (keeps_trace c) as Hk;
      [|rewrite Hk; cbn [trace with_store]; by rewrite Htrace1]
  end.
  repeat first [ simple apply keeps_trace_read_prop
               | simple apply keeps_trace_write_prop
               | simple apply keeps_trace_new_cell
               | progress keeps_trace ].
Qed.

(** ** invokeAsync: what is collected *)

(** C3. Two enabled plugins, [A] whose [test] returns [6] and [B] whose
    [test] returns nothing: one non-null, non-absent value is collected, so
    the contract asks for a promise that resolves to [6]; the guard
    [result !== null || typeof result !== 'undefined'] holds for every
    value, [undefined] is pushed as well and the promise is
    [Promise.all([6, undefined])], fulfilled with the array of both.  With
    two plugins returning nothing the promise is fulfilled with
    [[undefined, undefined]] where the contract asks for an absent value.
    The call itself returns this promise, it does not throw; with values
    that are present the contract is met ([[6, 6]]). *)
Theorem invokeAsync_collects_absent_values :
  let absent := single "test" (constant VUndefined) in
  let six := single "test" (add3 3) in
  let r1 := run no_modules no_options
              (PluginManager.add (Some (config_instance "A" six));;
               PluginManager.add (Some (config_instance "B" absent));;
               PluginManager.invokeAsync NL_undefined (VStr "test") [VNum 1; VNum 2]) in
  let r2 := run no_modules no_options
              (PluginManager.add (Some (config_instance "A" absent));;
               PluginManager.add (Some (config_instance "B" absent));;
               PluginManager.invokeAsync NL_undefined (VStr "test") []) in
  let r3 := run no_modules no_options
              (PluginManager.add (Some (config_instance "A" six));;
               PluginManager.add (Some (config_instance "B" six));;
               PluginManager.invokeAsync NL_undefined (VStr "test") [VNum 1; VNum 2]) in
  r1.1 = Normal (Promise_all [VNum 6; VUndefined])
  ∧ fulfilled (λ _, None) (Promise_all [VNum 6; VUndefined])
    = Some (Many [VNum 6; VUndefined])
  ∧ r2.1 = Normal (Promise_all [VUndefined; VUndefined])
  ∧ fulfilled (λ _, None) (Promise_all [VUndefined; VUndefined])
    = Some (Many [VUndefined; VUndefined])
  ∧ r3.1 = Normal (Promise_all [VNum 6; VNum 6]).
Proof. vm_compute. repeat split; reflexivity. Qed.

(** ** Disabled plugins, and enabled again *)

(** C4. A manager whose entries are stored under their names, and a
    registered plugin [p].  After [enablePlugin(p, false)]:
    [getPluginNames()] still lists [p]; each of [invokeSync], [invokeAsync]
    and [invokeSyncEvent], from that state or any later one in which [p] is
    still disabled, calls no method of [p] and leaves the manager as it is,
    [p] disabled included.  After [enablePlugin(p, true)] a dispatch to [p]
    of a method its instance has calls it, through each of the three:
    [invokeSync] and [invokeAsync] with the arguments, [invokeSyncEvent]
    with its envelope. *)
Theorem disabled_plugin_is_not_dispatched σ pluginMap p entry :
  _pluginMap (this σ) = Some pluginMap →
  named pluginMap →
  Map_get pluginMap (VStr p) = Some entry →
  let off := (PluginManager.enablePlugin (VStr p) (VBool false) σ).2 in
  let on := (PluginManager.enablePlugin (VStr p) (VBool true) off).2 in
  (∃ names, (PluginManager.getPluginNames VUndefined off).1 = Normal names ∧ p ∈ names)
  ∧ disabled p (this off)
  ∧ (∀ nameOrList methodName args,
       spares p (PluginManager.invokeSync nameOrList methodName args)
       ∧ spares p (PluginManager.invokeAsync nameOrList methodName args))
  ∧ (∀ methodName copyProps passthruProps nameOrList,
       spares p (PluginManager.invokeSyncEvent methodName copyProps passthruProps
                   nameOrList))
  ∧ (∀ methodName f args,
       instance_method (PluginEntry.instance entry) methodName = Some f →
       trace (PluginManager.invokeSync (NL_string p) (VStr methodName) args on).2
       = trace on ++ [Call p methodName args]
       ∧ trace (PluginManager.invokeAsync (NL_string p) (VStr methodName) args on).2
         = trace on ++ [Call p methodName args]
       ∧ ∃ ev,
           trace (PluginManager.invokeSyncEvent (VStr methodName) VUndefined
                    VUndefined (NL_string p) on).2
           = trace on ++ [Call p methodName [ev]]).
Proof.
  intros Hm Hnamed Hget off on.
  assert (this off = PluginManager.with_pluginMap
            (Some (Map_alter (PluginEntry.set_enabled false) p pluginMap)) (this σ))
    as Hoff.
  { unfold off, PluginManager.enablePlugin, mbind, ST_bind, get_this. simpl.
    rewrite Hm. simpl in Hget. by rewrite Hget. }
  assert (this on = PluginManager.with_pluginMap
            (Some (Map_alter (PluginEntry.set_enabled true) p
                     (Map_alter (PluginEntry.set_enabled false) p pluginMap)))
            (this σ)) as Hon.
  { unfold on, PluginManager.enablePlugin, mbind, ST_bind, get_this. simpl.
    rewrite Hoff. simpl. rewrite assoc_Map_alter. simpl in Hget. by rewrite Hget. }
  split; [|split; [|split; [|split]]].
  - exists (Map_keys pluginMap). split.
    + unfold PluginManager.getPluginNames, mbind, ST_bind, get_this. simpl.
      rewrite Hoff. simpl. by rewrite Map_keys_alter.
    + by eapply assoc_Some_keys.
  - intros pm k e. rewrite Hoff. simpl. intros [= <-] Hin Hname.
    apply elem_of_Map_alter in Hin as (e0 & Hin & ->).
    case_bool_decide; [done|].
    apply Hnamed in Hin. congruence.
  - intros. split; [apply spares_invokeSync | apply spares_invokeAsync].
  - intros. apply spares_invokeSyncEvent.
  - intros methodName f args Hf.
    assert (assoc p (Map_alter (PluginEntry.set_enabled true) p
                       (Map_alter (PluginEntry.set_enabled false) p pluginMap))
            = Some (PluginEntry.set_enabled true (PluginEntry.set_enabled false entry)))
      as Hentry.
    { rewrite !assoc_Map_alter. simpl in Hget. by rewrite Hget. }
    assert (PluginEntry.name entry = p) as Hname.
    { apply Hnamed. by apply assoc_elem_of. }
    assert (_pluginMap (this on)
            = Some (Map_alter (PluginEntry.set_enabled true) p
                      (Map_alter (PluginEntry.set_enabled false) p pluginMap)))
      as Hmon by (by rewrite Hon).
    pose proof (invokeSyncEvent_calls on _ p _ methodName f Hmon Hentry eq_refl Hname Hf)
      as Hevent.
    enough (trace (PluginManager.invokeSync (NL_string p) (VStr methodName) args on).2
            = trace on ++ [Call p methodName args]
            ∧ trace (PluginManager.invokeAsync (NL_string p) (VStr methodName) args
                       on).2
              = trace on ++ [Call p methodName args]) as [? ?] by done.
    destruct (PluginEntry.instance entry) as [|member] eqn:Hinst; [done|].
    simpl in Hf.
    unfold PluginManager.invokeSync, PluginManager.invokeAsync, try_catch,
      PluginManager.invoke_targets, PluginManager.invoke_target,
      call_plugin_method, mbind, ST_bind, get_this, log_call, on_store.
    simpl. rewrite Hon. simpl. rewrite Hentry. simpl.
    unfold PluginEntry.instance in Hinst. rewrite Hinst. simpl. rewrite Hf.
    unfold PluginEntry.name in Hname. rewrite Hname.
    destruct (f args (store on)) as [[v|e] h]; simpl;
      rewrite ?andb_false_r; done.
Qed.

Lemma disabled_plugin_is_not_dispatched_witness :
  (∃ names,
     (PluginManager.getPluginNames VUndefined
        (PluginManager.enablePlugin (VStr "A") (VBool false) two_counters).2).1
     = Normal names ∧ "A" ∈ names)
  ∧ trace (PluginManager.invokeSync NL_undefined (VStr "test") []
             (PluginManager.enablePlugin (VStr "A") (VBool false) two_counters).2).2
    = trace two_counters ++ [Call "B" "test" []]
  ∧ call_plugin <$>
      trace (PluginManager.invokeSyncEvent (VStr "test") VUndefined VUndefined
               NL_undefined
               (PluginManager.enablePlugin (VStr "A") (VBool false) two_counters).2).2
    = (call_plugin <$> trace two_counters) ++ ["B"]
  ∧ ∃ ev,
      trace (PluginManager.invokeSyncEvent (VStr "test") VUndefined VUndefined
               (NL_string "A")
               (PluginManager.enablePlugin (VStr "A") (VBool true)
                  (PluginManager.enablePlugin (VStr "A") (VBool false)
                     two_counters).2).2).2
      = trace (PluginManager.enablePlugin (VStr "A") (VBool true)
                 (PluginManager.enablePlugin (VStr "A") (VBool false)
                    two_counters).2).2
        ++ [Call "A" "test" [ev]].
Proof.
  enough ((∃ names,
             (PluginManager.getPluginNames VUndefined
                (PluginManager.enablePlugin (VStr "A") (VBool false) two_counters).2).1
             = Normal names ∧ "A" ∈ names)
          ∧ ∃ ev,
              trace (PluginManager.invokeSyncEvent (VStr "test") VUndefined VUndefined
                       (NL_string "A")
                       (PluginManager.enablePlugin (VStr "A") (VBool true)
                          (PluginManager.enablePlugin (VStr "A") (VBool false)
                             two_counters).2).2).2
              = trace (PluginManager.enablePlugin (VStr "A") (VBool true)
                         (PluginManager.enablePlugin (VStr "A") (VBool false)
                            two_counters).2).2
                ++ [Call "A" "test" [ev]]) as [H1 H2].
  { split; [exact H1|]. split; [vm_compute; reflexivity|].
    split; [vm_compute; reflexivity|exact H2]. }
  pose (eA := PluginEntry.constructor "A" "instance" counter VUndefined VUndefined).
  pose (eB := PluginEntry.constructor "B" "instance" counter VUndefined VUndefined).
  destruct (disabled_plugin_is_not_dispatched two_counters
              [("A", eA); ("B", eB)] "A" eA) as (H & _ & _ & _ & Hon).
  - reflexivity.
  - intros k e Hin.
    repeat (apply elem_of_cons in Hin as [Hin|Hin]; [by simplify_eq|]).
    by apply elem_of_nil in Hin.
  - reflexivity.
  - split; [exact H|].
    destruct (Hon "test" (increment ["data"] "count") [] eq_refl) as (_ & _ & Hev).
    exact Hev.
Defined.

(** ** The payload of an event dispatch, a deep copy *)



(** ** The options of an entry, read and copied *)




(** ** The property names of an object *)

Lemma reverse_NoDup (l : list string) : NoDup l → NoDup (reverse l).
Proof. by rewrite reverse_Permutation. Qed.

Lemma remove_dups_NoDup (l : list string) : NoDup l → remove_dups l = l.
Proof.
  induction 1 as [|x l Hx Hl IH]; [done|].
  simpl. case_decide; [done|]. by rewrite IH.
Qed.

Lemma remove_dups_middle (l1 l2 : list string) x :
  x ∈ l2 → remove_dups (l1 ++ x :: l2) = remove_dups (l1 ++ l2).
Proof.
  intros Hx. induction l1 as [|a l1 IH]; simpl.
  - by case_decide.
  - rewrite IH. repeat case_decide; try done; set_solver.
Qed.

Lemma push_new_first props names :
  NoDup props → push_new props names = first_occurrences (props ++ names).
Proof.
  unfold push_new, first_occurrences.
  revert props. induction names as [|prop names IH]; intros props Hprops.
  - simpl. rewrite app_nil_r, remove_dups_NoDup by by apply reverse_NoDup.
    by rewrite reverse_involutive.
  - cbn [foldl]. case_bool_decide as Hin.
    + rewrite IH by done. f_equal.
      rewrite !reverse_app, reverse_cons, <- app_assoc. simpl.
      rewrite remove_dups_middle; [done|]. by apply elem_of_reverse.
    + rewrite IH.
      * by rewrite <- app_assoc.
      * apply NoDup_app. split_and!; [done| |apply NoDup_singleton].
        intros x Hx ->%list_elem_of_singleton. done.
Qed.

Lemma first_occurrences_NoDup l : NoDup (first_occurrences l).
Proof. apply reverse_NoDup, NoDup_remove_dups. Qed.

Lemma elem_of_first_occurrences l x : x ∈ first_occurrences l ↔ x ∈ l.
Proof.
  unfold first_occurrences.
  by rewrite elem_of_reverse, elem_of_remove_dups, elem_of_reverse.
Qed.

Lemma first_occurrences_idemp_app l names :
  first_occurrences (first_occurrences l ++ names) = first_occurrences (l ++ names).
Proof.
  rewrite <- (push_new_first (first_occurrences l)) by apply first_occurrences_NoDup.
  revert l. induction names as [|prop names IH] using rev_ind; intros l.
  - unfold push_new. simpl. by rewrite app_nil_r.
  - unfold push_new. rewrite foldl_snoc. fold (push_new (first_occurrences l) names).
    rewrite IH. rewrite app_assoc.
    case_bool_decide as Hin.
    + rewrite elem_of_first_occurrences in Hin.
      unfold first_occurrences at 2. rewrite reverse_app. simpl.
      case_decide as Hd; [done|]. by rewrite elem_of_reverse in Hd.
    + unfold first_occurrences at 2. rewrite reverse_app. simpl.
      case_decide as Hd.
      * rewrite elem_of_reverse in Hd. by rewrite elem_of_first_occurrences in Hin.
      * by rewrite reverse_cons.
Qed.

Lemma walk_first obj :
  ∀ props, NoDup props → walk obj props = first_occurrences (props ++ chain obj).
Proof.
  revert obj. fix IH 1. intros [names proto] props Hprops.
  destruct proto as [| |o]; cbn [walk chain].
  - rewrite app_nil_r. by apply push_new_first.
  - rewrite app_nil_r. by apply push_new_first.
  - rewrite IH.
    + rewrite push_new_first by done.
      by rewrite first_occurrences_idemp_app, <- app_assoc.
    + rewrite push_new_first by done. apply first_occurrences_NoDup.
Qed.

(** X29. [s_GET_ALL_PROPERTY_NAMES(obj)] is the list of the own property
    names of [obj] and of its prototypes below [Object.prototype], every name
    once, at the place of its first occurrence in the walk: it has no
    duplicates, and a name is in it exactly when the object or one of these
    prototypes has it.  For an instance with the field [count] of a class
    with [test] and [own] that extends a class with [inherited] and [test]:
    [count], [constructor], [test], [own], [inherited]. *)
Theorem s_GET_ALL_PROPERTY_NAMES_lists_the_chain :
  (∀ obj,
     s_GET_ALL_PROPERTY_NAMES obj = first_occurrences (chain obj)
     ∧ NoDup (s_GET_ALL_PROPERTY_NAMES obj)
     ∧ ∀ p, p ∈ s_GET_ALL_PROPERTY_NAMES obj ↔ p ∈ chain obj)
  ∧ s_GET_ALL_PROPERTY_NAMES plugin_instance
    = ["count"; "constructor"; "test"; "own"; "inherited"].
Proof.
  split; [|reflexivity].
  intros obj.
  assert (s_GET_ALL_PROPERTY_NAMES obj = first_occurrences (chain obj)) as ->
    by (unfold s_GET_ALL_PROPERTY_NAMES; rewrite walk_first; [done|constructor]).
  split_and!; [done|apply first_occurrences_NoDup|].
  intros p. apply elem_of_first_occurrences.
Qed.

(** ** The first manager: [invoke] *)

Lemma has_method_inv methodName plugins σ r σ' :
  Dist.has_method methodName plugins σ = (r, σ') →
  σ' = σ
  ∧ match r with
    | Normal true => ∃ c, c ∈ plugins ∧ is_Some (instance_method c methodName)
    | Normal false =>
        (CapNull ∉ plugins) ∧ ∀ c, c ∈ plugins → instance_method c methodName = None
    | Throw _ => CapNull ∈ plugins
    end.
Proof.
  induction plugins as [|c plugins IH]; simpl.
  - rewrite ret_run. intros [= <- <-]. split; [done|]. split; [|intros c Hc];
      by apply elem_of_nil in Hc || (intros Hc; by apply elem_of_nil in Hc).
  - destruct c as [|member].
    + rewrite throw_run. intros [= <- <-]. split; [done|]. apply list_elem_of_here.
    + case_bool_decide as Hm.
      * rewrite ret_run. intros [= <- <-]. split; [done|].
        exists (CapObject member). split; [apply list_elem_of_here|done].
      * intros Hrun. destruct (IH Hrun) as [-> Hr]. split; [done|].
        destruct r as [[|]|e].
        -- destruct Hr as (c & Hc & Hhas). exists c. split; [by apply list_elem_of_further|done].
        -- destruct Hr as [Hnull Hnone]. split.
           ++ intros [Heq|Hin]%elem_of_cons; done.
           ++ intros c [->|Hin]%elem_of_cons; [|by apply Hnone].
              simpl. by apply eq_None_not_Some.
        -- by apply list_elem_of_further.
Qed.

Lemma invoke_all_inv methodName event plugins :
  ∀ cntr σ σ',
    Dist.invoke_all methodName event cntr plugins σ = (Normal tt, σ') →
    Dist._plugins σ' = Dist._plugins σ
    ∧ (CapNull ∉ plugins)
    ∧ Dist.invoked σ'
      = Dist.invoked σ
        ++ omap (λ ic : nat * capability,
                   if bool_decide (is_Some (instance_method ic.2 methodName))
                   then Some (ic.1, methodName, event) else None)
                (imap (λ i c, (cntr + i, c)) plugins).
Proof.
  induction plugins as [|c plugins IH]; intros cntr σ σ'; cbn [Dist.invoke_all].
  - rewrite ret_run. intros [= <-]. split_and!; [done| |by rewrite app_nil_r].
    intros Hc. by apply elem_of_nil in Hc.
  - destruct c as [|member]; [by rewrite throw_run|].
    rewrite bind_run.
    assert (∀ i (c : capability), (cntr + S i, c) = (S cntr + i, c)) as Hshift
      by (intros i c; by rewrite Nat.add_succ_r).
    destruct (member methodName) as [f|] eqn:Hm.
    + rewrite bind_run. unfold Dist.on_objects. cbn [Dist.objects Dist._plugins Dist.invoked].
      destruct (f [event] (Dist.objects σ)) as [[v|e] h'] eqn:Hf; [|done].
      intros Hrun. apply IH in Hrun as (Hp & Hnull & Hi).
      cbn [Dist.objects Dist._plugins Dist.invoked] in Hp, Hi.
      split_and!; [done| |].
      * intros [Heq|Hin]%elem_of_cons; done.
      * rewrite Hi, <- app_assoc. f_equal.
        simpl. rewrite Hm. rewrite bool_decide_eq_true_2 by done.
        rewrite Nat.add_0_r. do 2 f_equal.
        apply imap_ext. intros i c _. simpl. by rewrite Hshift.
    + rewrite ret_run. intros Hrun. apply IH in Hrun as (Hp & Hnull & Hi).
      split_and!; [done| |].
      * intros [Heq|Hin]%elem_of_cons; done.
      * rewrite Hi. f_equal.
        simpl. rewrite Hm. rewrite bool_decide_eq_false_2 by (by intros [? ?]).
        f_equal. apply imap_ext. intros i c _. simpl. by rewrite Hshift.
Qed.

Lemma dist_PluginEvent_new data copy h r h' :
  Dist.PluginEvent data copy h = (Normal r, h') →
  ∃ e, r = VRef e ∧ (e ∉ dom h) ∧ h ⊆ h'.
Proof.
  unfold Dist.PluginEvent. rewrite bind_run.
  assert (∀ c (h0 : heap), h ⊆ h0 →
            ∀ r h', Dist.new_object c h0 = (Normal r, h') →
                    ∃ e, r = VRef e ∧ (e ∉ dom h) ∧ h ⊆ h') as Hnew.
  { intros c h0 Hh0 r0 h0'. unfold Dist.new_object, alloc. intros [= <- <-].
    eexists. split; [done|]. split.
    - intros Hin. apply (is_fresh (dom h0)). by eapply (subseteq_dom h h0).
    - etrans; [done|]. apply insert_subseteq, not_elem_of_dom, is_fresh. }
  assert (∃ d h1, (if bool_decide (data = VUndefined)
                   then Dist.new_object (plain ∅) else mret data) h = (Normal d, h1)
                  ∧ h ⊆ h1) as (d & h1 & -> & Hh1).
  { case_bool_decide.
    - unfold Dist.new_object. destruct (alloc (plain ∅) h) as [l h1] eqn:Ha.
      do 2 eexists. split; [done|].
      change h1 with (l, h1).2. rewrite <- Ha. apply alloc_subseteq.
    - do 2 eexists. by rewrite ret_run. }
  rewrite bind_run.
  destruct (truthy _).
  - unfold Dist.s_COPY. destruct (json_copy d h1) as [[p|e] h2] eqn:Hcopy; [|done].
    apply json_copy_deep in Hcopy as [Hh2 _].
    apply Hnew. by etrans.
  - rewrite ret_run. by apply Hnew.
Qed.

(** X30. [invoke(methodName, data, copy)] of the first manager, when it
    returns: no registered plugin is [null] (a [null] that [addPlugin] has
    accepted makes every [invoke] throw); the list of plugins is unchanged;
    and either no plugin has the method, nothing is called and the result is
    [null], or some plugin has it, the result is one new event object, and
    exactly the plugins that have the method are called, once each, in the
    order they were added, each with this one event. *)
Theorem dist_invoke_calls_the_plugins_in_order σ methodName data copy r σ' :
  Dist.invoke (VStr methodName) data copy σ = (Normal r, σ') →
  (CapNull ∉ Dist._plugins σ)
  ∧ Dist._plugins σ' = Dist._plugins σ
  ∧ ((r = VNull
      ∧ (∀ c, c ∈ Dist._plugins σ → instance_method c methodName = None)
      ∧ Dist.invoked σ' = Dist.invoked σ)
     ∨ (∃ e, r = VRef e
             ∧ (e ∉ dom (Dist.objects σ))
             ∧ (∃ c, c ∈ Dist._plugins σ ∧ is_Some (instance_method c methodName))
             ∧ Dist.invoked σ'
               = Dist.invoked σ ++ dist_calls methodName (VRef e) (Dist._plugins σ))).
Proof.
  unfold Dist.invoke. rewrite bind_run.
  assert (∃ d σ1, (if bool_decide (data = VUndefined)
                   then Dist.on_objects (Dist.new_object (plain ∅)) else mret data) σ
                  = (Normal d, σ1)
                  ∧ Dist._plugins σ1 = Dist._plugins σ
                  ∧ Dist.invoked σ1 = Dist.invoked σ
                  ∧ Dist.objects σ ⊆ Dist.objects σ1) as (d & σ1 & -> & Hp1 & Hi1 & Ho1).
  { case_bool_decide.
    - unfold Dist.on_objects, Dist.new_object.
      destruct (alloc (plain ∅) (Dist.objects σ)) as [l h1] eqn:Ha.
      do 2 eexists. split; [done|]. cbn [Dist.objects Dist._plugins Dist.invoked].
      split_and!; [done..|].
      change h1 with (l, h1).2. rewrite <- Ha. apply alloc_subseteq.
    - do 2 eexists. rewrite ret_run. done. }
  rewrite bind_run. cbv beta iota. rewrite bind_run.
  destruct (Dist.has_method methodName (Dist._plugins σ1) σ1) as [[b|e] σ2] eqn:Hhas; [|done].
  apply has_method_inv in Hhas as [-> Hb]. rewrite Hp1 in Hb.
  destruct b.
  - rewrite bind_run. unfold Dist.on_objects at 1.
    destruct (Dist.PluginEvent d _ (Dist.objects σ1)) as [[ev|e] h2] eqn:Hev; [|done].
    apply dist_PluginEvent_new in Hev as (e & -> & Hfresh & Hsub).
    rewrite bind_run.
    destruct (Dist.invoke_all _ _ _ _ _) as [[[]|e'] σ3] eqn:Hall; [|done].
    rewrite ret_run. intros [= <- <-].
    apply invoke_all_inv in Hall as (Hp3 & Hnull & Hi3).
    cbn [Dist.objects Dist._plugins Dist.invoked] in Hp3, Hi3.
    rewrite Hp1 in Hnull, Hi3, Hp3. rewrite Hi1 in Hi3.
    split_and!; [done..|]. right. exists e. split_and!; [done| |done|].
    + intros Hin. apply Hfresh. by eapply (subseteq_dom (Dist.objects σ)).
    + rewrite Hi3. done.
  - rewrite ret_run. intros [= <- <-]. destruct Hb as [Hnull Hnone].
    split_and!; [done..|]. by left.
Qed.

Lemma dist_invoke_calls_the_plugins_in_order_witness :
  (∃ e, (Dist.invoke (VStr "test") (VRef 0) (VBool false) three_plugins).1
        = Normal (VRef e)
        ∧ Dist.invoked
            (Dist.invoke (VStr "test") (VRef 0) (VBool false) three_plugins).2
          = [(0, "test", VRef e); (2, "test", VRef e)]%nat)
  ∧ Dist.objects (Dist.invoke (VStr "test") (VRef 0) (VBool false) three_plugins).2
    !! 0%nat = Some (plain {[ "count" := VNum 2 ]})
  ∧ (Dist.invoke (VStr "absent") (VRef 0) (VBool false) three_plugins).1 = Normal VNull
  ∧ (Dist.invoke (VStr "test") (VRef 0) (VBool false) with_null_plugin).1
    = Throw (TypeError "Cannot read property of null").
Proof.
  split; [|split; [|split]].
  - destruct (Dist.invoke (VStr "test") (VRef 0) (VBool false) three_plugins)
      as [r σ'] eqn:Hrun.
    assert (r = (Dist.invoke (VStr "test") (VRef 0) (VBool false) three_plugins).1) as Hr
      by (by rewrite Hrun).
    vm_compute in Hr. subst r.
    destruct (dist_invoke_calls_the_plugins_in_order _ _ _ _ _ _ Hrun)
      as (_ & _ & [[Hnull _]|(e & He & _ & _ & Hcalls)]); [discriminate Hnull|].
    exists e. split; [cbn [fst]; by rewrite He|]. cbn [snd]. rewrite Hcalls. reflexivity.
  - vm_compute. reflexivity.
  - vm_compute. reflexivity.
  - vm_compute. reflexivity.
Defined.

